(** * WaterMarker: a shallow embedding of [WaterMarker.go]

    The program reads its flags, checks the watermark file and the two
    directories, loads the watermark, builds a uniform opacity mask, lists
    the source directory, starts one goroutine per directory entry and waits
    for all of them before it reports.

    The embedding has three layers:
    - the pure part of a task (placement offset, compositing, mask value),
      over a model of the parts of Go's [image], [image/color] and
      [image/draw] packages that [main] calls;
    - the effectful code ([openImage], [saveImage], [getFiles], the
      goroutine body and [main]) as programs over the calls they make to the
      operating system, the codecs and the [sync.WaitGroup];
    - a machine that interleaves the main thread and the goroutines under an
      arbitrary schedule.

    Go's [int] coordinates are modelled as [Z]; image dimensions are far
    below 2^63, so coordinate arithmetic does not wrap.  The one conversion
    in the program that truncates, the [uint8] of the opacity times 255, is
    written out with its wrap-around. *)

From Stdlib Require Import ZArith String Ascii List Lia Bool.
From stdpp Require Import base option list gmap strings.

Local Open Scope Z_scope.

(** ** Go's integer types *)

(** [int] is 64 bits wide on the platforms Go builds this program for;
    arithmetic wraps to the signed range. *)
Definition wrap_int (z : Z) : Z := (z + 2 ^ 63) mod 2 ^ 64 - 2 ^ 63.

(** Conversions to unsigned types keep the low bits. *)
Definition uint8 (z : Z) : Z := z mod 2 ^ 8.
Definition uint32 (z : Z) : Z := z mod 2 ^ 32.

(** ** Package [strings] *)

Module gostrings.

(** [strings.HasSuffix(s, suffix)]:
    [len(s) >= len(suffix) && s[len(s)-len(suffix):] == suffix]. *)
Definition HasSuffix (s suffix : string) : bool :=
  (String.length suffix <=? String.length s)%nat &&
  String.eqb
    (substring (String.length s - String.length suffix) (String.length suffix) s)
    suffix.

End gostrings.

(** ** Package [image/color] *)

Module color.

(** What [Color.RGBA()] returns: alpha-premultiplied red, green, blue and
    alpha, each a 16-bit value held in a [uint32]. *)
Record Color := RGBA16 { cr : Z; cg : Z; cb : Z; ca : Z }.

(** The contract of the [Color] interface: every channel is within
    [0, 0xffff] and, being premultiplied, no colour channel exceeds alpha. *)
Definition premultiplied (c : Color) : Prop :=
  0 <= cr c <= ca c /\ 0 <= cg c <= ca c /\ 0 <= cb c <= ca c /\
  ca c <= 65535.

(** [color.Alpha{A}.RGBA()]: [a := uint32(c.A); a |= a << 8; return a, a, a, a]. *)
Definition Alpha_RGBA (A : Z) : Color :=
  let a := Z.lor A (Z.shiftl A 8) in RGBA16 a a a a.

(** [color.NRGBA{R,G,B,A}.RGBA()], the colour type of a decoded PNG with an
    alpha channel: each channel is widened to 16 bits, multiplied by alpha
    and divided by 0xff. *)
Definition NRGBA_RGBA (R G B A : Z) : Color :=
  let pre c := uint32 (Z.lor c (Z.shiftl c 8) * A) / 255 in
  RGBA16 (pre R) (pre G) (pre B) (Z.lor A (Z.shiftl A 8)).

(** [color.RGBA]: four 8-bit channels, the pixel format of [image.RGBA]. *)
Record RGBA := RGBA8 { R : Z; G : Z; B : Z; A : Z }.

End color.

(** ** Package [image]: points, rectangles, images *)

Module image.

Record Point := Pt { X : Z; Y : Z }.

Record Rectangle := Rect_ { Min : Point; Max : Point }.

(** The zero values [image.Point{}] and [image.Rectangle{}]. *)
Definition ZP : Point := Pt 0 0.
Definition ZR : Rectangle := Rect_ ZP ZP.

Definition Point_Sub (p q : Point) : Point := Pt (X p - X q) (Y p - Y q).

Definition Point_In (p : Point) (r : Rectangle) : bool :=
  (X (Min r) <=? X p) && (X p <? X (Max r)) &&
  (Y (Min r) <=? Y p) && (Y p <? Y (Max r)).

Definition Dx (r : Rectangle) : Z := X (Max r) - X (Min r).
Definition Dy (r : Rectangle) : Z := Y (Max r) - Y (Min r).

Definition Add (r : Rectangle) (p : Point) : Rectangle :=
  Rect_ (Pt (X (Min r) + X p) (Y (Min r) + Y p))
        (Pt (X (Max r) + X p) (Y (Max r) + Y p)).

Definition Empty (r : Rectangle) : bool :=
  (X (Max r) <=? X (Min r)) || (Y (Max r) <=? Y (Min r)).

(** [Rectangle.Intersect]: the four bounds are tightened one by one and an
    empty result is replaced by the zero rectangle. *)
Definition Intersect (r s : Rectangle) : Rectangle :=
  let minx := if X (Min r) <? X (Min s) then X (Min s) else X (Min r) in
  let miny := if Y (Min r) <? Y (Min s) then Y (Min s) else Y (Min r) in
  let maxx := if X (Max s) <? X (Max r) then X (Max s) else X (Max r) in
  let maxy := if Y (Max s) <? Y (Max r) then Y (Max s) else Y (Max r) in
  let r' := Rect_ (Pt minx miny) (Pt maxx maxy) in
  if Empty r' then ZR else r'.

(** An [image.Image] as the program uses one: its [Bounds()] and, for every
    point, the value of [At(x, y).RGBA()]. *)
Record Image := { Bounds : Rectangle; At : Z -> Z -> color.Color }.

(** [image.NewUniform(c)]: an image of unbounded extent and one colour. *)
Definition NewUniform (c : color.Color) : Image :=
  {| Bounds := Rect_ (Pt (-1000000000) (-1000000000)) (Pt 1000000000 1000000000);
     At := fun _ _ => c |}.

(** [image.RGBA]: a byte slice of four channels per pixel, rows [Stride]
    bytes apart, covering [Rect]. *)
Record RGBA := { Pix : list Z; Stride : Z; Rect : Rectangle }.

(** [image.NewRGBA(r)] panics on a rectangle of negative width or height
    ([None]); otherwise the buffer is zeroed. *)
Definition NewRGBA (r : Rectangle) : option RGBA :=
  let w := Dx r in
  let h := Dy r in
  if (w <? 0) || (h <? 0) then None
  else Some {| Pix := replicate (Z.to_nat (4 * w * h)) 0;
               Stride := 4 * w;
               Rect := r |}.

Definition PixOffset (p : RGBA) (x y : Z) : Z :=
  (y - Y (Min (Rect p))) * Stride p + (x - X (Min (Rect p))) * 4.

(** [p.RGBAAt(x, y)]: the zero colour outside [p.Rect], the four bytes at
    [PixOffset] inside. *)
Definition RGBAAt (p : RGBA) (x y : Z) : color.RGBA :=
  if negb (Point_In (Pt x y) (Rect p)) then color.RGBA8 0 0 0 0
  else
    let i := Z.to_nat (PixOffset p x y) in
    color.RGBA8 (Pix p !!! i) (Pix p !!! (i + 1)%nat)
                (Pix p !!! (i + 2)%nat) (Pix p !!! (i + 3)%nat).

End image.


(** ** Package [image/draw]

    [WaterMarker.go] calls [draw.Draw] and [draw.DrawMask] (lines 115 and
    116) but their code belongs to Go's standard library, not to this
    repository.  What the specification says of them (section 4.2: alpha-over
    blending scaled by the mask, silent clipping) is made precise here by
    the steps of the library: [clip], then the pixel loop of [drawRGBA].
    The arguments the calls are given are those of the source. *)

Module draw.
Import image.

Inductive Op := Over | Src.

(** The largest 16-bit channel value, [m = 1<<16 - 1]. *)
Definition m : Z := 65535.

(** Modelled from the spec: [clip] is a function of Go's [image/draw], not
    of this repository; it is the silent clipping of section 4.2.  It
    restricts the destination rectangle to the destination, source and mask
    bounds and moves the source and mask points along with its top-left
    corner. *)
Definition clip (dstBounds r srcBounds : Rectangle) (sp : Point)
    (mask : option Image) (mp : Point) : Rectangle * Point * Point :=
  let orig := Min r in
  let r := Intersect r dstBounds in
  let r := Intersect r (Add srcBounds (Point_Sub orig sp)) in
  let r := match mask with
           | Some mk => Intersect r (Add (Bounds mk) (Point_Sub orig mp))
           | None => r
           end in
  let dx := X (Min r) - X orig in
  let dy := Y (Min r) - Y orig in
  if (dx =? 0) && (dy =? 0) then (r, sp, mp)
  else (r, Pt (X sp + dx) (Y sp + dy), Pt (X mp + dx) (Y mp + dy)).

(** [d := dst.Pix[i : i+4 : i+4]] panics when the four bytes are not inside
    the slice. *)
Definition slice4 (pix : list Z) (i : Z) : option color.RGBA :=
  if (0 <=? i) && (i + 4 <=? Z.of_nat (length pix)) then
    let n := Z.to_nat i in
    Some (color.RGBA8 (pix !!! n) (pix !!! (n + 1)%nat)
                      (pix !!! (n + 2)%nat) (pix !!! (n + 3)%nat))
  else None.

Definition store4 (pix : list Z) (i : Z) (d : color.RGBA) : list Z :=
  let n := Z.to_nat i in
  <[(n + 3)%nat := color.A d]>
    (<[(n + 2)%nat := color.B d]>
      (<[(n + 1)%nat := color.G d]> (<[n := color.R d]> pix))).

(** Modelled from the spec: the pixel arithmetic of Go's [image/draw], not
    of this repository; it is the alpha-over blending of section 4.2 with
    the source alpha scaled by the mask.  The body of the pixel loop of
    [drawRGBA], in [uint32] arithmetic:
    for [Over],
    [a := (m - (sa * ma / m)) * 0x101] and
    [d = uint8((d*a + s*ma) / m >> 8)] per channel;
    for [Src], [d = uint8(s * ma / m >> 8)]. *)
Definition blend (op : Op) (d : color.RGBA) (s : color.Color) (ma : Z)
    : color.RGBA :=
  match op with
  | Over =>
      let a := uint32 ((m - uint32 (color.ca s * ma) / m) * 257) in
      let ch dc sc :=
        uint8 (Z.shiftr (uint32 (uint32 (dc * a) + uint32 (sc * ma)) / m) 8) in
      color.RGBA8 (ch (color.R d) (color.cr s)) (ch (color.G d) (color.cg s))
                  (ch (color.B d) (color.cb s)) (ch (color.A d) (color.ca s))
  | Src =>
      let ch sc := uint8 (Z.shiftr (uint32 (sc * ma) / m) 8) in
      color.RGBA8 (ch (color.cr s)) (ch (color.cg s))
                  (ch (color.cb s)) (ch (color.ca s))
  end.

Section Loops.
Variables (src : Image) (mask : option Image) (op : Op) (stride : Z).

(** [ma := uint32(m); if mask != nil { _, _, _, ma = mask.At(mx, my).RGBA() }] *)
Definition mask_alpha (mx my : Z) : Z :=
  match mask with
  | None => m
  | Some mk => color.ca (At mk mx my)
  end.

Definition draw_pixel (pix : list Z) (i sx sy mx my : Z) : option (list Z) :=
  let ma := mask_alpha mx my in
  let s := At src sx sy in
  d ← slice4 pix i;
  Some (store4 pix i (blend op d s ma)).

(** The inner loop [for i, sx, mx := i0, sx0, mx0; sx != sx1; ...]; [n] is
    the number of columns left, [sx1 - sx]. *)
Fixpoint draw_row (n : nat) (pix : list Z) (i sx mx sy my : Z)
    : option (list Z) :=
  match n with
  | O => Some pix
  | S n' =>
      pix' ← draw_pixel pix i sx sy mx my;
      draw_row n' pix' (i + 4) (sx + 1) (mx + 1) sy my
  end.

(** The outer loop [for y := y0; y != y1; ...], which ends each row with
    [i0 += dy * dst.Stride]; [n] is the number of rows left. *)
Fixpoint draw_rows (n w : nat) (pix : list Z) (i0 sx0 mx0 sy my : Z)
    : option (list Z) :=
  match n with
  | O => Some pix
  | S n' =>
      pix' ← draw_row w pix i0 sx0 mx0 sy my;
      draw_rows n' w pix' (i0 + stride) sx0 mx0 (sy + 1) (my + 1)
  end.
End Loops.

(** Modelled from the spec: [drawRGBA] is a function of Go's [image/draw],
    not of this repository; it is the general path for an [*image.RGBA]
    destination.  The destination is never the source in this program, so
    the loops run forwards ([dx = dy = 1]). *)
Definition drawRGBA (dst : RGBA) (r : Rectangle) (src : Image) (sp : Point)
    (mask : option Image) (mp : Point) (op : Op) : option RGBA :=
  let x0 := X (Min r) in
  let x1 := X (Max r) in
  let y0 := Y (Min r) in
  let y1 := Y (Max r) in
  let sy := Y sp + y0 - Y (Min r) in
  let my := Y mp + y0 - Y (Min r) in
  let sx0 := X sp + x0 - X (Min r) in
  let mx0 := X mp + x0 - X (Min r) in
  let i0 := PixOffset dst x0 y0 in
  pix' ← draw_rows src mask op (Stride dst)
           (Z.to_nat (y1 - y0)) (Z.to_nat (x1 - x0)) (Pix dst) i0 sx0 mx0 sy my;
  Some {| Pix := pix'; Stride := Stride dst; Rect := Rect dst |}.

(** Modelled from the spec: [draw.DrawMask] is a function of Go's
    [image/draw], not of this repository; it is step 2 of the Compositor of
    section 4.2, here on an [*image.RGBA] destination.  With a mask that is
    an [*image.Uniform], or a source that is a decoded image and no mask,
    Go either takes [drawRGBA] or a fast path that computes the same
    bytes. *)
Definition DrawMask (dst : RGBA) (r : Rectangle) (src : Image) (sp : Point)
    (mask : option Image) (mp : Point) (op : Op) : option RGBA :=
  let '(r, sp, mp) := clip (Rect dst) r (Bounds src) sp mask mp in
  if Empty r then Some dst
  else drawRGBA dst r src sp mask mp op.

(** Modelled from the spec: [draw.Draw] is a function of Go's [image/draw],
    not of this repository; it is step 1 of the Compositor of section 4.2
    and is [DrawMask] with a nil mask. *)
Definition Draw (dst : RGBA) (r : Rectangle) (src : Image) (sp : Point)
    (op : Op) : option RGBA :=
  DrawMask dst r src sp None ZP op.

End draw.

(** ** The world outside the program *)

(** A [float64] by its IEEE 754 bit pattern ([math.Float64bits]). *)
Inductive float64 := Float64frombits (bits : Z).

Definition bytes := list Z.

(** [os.FileInfo]; the program reads only [Name()]. *)
Record FileInfo := { Name : string; IsDir : bool }.

(** The three outcomes of [os.Stat] the program tells apart. *)
Inductive StatResult := StatOk | StatNotExist | StatOtherError.

(** The file system, the codecs and the resizer as the program meets them
    in one run.  Floating-point arithmetic is not modelled: [scaled_height]
    stands for the expression [uint(watermarkScale*float64(imgSize.Dy()))]. *)
Record Env := {
  os_Stat : string -> StatResult;
  os_Open : string -> option bytes;
  os_Create : string -> bool;
  ioutil_ReadDir : string -> option (list FileInfo);
  path_Join : string -> string -> string;
  png_Decode : bytes -> option image.Image;
  jpeg_Decode : bytes -> option image.Image;
  jpeg_Encode : image.RGBA -> Z -> option bytes;
  scaled_height : float64 -> Z -> Z;
  resize_Resize : Z -> Z -> image.Image -> image.Image
}.

(** ** Flags *)

(** The values of the flags after [flag.Parse()]. *)
Record Flags := {
  paramOpacity : Z;
  paramLocation : string;
  paramScale : float64;
  paramWatermark : string;
  paramSourceDir : string;
  paramTargetDir : string;
  paramForce : bool
}.

(** The defaults of the [flag] declarations; [0.2] is [0x3FC999999999999A]. *)
Definition default_flags : Flags :=
  {| paramOpacity := 70;
     paramLocation := "right";
     paramScale := Float64frombits 4596373779694328218;
     paramWatermark := "watermark.png";
     paramSourceDir := "photos";
     paramTargetDir := "watermarked";
     paramForce := false |}.

(** ** The pure part of [main] and of a task *)

(** The alpha of [color.Alpha{uint8(opacity * 255)}], line 84. *)
Definition mask_value (opacity : Z) : Z := uint8 (wrap_int (opacity * 255)).

(** [mask := image.NewUniform(color.Alpha{uint8(opacity * 255)})]. *)
Definition new_mask (opacity : Z) : image.Image :=
  image.NewUniform (color.Alpha_RGBA (mask_value opacity)).

(** Lines 108 to 113: [watermarkOffset] is declared with its zero value and
    assigned only when the location string is ["left"] or ["right"]. *)
Definition watermarkOffset (watermarkLocation : string)
    (imgSize wmSize : image.Rectangle) : image.Point :=
  if String.eqb watermarkLocation "left" then
    image.Pt 0 (image.Y (image.Max imgSize) - image.Y (image.Max wmSize))
  else if String.eqb watermarkLocation "right" then
    image.Pt (image.X (image.Max imgSize) - image.X (image.Max wmSize))
             (image.Y (image.Max imgSize) - image.Y (image.Max wmSize))
  else image.ZP.

(** Lines 107, 115 and 116: the canvas is allocated, the photo is copied
    into it and the watermark is drawn over it through the mask.  [None] is
    a panic. *)
Definition composite (srcImage scaledWatermark mask : image.Image)
    (watermarkOffset : image.Point) : option image.RGBA :=
  let imgSize := image.Bounds srcImage in
  canvas ← image.NewRGBA imgSize;
  canvas ← draw.Draw canvas imgSize srcImage (image.Pt 0 0) draw.Src;
  draw.DrawMask canvas (image.Add imgSize watermarkOffset) scaledWatermark
    (image.Pt 0 0) (Some mask) (image.Pt 0 0) draw.Over.

(** The canvas after line 115 alone: the photo as an [image.RGBA]. *)
Definition base_canvas (srcImage : image.Image) : option image.RGBA :=
  let imgSize := image.Bounds srcImage in
  canvas ← image.NewRGBA imgSize;
  draw.Draw canvas imgSize srcImage (image.Pt 0 0) draw.Src.

(** Lines 102 to 116 of a task, from the decoded photo to the canvas. *)
Definition watermarked (E : Env) (srcImage watermark mask : image.Image)
    (watermarkLocation : string) (watermarkScale : float64)
    : option image.RGBA :=
  let imgSize := image.Bounds srcImage in
  let scaledWatermark :=
    resize_Resize E 0 (scaled_height E watermarkScale (image.Dy imgSize))
      watermark in
  let wmSize := image.Bounds scaledWatermark in
  composite srcImage scaledWatermark mask
    (watermarkOffset watermarkLocation imgSize wmSize).

(** ** Programs *)

(** What the program prints or logs.  Constant texts are kept as they are;
    a formatted message keeps its arguments.  The elapsed time printed with
    the final count is not modelled. *)
Inductive Msg :=
  | Text (s : string)
  | MsgOpacity (opacity : Z)
  | MsgLocation (location : string)
  | MsgScale (scale : float64)
  | MsgWatermark (name : string)
  | MsgSourceDir (dir : string)
  | MsgTargetDir (dir : string)
  | ErrWatermarkMissing (name : string)
  | ErrWatermarkNotPNG (name : string)
  | ErrSourceMissing (dir : string)
  | WarnTargetExists (dir : string)
  | MsgStarting (count : Z)
  | MsgSkipping (name : string)
  | MsgAllDone (count : Z)
  | ErrReadDir (dir : string)
  | ErrCreate (fpath : string)
  | ErrEncode (fpath : string)
  | ErrOpen (fname : string)
  | ErrDecodeJPEG (fname : string)
  | ErrDecodePNG (fname : string)
  | ErrFileType (ftype : string).

(** A thread of the program: the calls it makes, each with the rest of the
    thread as its continuation.  [Fatal] is [log.Fatal] and [log.Fatalf]
    (a line on standard error, then [os.Exit(1)]); [Panic] is the end of a
    panic that nothing recovers, when the deferred calls have run and the
    process exits with code 2; [Go] starts a goroutine.
    [defer inputfile.Close()] and [defer outputFile.Close()] have no part
    in what follows and are left out. *)
Inductive Prog :=
  | Ret
  | Print (msg : Msg) (k : Prog)
  | Fatal (msg : Msg)
  | Exit (code : Z)
  | Panic
  | Stat (name : string) (k : StatResult -> Prog)
  | Mkdir (name : string) (k : Prog)
  | ReadDir (dir : string) (k : option (list FileInfo) -> Prog)
  | Open (fname : string) (k : option bytes -> Prog)
  | Create (fpath : string) (k : bool -> Prog)
  | Encode (fpath : string) (img : image.RGBA) (quality : Z) (k : bool -> Prog)
  | Go (thread : Prog) (k : Prog)
  | WgAdd (delta : Z) (k : Prog)
  | WgDone (k : Prog)
  | WgWait (k : Prog)
  | Scanln (k : Prog).

Declare Scope prog_scope.
Delimit Scope prog_scope with prog.
Bind Scope prog_scope with Prog.
Notation "c ;; k" := (c k%prog)
  (at level 100, k at level 200, right associativity, only parsing) : prog_scope.
Notation "x <- c ;; k" := (c (fun x => k%prog))
  (at level 100, c at next level, k at level 200, right associativity,
   only parsing) : prog_scope.

Definition Println (s : string) : Prog -> Prog := Print (Text s).

(** The text of lines 81 and 125, which [fmt.Print] writes between two
    newlines: a newline and the rule, written as a line. *)
Definition rule : string :=
  String "010"%char "--------------------------------------".

Section Program.
Variable E : Env.

(** [openImage], lines 155 to 176. *)
Definition openImage (fname ftype : string) (k : image.Image -> Prog) : Prog :=
  (r <- Open fname ;;
   match r with
   | None => Fatal (ErrOpen fname)
   | Some inputfile =>
       if String.eqb ftype "jpeg" then
         match jpeg_Decode E inputfile with
         | None => Fatal (ErrDecodeJPEG fname)
         | Some srcimage => k srcimage
         end
       else if String.eqb ftype "png" then
         match png_Decode E inputfile with
         | None => Fatal (ErrDecodePNG fname)
         | Some srcimage => k srcimage
         end
       else Fatal (ErrFileType ftype)
   end)%prog.

(** [saveImage], lines 139 to 153. *)
Definition saveImage (img : image.RGBA) (pname fname : string) (k : Prog)
    : Prog :=
  let fpath := path_Join E pname fname in
  (created <- Create fpath ;;
   if negb created then Fatal (ErrCreate fpath)
   else
     encoded <- Encode fpath img 95 ;;
     if negb encoded then Fatal (ErrEncode fpath)
     else k)%prog.

(** [getFiles], lines 131 to 137. *)
Definition getFiles (dir : string) (k : list FileInfo -> Prog) : Prog :=
  (r <- ReadDir dir ;;
   match r with
   | None => Fatal (ErrReadDir dir)
   | Some files => k files
   end)%prog.

(** The function literal of lines 93 to 119.  [deferred] is the deferred
    call, [wg.Done()]: it runs when the function returns and, before the
    process goes down, when the function panics.  It does not run when
    [log.Fatal] exits the process. *)
Definition task (file : FileInfo) (watermark mask : image.Image)
    (watermarkLocation : string) (watermarkScale : float64)
    (sourceDir targetDir : string) (deferred : Prog -> Prog) : Prog :=
  (if negb (gostrings.HasSuffix (Name file) ".jpg") &&
      negb (gostrings.HasSuffix (Name file) ".jpeg")
   then
     Print (MsgSkipping (Name file)) ;;
     deferred Ret
   else
     srcImage <- openImage (path_Join E sourceDir (Name file)) "jpeg" ;;
     match watermarked E srcImage watermark mask watermarkLocation
             watermarkScale with
     | None => deferred Panic
     | Some canvas =>
         saveImage canvas targetDir (Name file) ;;
         deferred Ret
     end)%prog.

(** The [go] statement of lines 93 and 119 with the arguments it passes. *)
Definition go_task (fl : Flags) (watermark mask : image.Image)
    (file : FileInfo) : Prog :=
  task file watermark mask (paramWatermark fl) (paramScale fl)
    (paramSourceDir fl) (paramTargetDir fl) WgDone.

(** [for _, file := range files { go ... }]. *)
Fixpoint range_go (files : list FileInfo) (body : FileInfo -> Prog)
    (k : Prog) : Prog :=
  match files with
  | [] => k
  | file :: rest => Go (body file) (range_go rest body k)
  end.

(** Lines 87 to 128: the batch proper. *)
Definition run_batch (fl : Flags) (watermark mask : image.Image)
    (files : list FileInfo) : Prog :=
  (Print (MsgStarting (Z.of_nat (length files))) ;;
   WgAdd (Z.of_nat (length files)) ;;
   range_go files (go_task fl watermark mask) ;;
   WgWait ;;
   Print (MsgAllDone (Z.of_nat (length files))) ;;
   Println rule ;;
   Println "" ;;
   Println "Press any key to exit" ;;
   Scanln ;;
   Ret)%prog.

(** Lines 81 to 85. *)
Definition load_and_run (fl : Flags) : Prog :=
  (Println rule ;;
   watermark <- openImage (paramWatermark fl) "png" ;;
   let mask := new_mask (paramOpacity fl) in
   files <- getFiles (paramSourceDir fl) ;;
   run_batch fl watermark mask files)%prog.

(** [main], lines 33 to 129. *)
Definition main (fl : Flags) : Prog :=
  (Println "**************************************************************************" ;;
   Println "*                                                                        *" ;;
   Println "*      WaterMarker v1.0 - Written by Tjeerd Bakker (ICheered) in Go      *" ;;
   Println "*                                                                        *" ;;
   Println "**************************************************************************" ;;
   Println "" ;;
   Println "For help: run the program from command line with the -h flag" ;;
   Println "Having issues? Please let me know at Tjeerd992@gmail.com" ;;
   Println "" ;;
   Println "Using following parameters:" ;;
   Print (MsgOpacity (paramOpacity fl)) ;;
   Print (MsgLocation (paramLocation fl)) ;;
   Print (MsgScale (paramScale fl)) ;;
   Print (MsgWatermark (paramWatermark fl)) ;;
   Print (MsgSourceDir (paramSourceDir fl)) ;;
   Print (MsgTargetDir (paramTargetDir fl)) ;;
   st <- Stat (paramWatermark fl) ;;
   match st with
   | StatNotExist => Fatal (ErrWatermarkMissing (paramWatermark fl))
   | _ =>
   if negb (gostrings.HasSuffix (paramWatermark fl) ".png") then
     Fatal (ErrWatermarkNotPNG (paramWatermark fl))
   else
   st <- Stat (paramSourceDir fl) ;;
   match st with
   | StatNotExist => Fatal (ErrSourceMissing (paramSourceDir fl))
   | _ =>
   st <- Stat (paramTargetDir fl) ;;
   match st with
   | StatOk =>
       Print (WarnTargetExists (paramTargetDir fl)) ;;
       if paramForce fl then
         Println "         Using --force, so will overwrite existing files" ;;
         load_and_run fl
       else
         Println "         Use --force to overwrite existing files" ;;
         Println "         Exiting to avoid overwriting existing files." ;;
         Exit 1
   | _ =>
       Mkdir (paramTargetDir fl) ;;
       load_and_run fl
   end
   end
   end)%prog.

End Program.

(** ** The machine: threads, the shared world and the scheduler *)

(** One step of a thread as the rest of the process sees it. *)
Inductive Event :=
  | EvPrint (msg : Msg)
  | EvFatal (msg : Msg)
  | EvExit (code : Z)
  | EvPanic
  | EvStat (name : string)
  | EvMkdir (name : string)
  | EvReadDir (dir : string)
  | EvOpen (fname : string)
  | EvCreate (fpath : string) (ok : bool)
  | EvEncode (fpath : string) (data : option bytes)
  | EvGo (thread : Prog)
  | EvAdd (delta : Z)
  | EvDone
  | EvWait
  | EvScanln.

(** What all threads share: the two output streams, the files and
    directories the process has written, and the counter of the
    [sync.WaitGroup]. *)
Record World := {
  stdout : list Msg;
  stderr : list Msg;
  written : gmap string bytes;
  made_dirs : list string;
  wg : Z
}.

Definition new_world : World :=
  {| stdout := []; stderr := []; written := ∅; made_dirs := []; wg := 0 |}.

Inductive Status := Running | Exited (code : Z).

Record Machine := {
  main_thread : Prog;
  pool : list Prog;
  world : World;
  status : Status
}.

Inductive Tid := MainThread | Goroutine (i : nat).

(** [wg.Add(delta)] and [wg.Done()] panic when the counter would become
    negative. *)
Definition wg_add (delta : Z) (w : World) : World * option Z :=
  if wg w + delta <? 0 then (w, Some 2)
  else ({| stdout := stdout w; stderr := stderr w; written := written w;
           made_dirs := made_dirs w; wg := wg w + delta |}, None).

(** The effect of an event on the world, and the exit code when the event
    ends the process: 1 for [log.Fatal] and for the explicit [os.Exit(1)],
    2 for a panic. *)
Definition effect (e : Event) (w : World) : World * option Z :=
  match e with
  | EvPrint msg =>
      ({| stdout := stdout w ++ [msg]; stderr := stderr w;
          written := written w; made_dirs := made_dirs w; wg := wg w |}, None)
  | EvFatal msg =>
      ({| stdout := stdout w; stderr := stderr w ++ [msg];
          written := written w; made_dirs := made_dirs w; wg := wg w |}, Some 1)
  | EvExit code => (w, Some code)
  | EvPanic => (w, Some 2)
  | EvMkdir name =>
      ({| stdout := stdout w; stderr := stderr w; written := written w;
          made_dirs := made_dirs w ++ [name]; wg := wg w |}, None)
  | EvCreate fpath true =>
      ({| stdout := stdout w; stderr := stderr w;
          written := <[fpath := []]> (written w);
          made_dirs := made_dirs w; wg := wg w |}, None)
  | EvEncode fpath (Some data) =>
      ({| stdout := stdout w; stderr := stderr w;
          written := <[fpath := data]> (written w);
          made_dirs := made_dirs w; wg := wg w |}, None)
  | EvAdd delta => wg_add delta w
  | EvDone => wg_add (-1) w
  | EvCreate _ false | EvEncode _ None
  | EvStat _ | EvReadDir _ | EvOpen _ | EvGo _ | EvWait | EvScanln => (w, None)
  end.

(** [wg.Wait()] blocks until the counter is zero; every other call can
    always be made. *)
Definition enabled (e : Event) (w : World) : bool :=
  match e with
  | EvWait => wg w =? 0
  | _ => true
  end.

Definition spawned (e : Event) : list Prog :=
  match e with
  | EvGo thread => [thread]
  | _ => []
  end.

Section Machine.
Variable E : Env.

(** The next call of a thread and the thread after it, with the answers
    of the environment filled in.  A thread that has returned has none. *)
Definition next (p : Prog) : option (Event * Prog) :=
  match p with
  | Ret => None
  | Print msg k => Some (EvPrint msg, k)
  | Fatal msg => Some (EvFatal msg, Ret)
  | Exit code => Some (EvExit code, Ret)
  | Panic => Some (EvPanic, Ret)
  | Stat name k => Some (EvStat name, k (os_Stat E name))
  | Mkdir name k => Some (EvMkdir name, k)
  | ReadDir dir k => Some (EvReadDir dir, k (ioutil_ReadDir E dir))
  | Open fname k => Some (EvOpen fname, k (os_Open E fname))
  | Create fpath k => Some (EvCreate fpath (os_Create E fpath), k (os_Create E fpath))
  | Encode fpath img quality k =>
      match jpeg_Encode E img quality with
      | Some data => Some (EvEncode fpath (Some data), k true)
      | None => Some (EvEncode fpath None, k false)
      end
  | Go thread k => Some (EvGo thread, k)
  | WgAdd delta k => Some (EvAdd delta, k)
  | WgDone k => Some (EvDone, k)
  | WgWait k => Some (EvWait, k)
  | Scanln k => Some (EvScanln, k)
  end.

(** The machine after thread [c] has made the call [e] and become [k]. *)
Definition commit (c : Tid) (e : Event) (k : Prog) (m : Machine) : Machine :=
  match effect e (world m) with
  | (w, Some code) =>
      {| main_thread := main_thread m; pool := pool m; world := w;
         status := Exited code |}
  | (w, None) =>
      match c with
      | MainThread =>
          {| main_thread := k; pool := pool m ++ spawned e; world := w;
             status := Running |}
      | Goroutine i =>
          {| main_thread := main_thread m;
             pool := <[i := k]> (pool m) ++ spawned e; world := w;
             status := Running |}
      end
  end.

(** One step of the process: the scheduler picks thread [c].  [None] when
    [c] cannot run: the process has exited, there is no such goroutine, it
    has returned, or it is blocked in [wg.Wait()].  When [main] returns,
    the process exits with code 0 whatever the goroutines are doing. *)
Definition mstep (c : Tid) (m : Machine) : option Machine :=
  match status m with
  | Exited _ => None
  | Running =>
      match c with
      | MainThread =>
          match next (main_thread m) with
          | None =>
              Some {| main_thread := main_thread m; pool := pool m;
                      world := world m; status := Exited 0 |}
          | Some (e, k) =>
              if enabled e (world m) then Some (commit c e k m) else None
          end
      | Goroutine i =>
          match pool m !! i with
          | None => None
          | Some p =>
              match next p with
              | None => None
              | Some (e, k) =>
                  if enabled e (world m) then Some (commit c e k m) else None
              end
          end
      end
  end.

(** A schedule is the list of the scheduler's choices. *)
Fixpoint exec (sched : list Tid) (m : Machine) : option Machine :=
  match sched with
  | [] => Some m
  | c :: rest =>
      match mstep c m with
      | None => None
      | Some m' => exec rest m'
      end
  end.

Definition start (p : Prog) : Machine :=
  {| main_thread := p; pool := []; world := new_world; status := Running |}.

(** The states a run of the program with flags [fl] can be in. *)
Definition reachable (fl : Flags) (m : Machine) : Prop :=
  exists sched, exec sched (start (main E fl)) = Some m.

(** The calls a thread makes when nothing stops it, in order. *)
Fixpoint future (p : Prog) : list Event :=
  match p with
  | Ret => []
  | Print msg k => EvPrint msg :: future k
  | Fatal msg => [EvFatal msg]
  | Exit code => [EvExit code]
  | Panic => [EvPanic]
  | Stat name k => EvStat name :: future (k (os_Stat E name))
  | Mkdir name k => EvMkdir name :: future k
  | ReadDir dir k => EvReadDir dir :: future (k (ioutil_ReadDir E dir))
  | Open fname k => EvOpen fname :: future (k (os_Open E fname))
  | Create fpath k =>
      EvCreate fpath (os_Create E fpath) :: future (k (os_Create E fpath))
  | Encode fpath img quality k =>
      match jpeg_Encode E img quality with
      | Some data => EvEncode fpath (Some data) :: future (k true)
      | None => EvEncode fpath None :: future (k false)
      end
  | Go thread k => EvGo thread :: future k
  | WgAdd delta k => EvAdd delta :: future k
  | WgDone k => EvDone :: future k
  | WgWait k => EvWait :: future k
  | Scanln k => EvScanln :: future k
  end.

End Machine.

(** ** Vocabulary of the statements *)

(** The alpha the flag's help text and the specification describe: the
    percentage scaled to the 0..255 channel range and rounded to the nearest
    integer. *)
Definition spec_mask_value (opacity : Z) : Z := (opacity * 255 + 50) / 100.


(** A rectangle with its top-left corner at the origin, as the bounds of a
    decoded or resized image are. *)
Definition sized (w h : Z) : image.Rectangle :=
  image.Rect_ (image.Pt 0 0) (image.Pt w h).


(** *** Image buffers *)

Section BufferVocabulary.
Import image.

(** The four bytes of the pixel that starts at byte [i]. *)
Definition quad (pix : list Z) (i : Z) : color.RGBA :=
  let n := Z.to_nat i in
  color.RGBA8 (pix !!! n) (pix !!! (n + 1)%nat)
              (pix !!! (n + 2)%nat) (pix !!! (n + 3)%nat).

(** A value a [uint8] can hold. *)
Definition byte_range (b : Z) : Prop := 0 <= b < 256.

(** The shape [image.NewRGBA] gives a buffer and drawing preserves: rows of
    four bytes per pixel, and as many bytes as the rectangle has channels. *)
Definition wf_canvas (c : RGBA) : Prop :=
  0 <= Dx (Rect c) /\ 0 <= Dy (Rect c) /\
  Stride c = 4 * Dx (Rect c) /\
  Z.of_nat (length (Pix c)) = Stride c * Dy (Rect c).

Definition inside (r s : Rectangle) : Prop :=
  X (Min s) <= X (Min r) /\ X (Max r) <= X (Max s) /\
  Y (Min s) <= Y (Min r) /\ Y (Max r) <= Y (Max s).

(** Where [DrawMask] changes the destination. *)
Definition covered (dst : RGBA) (r : Rectangle) (src : Image) (sp : Point)
    (mask : option Image) (mp : Point) (x y : Z) : bool :=
  Point_In (Pt x y) r && Point_In (Pt x y) (Rect dst) &&
  Point_In (Pt (X sp + (x - X (Min r))) (Y sp + (y - Y (Min r)))) (Bounds src) &&
  match mask with
  | Some mk =>
      Point_In (Pt (X mp + (x - X (Min r))) (Y mp + (y - Y (Min r)))) (Bounds mk)
  | None => true
  end.

Definition bytes_ok (c : RGBA) : Prop := Forall byte_range (Pix c).

(** What the pixel loop of [drawRGBA] stores at byte [i]. *)
Definition blended (src : Image) (mask : option Image) (op : draw.Op)
    (pix : list Z) (i sx sy mx my : Z) : color.RGBA :=
  draw.blend op (quad pix i) (At src sx sy) (draw.mask_alpha mask mx my).






(** A 1x2 opaque black photo and a 1x3 opaque white watermark. *)
Definition black_photo : Image :=
  {| Bounds := sized 1 2; At := fun _ _ => color.RGBA16 0 0 0 65535 |}.

Definition tall_watermark : Image :=
  {| Bounds := sized 1 3; At := fun _ _ => color.RGBA16 65535 65535 65535 65535 |}.

End BufferVocabulary.

(** *** Runs of the process *)

(** The directory entries a task does not skip. *)
Definition eligible (file : FileInfo) : bool :=
  gostrings.HasSuffix (Name file) ".jpg" ||
  gostrings.HasSuffix (Name file) ".jpeg".

Definition halting (e : Event) : bool :=
  match e with
  | EvFatal _ | EvExit _ | EvPanic => true
  | _ => false
  end.

(** The calls of [main] before the batch: prints other than the final
    report, and reads of the file system. *)
Definition quiet (e : Event) : bool :=
  match e with
  | EvPrint (MsgAllDone _) => false
  | EvPrint _ | EvStat _ | EvMkdir _ | EvReadDir _ | EvOpen _ => true
  | _ => false
  end.

Definition wg_delta (e : Event) : Z :=
  match e with
  | EvAdd d => d
  | EvDone => -1
  | _ => 0
  end.

(** The counter of the [WaitGroup] after a list of calls. *)
Definition wg_of (evs : list Event) : Z :=
  foldr (fun e acc => wg_delta e + acc) 0 evs.

Definition print_of (e : Event) : option Msg :=
  match e with
  | EvPrint msg => Some msg
  | _ => None
  end.

Definition write_of (e : Event) (fs : gmap string bytes) : gmap string bytes :=
  match e with
  | EvCreate fpath true => <[fpath := []]> fs
  | EvEncode fpath (Some data) => <[fpath := data]> fs
  | _ => fs
  end.

Definition writes_to (fpath : string) (e : Event) : Prop :=
  e = EvCreate fpath true \/ exists data, e = EvEncode fpath (Some data).

(** The goroutines started by a list of calls. *)
Definition spawns (evs : list Event) : list Prog := flat_map spawned evs.

(** A decoder whose images have no negative width or height, as those of
    [jpeg.Decode] have. *)
Definition decodes_sized (E : Env) : Prop :=
  forall inputfile srcImage,
    jpeg_Decode E inputfile = Some srcImage ->
    0 <= image.Dx (image.Bounds srcImage) /\
    0 <= image.Dy (image.Bounds srcImage).

Section RunVocabulary.
Variable E : Env.
Variable fl : Flags.

Definition source_path (file : FileInfo) : string :=
  path_Join E (paramSourceDir fl) (Name file).
Definition target_path (file : FileInfo) : string :=
  path_Join E (paramTargetDir fl) (Name file).

(** The canvas a task gets to save, when it gets that far. *)
Definition task_canvas (watermark mask : image.Image) (file : FileInfo)
    : option image.RGBA :=
  inputfile ← os_Open E (source_path file);
  srcImage ← jpeg_Decode E inputfile;
  watermarked E srcImage watermark mask (paramWatermark fl) (paramScale fl).

(** The bytes a task writes, when nothing fails. *)
Definition task_output (watermark mask : image.Image) (file : FileInfo)
    : option bytes :=
  canvas ← task_canvas watermark mask file;
  if os_Create E (target_path file) then jpeg_Encode E canvas 95 else None.

(** A task that panics: the photo opens and decodes, but no canvas can be
    made for it. *)
Definition task_panics (watermark mask : image.Image) (file : FileInfo)
    : Prop :=
  exists inputfile srcImage,
    os_Open E (source_path file) = Some inputfile /\
    jpeg_Decode E inputfile = Some srcImage /\
    watermarked E srcImage watermark mask (paramWatermark fl) (paramScale fl)
    = None.

(** A task that runs to its end: the entry is skipped, or every step of
    opening, decoding, compositing, creating and encoding succeeds. *)
Definition task_completes (watermark mask : image.Image) (file : FileInfo)
    : Prop :=
  eligible file = true -> is_Some (task_output watermark mask file).

(** The calls of [run_batch]. *)
Definition batch_events (watermark mask : image.Image) (files : list FileInfo)
    : list Event :=
  [EvPrint (MsgStarting (Z.of_nat (length files)));
   EvAdd (Z.of_nat (length files))] ++
  map (fun file => EvGo (go_task E fl watermark mask file)) files ++
  [EvWait;
   EvPrint (MsgAllDone (Z.of_nat (length files)));
   EvPrint (Text rule);
   EvPrint (Text "");
   EvPrint (Text "Press any key to exit");
   EvScanln].

(** What [main] has loaded when the batch starts. *)
Definition loaded (watermark : image.Image) (files : list FileInfo) : Prop :=
  gostrings.HasSuffix (paramWatermark fl) ".png" = true /\
  (exists inputfile, os_Open E (paramWatermark fl) = Some inputfile /\
                     png_Decode E inputfile = Some watermark) /\
  ioutil_ReadDir E (paramSourceDir fl) = Some files.

(** The calls of [main] end in a fatal error, in the [os.Exit(1)] of an
    existing target directory, or in the calls of the batch. *)
Definition main_tail (l : list Event) : Prop :=
  (exists msg, l = [EvFatal msg]) \/ l = [EvExit 1] \/
  exists watermark files,
    loaded watermark files /\
    l = batch_events watermark (new_mask (paramOpacity fl)) files.

(** The calls of a task, case by case. *)
Inductive task_future (watermark mask : image.Image) (file : FileInfo)
    : list Event -> Prop :=
  | tf_skip :
      eligible file = false ->
      task_future watermark mask file [EvPrint (MsgSkipping (Name file)); EvDone]
  | tf_saved data :
      eligible file = true ->
      task_output watermark mask file = Some data ->
      task_future watermark mask file
        [EvOpen (source_path file);
         EvCreate (target_path file) true;
         EvEncode (target_path file) (Some data);
         EvDone]
  | tf_panicked :
      eligible file = true ->
      task_panics watermark mask file ->
      task_future watermark mask file
        [EvOpen (source_path file); EvDone; EvPanic]
  | tf_failed body msg :
      eligible file = true ->
      task_output watermark mask file = None ->
      ~ task_panics watermark mask file ->
      Forall (fun e => e = EvOpen (source_path file) \/
                       (exists ok, e = EvCreate (target_path file) ok) \/
                       e = EvEncode (target_path file) None) body ->
      task_future watermark mask file (body ++ [EvFatal msg]).

(** A goroutine of the run: the task of a directory entry, with what it
    has done so far. *)
Definition is_task (th : Prog * list Event) : Prop :=
  exists watermark files file,
    loaded watermark files /\ file ∈ files /\
    th.1 = go_task E fl watermark (new_mask (paramOpacity fl)) file.
End RunVocabulary.

(** [ends_with P l]: [l] is a run of quiet calls followed by a list that
    satisfies [P]. *)
Inductive ends_with (P : list Event -> Prop) : list Event -> Prop :=
  | ends_here l : P l -> ends_with P l
  | ends_later e l : quiet e = true -> ends_with P l -> ends_with P (e :: l).

(** [hist] is what has happened to the world [w]. *)
Definition views (hist : list Event) (w : World) : Prop :=
  stdout w = omap print_of hist /\
  wg w = wg_of hist /\
  written w = foldl (fun fs e => write_of e fs) ∅ hist.

(** The invariant of a run.  [hist] lists the calls made so far, [past0]
    those of the main thread, and [threads] gives every goroutine the task
    it started as and the calls it has made.  Once [main] is past
    [wg.Wait()], every goroutine has called [wg.Done()]. *)
Section Invariant.
Variable E : Env.
Variable fl : Flags.

Definition thread_ok (p : Prog) (th : Prog * list Event) : Prop :=
  future E th.1 = th.2 ++ future E p.

Definition Inv (m : Machine) : Prop :=
  exists hist past0 threads,
    views hist (world m) /\
    hist ≡ₚ past0 ++ concat (threads.*2) /\
    Forall (fun e => halting e = false) hist /\
    future E (main E fl) = past0 ++ future E (main_thread m) /\
    spawns past0 = threads.*1 /\
    Forall2 thread_ok (pool m) threads /\
    (EvWait ∈ past0 -> Forall (fun th => wg_of th.2 = -1) threads) /\
    (status m = Exited 0 -> future E (main_thread m) = []).
End Invariant.

(** What a goroutine of this program does before its last call. *)
Definition worker_event (e : Event) : bool :=
  match e with
  | EvPrint (MsgSkipping _) | EvOpen _ | EvCreate _ _ | EvEncode _ _ => true
  | _ => false
  end.

(** *** A small run *)

(** A directory [photos] with the photo [a.jpg], 5x5 and black, and the
    entry [notes.txt]; a white watermark that the resizer scales to a
    square of the target height; a scale that amounts to a fifth; an
    encoder that stores the canvas bytes. *)
Definition black_square : image.Image :=
  {| image.Bounds := sized 5 5;
     image.At := fun _ _ => color.RGBA16 0 0 0 65535 |}.

Definition white_dot : image.Image :=
  {| image.Bounds := sized 1 1;
     image.At := fun _ _ => color.RGBA16 65535 65535 65535 65535 |}.

Definition demo_files : list FileInfo :=
  [ {| Name := "a.jpg"; IsDir := false |};
    {| Name := "notes.txt"; IsDir := false |} ].

Definition demo_env : Env :=
  {| os_Stat := fun name =>
       if String.eqb name "watermarked" then StatNotExist else StatOk;
     os_Open := fun name =>
       if String.eqb name "watermark.png" then Some [1]
       else if String.eqb name "photos/a.jpg" then Some [2]
       else None;
     os_Create := fun _ => true;
     ioutil_ReadDir := fun dir =>
       if String.eqb dir "photos" then Some demo_files else None;
     path_Join := fun dir name => String.append dir (String.append "/" name);
     png_Decode := fun _ => Some white_dot;
     jpeg_Decode := fun _ => Some black_square;
     jpeg_Encode := fun img _ => Some (image.Pix img);
     scaled_height := fun _ h => h / 5;
     resize_Resize := fun _ h img =>
       {| image.Bounds := sized h h; image.At := image.At img |} |}.

(** The same, but [a.jpg] does not decode. *)
Definition broken_env : Env :=
  {| os_Stat := os_Stat demo_env;
     os_Open := os_Open demo_env;
     os_Create := os_Create demo_env;
     ioutil_ReadDir := ioutil_ReadDir demo_env;
     path_Join := path_Join demo_env;
     png_Decode := png_Decode demo_env;
     jpeg_Decode := fun _ => None;
     jpeg_Encode := jpeg_Encode demo_env;
     scaled_height := scaled_height demo_env;
     resize_Resize := resize_Resize demo_env |}.

(** A schedule: [main] up to [wg.Wait()], the first goroutine, the second,
    and [main] to its end. *)
Definition demo_schedule : list Tid :=
  replicate 27 MainThread ++ replicate 4 (Goroutine 0) ++
  replicate 2 (Goroutine 1) ++ replicate 7 MainThread.

Definition run (E : Env) (fl : Flags) (sched : list Tid) : option Machine :=
  exec E sched (start (main E fl)).

(** The state a schedule ends in (the initial state when it cannot be
    followed). *)
Definition final (E : Env) (fl : Flags) (sched : list Tid) : Machine :=
  default (start (main E fl)) (run E fl sched).


(** The world after a list of calls, or the exit code of the call that
    ended the process. *)
Fixpoint replay (evs : list Event) (w : World) : World * option Z :=
  match evs with
  | [] => (w, None)
  | e :: rest =>
      match effect e w with
      | (w', None) => replay rest w'
      | halted => halted
      end
  end.

Definition thread_at (c : Tid) (m : Machine) : option Prog :=
  match c with
  | MainThread => Some (main_thread m)
  | Goroutine i => pool m !! i
  end.

Section FailureVocabulary.
Variable E : Env.
Variable fl : Flags.

(** The ways the task of an eligible entry fails. *)
Inductive task_failure (watermark mask : image.Image) (file : FileInfo) : Prop :=
  | open_fails :
      os_Open E (source_path E fl file) = None ->
      task_failure watermark mask file
  | decode_fails inputfile :
      os_Open E (source_path E fl file) = Some inputfile ->
      jpeg_Decode E inputfile = None ->
      task_failure watermark mask file
  | create_fails canvas :
      task_canvas E fl watermark mask file = Some canvas ->
      os_Create E (target_path E fl file) = false ->
      task_failure watermark mask file
  | encode_fails canvas :
      task_canvas E fl watermark mask file = Some canvas ->
      jpeg_Encode E canvas 95 = None ->
      task_failure watermark mask file.

(** A run in which the source directory cannot be read or the task of
    some eligible entry fails. *)
Definition run_fails : Prop :=
  ioutil_ReadDir E (paramSourceDir fl) = None \/
  exists watermark files file,
    loaded E fl watermark files /\ file ∈ files /\ eligible file = true /\
    task_failure watermark (new_mask (paramOpacity fl)) file.
End FailureVocabulary.

Definition broken_schedule : list Tid :=
  replicate 27 MainThread ++ replicate 2 (Goroutine 1) ++ replicate 2 (Goroutine 0).

(** The small run again, but [a.jpg] decodes to an image of negative
    width, which no decoder gives: [image.NewRGBA] panics. *)
Definition warped_env : Env :=
  {| os_Stat := os_Stat demo_env;
     os_Open := os_Open demo_env;
     os_Create := os_Create demo_env;
     ioutil_ReadDir := ioutil_ReadDir demo_env;
     path_Join := path_Join demo_env;
     png_Decode := png_Decode demo_env;
     jpeg_Decode := fun _ =>
       Some {| image.Bounds := sized (-1) 1;
               image.At := fun _ _ => color.RGBA16 0 0 0 65535 |};
     jpeg_Encode := jpeg_Encode demo_env;
     scaled_height := scaled_height demo_env;
     resize_Resize := resize_Resize demo_env |}.

(** A schedule on which the panicking goroutine is not scheduled again
    after its deferred [wg.Done()]. *)
Definition warped_schedule : list Tid :=
  replicate 27 MainThread ++ replicate 2 (Goroutine 0) ++
  replicate 2 (Goroutine 1) ++ replicate 7 MainThread.

(** *** Termination *)

Section Cost.
Variable E : Env.

(** The number of calls a thread and the goroutines it starts have ahead
    of them. *)
Fixpoint cost (p : Prog) : nat :=
  match p with
  | Ret => 0
  | Print _ k => S (cost k)
  | Fatal _ => 1
  | Exit _ => 1
  | Panic => 1
  | Stat name k => S (cost (k (os_Stat E name)))
  | Mkdir _ k => S (cost k)
  | ReadDir dir k => S (cost (k (ioutil_ReadDir E dir)))
  | Open fname k => S (cost (k (os_Open E fname)))
  | Create fpath k => S (cost (k (os_Create E fpath)))
  | Encode _ img quality k =>
      S (cost (k (bool_decide (is_Some (jpeg_Encode E img quality)))))
  | Go thread k => S (cost thread + cost k)
  | WgAdd _ k => S (cost k)
  | WgDone k => S (cost k)
  | WgWait k => S (cost k)
  | Scanln k => S (cost k)
  end.

Definition measure (m : Machine) : nat :=
  (cost (main_thread m) + sum_list_with cost (pool m))%nat.
End Cost.

(** *** Two runs side by side *)




(** *** Calls, checks and files *)

Definition mkdir_of (e : Event) : option string :=
  match e with
  | EvMkdir name => Some name
  | _ => None
  end.

Definition fatal_of (e : Event) : option Msg :=
  match e with
  | EvFatal msg => Some msg
  | _ => None
  end.

(** What the calls of [main] can be. *)
Definition main_call (E : Env) (fl : Flags) (e : Event) : Prop :=
  match e with
  | EvPrint (MsgSkipping _) => False
  | EvPrint _ | EvStat _ | EvReadDir _ | EvGo _ | EvWait | EvScanln => True
  | EvOpen fname => fname = paramWatermark fl
  | EvFatal msg =>
      msg = ErrWatermarkMissing (paramWatermark fl) \/
      msg = ErrWatermarkNotPNG (paramWatermark fl) \/
      msg = ErrSourceMissing (paramSourceDir fl) \/
      msg = ErrOpen (paramWatermark fl) \/
      msg = ErrDecodePNG (paramWatermark fl) \/
      msg = ErrReadDir (paramSourceDir fl)
  | EvExit code =>
      code = 1 /\ os_Stat E (paramTargetDir fl) = StatOk /\ paramForce fl = false
  | EvMkdir name =>
      name = paramTargetDir fl /\ os_Stat E (paramTargetDir fl) <> StatOk
  | EvAdd delta => 0 <= delta
  | EvPanic | EvDone | EvCreate _ _ | EvEncode _ _ => False
  end.

(** What the calls of [main] after the checks can be. *)
Definition run_call (fl : Flags) (e : Event) : Prop :=
  match e with
  | EvPrint (MsgSkipping _) => False
  | EvPrint _ | EvReadDir _ | EvGo _ | EvWait | EvScanln => True
  | EvOpen fname => fname = paramWatermark fl
  | EvFatal msg =>
      msg = ErrOpen (paramWatermark fl) \/
      msg = ErrDecodePNG (paramWatermark fl) \/
      msg = ErrReadDir (paramSourceDir fl)
  | EvAdd delta => 0 <= delta
  | _ => False
  end.

(** What the calls of the task of [file] can be. *)
Definition task_call (E : Env) (fl : Flags) (file : FileInfo) (e : Event)
    : Prop :=
  match e with
  | EvPrint msg => msg = MsgSkipping (Name file) /\ eligible file = false
  | EvOpen fname => fname = source_path E fl file /\ eligible file = true
  | EvCreate fpath _ | EvEncode fpath _ =>
      fpath = target_path E fl file /\ eligible file = true
  | EvFatal msg =>
      eligible file = true /\
      (msg = ErrOpen (source_path E fl file) \/
       msg = ErrDecodeJPEG (source_path E fl file) \/
       msg = ErrCreate (target_path E fl file) \/
       msg = ErrEncode (target_path E fl file))
  | EvDone | EvPanic => True
  | _ => False
  end.

(** The calls [main] makes before it starts work: prints and stats. *)
Definition idle (e : Event) : bool :=
  match e with
  | EvPrint (MsgAllDone _) | EvPrint (MsgSkipping _) => false
  | EvPrint _ | EvStat _ => true
  | _ => false
  end.

(** The outcome of the checks of lines 53 to 80. *)
Inductive Verdict := Rejected (msg : Msg) | Refused | Accepted (mkdir : bool).

Definition validate (E : Env) (fl : Flags) : Verdict :=
  match os_Stat E (paramWatermark fl) with
  | StatNotExist => Rejected (ErrWatermarkMissing (paramWatermark fl))
  | _ =>
      if negb (gostrings.HasSuffix (paramWatermark fl) ".png") then
        Rejected (ErrWatermarkNotPNG (paramWatermark fl))
      else
        match os_Stat E (paramSourceDir fl) with
        | StatNotExist => Rejected (ErrSourceMissing (paramSourceDir fl))
        | _ =>
            match os_Stat E (paramTargetDir fl) with
            | StatOk => if paramForce fl then Accepted false else Refused
            | _ => Accepted true
            end
        end
  end.

(** The ways a check of lines 53 to 66 fails, with the error it logs.
    The checks run in this order, and the first that fails ends the run. *)
Inductive failed_check (E : Env) (fl : Flags) : Msg -> Prop :=
  | watermark_missing :
      os_Stat E (paramWatermark fl) = StatNotExist ->
      failed_check E fl (ErrWatermarkMissing (paramWatermark fl))
  | watermark_not_png :
      os_Stat E (paramWatermark fl) <> StatNotExist ->
      gostrings.HasSuffix (paramWatermark fl) ".png" = false ->
      failed_check E fl (ErrWatermarkNotPNG (paramWatermark fl))
  | source_missing :
      os_Stat E (paramWatermark fl) <> StatNotExist ->
      gostrings.HasSuffix (paramWatermark fl) ".png" = true ->
      os_Stat E (paramSourceDir fl) = StatNotExist ->
      failed_check E fl (ErrSourceMissing (paramSourceDir fl)).

(** A goroutine still has the encoding of [fpath], or the report of its
    failure, ahead of it. *)
Definition pending (E : Env) (pool : list Prog) (fpath : string) : Prop :=
  exists i p,
    pool !! i = Some p /\
    ((exists data, EvEncode fpath data ∈ future E p) \/
     EvFatal (ErrEncode fpath) ∈ future E p).

(** Every file written is the output of an eligible entry of the listing:
    it holds the bytes of that entry's output, or it has been created and
    is still empty while its encoding is pending. *)
Definition files_ok (E : Env) (fl : Flags) (m : Machine) : Prop :=
  forall fpath b,
    written (world m) !! fpath = Some b ->
    exists watermark files file,
      loaded E fl watermark files /\ file ∈ files /\ eligible file = true /\
      fpath = target_path E fl file /\
      (task_output E fl watermark (new_mask (paramOpacity fl)) file = Some b \/
       (b = [] /\ pending E (pool m) fpath)).

(** The final report of line 124 has been printed. *)
Definition reported (m : Machine) : Prop :=
  exists n, MsgAllDone n ∈ stdout (world m).



(** What [main] prints before the checks, lines 35 to 51. *)
Definition banner (fl : Flags) : list Msg :=
  [Text "**************************************************************************";
   Text "*                                                                        *";
   Text "*      WaterMarker v1.0 - Written by Tjeerd Bakker (ICheered) in Go      *";
   Text "*                                                                        *";
   Text "**************************************************************************";
   Text "";
   Text "For help: run the program from command line with the -h flag";
   Text "Having issues? Please let me know at Tjeerd992@gmail.com";
   Text "";
   Text "Using following parameters:";
   MsgOpacity (paramOpacity fl);
   MsgLocation (paramLocation fl);
   MsgScale (paramScale fl);
   MsgWatermark (paramWatermark fl);
   MsgSourceDir (paramSourceDir fl);
   MsgTargetDir (paramTargetDir fl)].

(** What a run that goes on prints about the target directory, lines 68
    to 80: the warning when it exists, nothing when it is made. *)
Definition target_lines (E : Env) (fl : Flags) : list Msg :=
  match os_Stat E (paramTargetDir fl) with
  | StatOk =>
      [WarnTargetExists (paramTargetDir fl);
       Text "         Using --force, so will overwrite existing files"]
  | _ => []
  end.

(** The skip notices of a listing, in its order. *)
Definition notices_of (files : list FileInfo) : list Msg :=
  flat_map (fun file =>
              if eligible file then [] else [MsgSkipping (Name file)]) files.

(** The calls of a list before its first [wg.Wait()], and those after. *)
Fixpoint before_wait (l : list Event) : list Event :=
  match l with
  | [] => []
  | EvWait :: _ => []
  | e :: l => e :: before_wait l
  end.

Fixpoint after_wait (l : list Event) : list Event :=
  match l with
  | [] => []
  | EvWait :: l => l
  | _ :: l => after_wait l
  end.

(** The small run, but the target directory exists. *)
Definition occupied_env : Env :=
  {| os_Stat := fun _ => StatOk;
     os_Open := os_Open demo_env;
     os_Create := os_Create demo_env;
     ioutil_ReadDir := ioutil_ReadDir demo_env;
     path_Join := path_Join demo_env;
     png_Decode := png_Decode demo_env;
     jpeg_Decode := jpeg_Decode demo_env;
     jpeg_Encode := jpeg_Encode demo_env;
     scaled_height := scaled_height demo_env;
     resize_Resize := resize_Resize demo_env |}.

(** The small run, but nothing exists. *)
Definition bare_env : Env :=
  {| os_Stat := fun _ => StatNotExist;
     os_Open := os_Open demo_env;
     os_Create := os_Create demo_env;
     ioutil_ReadDir := ioutil_ReadDir demo_env;
     path_Join := path_Join demo_env;
     png_Decode := png_Decode demo_env;
     jpeg_Decode := jpeg_Decode demo_env;
     jpeg_Encode := jpeg_Encode demo_env;
     scaled_height := scaled_height demo_env;
     resize_Resize := resize_Resize demo_env |}.

(** The small run, but no file can be opened. *)
Definition unreadable_env : Env :=
  {| os_Stat := os_Stat demo_env;
     os_Open := fun _ => None;
     os_Create := os_Create demo_env;
     ioutil_ReadDir := ioutil_ReadDir demo_env;
     path_Join := path_Join demo_env;
     png_Decode := png_Decode demo_env;
     jpeg_Decode := jpeg_Decode demo_env;
     jpeg_Encode := jpeg_Encode demo_env;
     scaled_height := scaled_height demo_env;
     resize_Resize := resize_Resize demo_env |}.

(** [main] alone, for a number of steps. *)
Definition main_only (n : nat) : list Tid := replicate n MainThread.

(** [main] up to [wg.Wait()], then the first goroutine up to the creation
    of its output file. *)
Definition created_schedule : list Tid :=
  replicate 27 MainThread ++ replicate 2 (Goroutine 0).

(** The states the examples look at. *)
Definition demo_final : Machine := final demo_env default_flags demo_schedule.
Definition demo_created : Machine :=
  final demo_env default_flags created_schedule.

(** * Properties *)

(** ** The opacity mask *)

Lemma wrap_int_small (z : Z) : - 2 ^ 63 <= z < 2 ^ 63 -> wrap_int z = z.
Proof.
  intros Hz. unfold wrap_int.
  rewrite Z.mod_small; lia.
Qed.

Lemma uint8_wrap_int (z : Z) : uint8 (wrap_int z) = z mod 256.
Proof.
  unfold uint8, wrap_int.
  change (2 ^ 8) with 256. change (2 ^ 63) with 9223372036854775808.
  change (2 ^ 64) with 18446744073709551616.
  Z.div_mod_to_equations. lia.
Qed.

Lemma mask_value_mod (p : Z) : mask_value p = (p * 255) mod 256.
Proof. unfold mask_value. apply uint8_wrap_int. Qed.

Lemma mask_value_small (p : Z) : 1 <= p <= 256 -> mask_value p = 256 - p.
Proof.
  intros Hp. rewrite mask_value_mod.
  Z.div_mod_to_equations. lia.
Qed.

(** C4.  For an opacity between 0 and 100 the alpha of the uniform mask
    built at line 84 is [(p * 255) mod 256]: 0 for 0 and [256 - p] from 1
    to 100 (186 for the default 70), so over 1..100 a larger percentage
    gives a strictly smaller alpha. *)
Theorem mask_value_wraps (p : Z) :
  0 <= p <= 100 ->
  image.At (new_mask p) 0 0 = color.Alpha_RGBA ((p * 255) mod 256) /\
  mask_value p = (p * 255) mod 256 /\
  (p = 0 -> mask_value p = 0) /\
  (1 <= p -> mask_value p = 256 - p) /\
  (forall q, 1 <= p -> p < q <= 100 -> mask_value q < mask_value p) /\
  mask_value (paramOpacity default_flags) = 186.
Proof.
  intros Hp.
  split; [unfold new_mask; simpl; by rewrite mask_value_mod|].
  split; [apply mask_value_mod|].
  split; [by intros ->|].
  split; [intros; apply mask_value_small; lia|].
  split; [|reflexivity].
  intros q H1 Hq. rewrite !mask_value_small by lia. lia.
Qed.

Lemma mask_value_wraps_witness :
  0 <= 70 <= 100 /\ mask_value 70 = 256 - 70.
Proof.
  split; [lia|].
  apply (mask_value_wraps 70); lia.
Defined.

(** C3.  The mask alpha is not the percentage scaled to 0..255: at the
    full opacity 100 the program builds alpha 156 where the scaled value is
    255, and at the default 70 it builds 186 where the scaled value is
    179.  Between 0 and 100 the two agree only at 0 and, by coincidence, at
    72. *)
Theorem mask_value_not_scaled :
  mask_value 100 = 156 /\ spec_mask_value 100 = 255 /\
  mask_value 70 = 186 /\ spec_mask_value 70 = 179 /\
  (forall p, 0 <= p <= 100 ->
     mask_value p = spec_mask_value p <-> p = 0 \/ p = 72).
Proof.
  do 4 (split; [reflexivity|]).
  intros p Hp. destruct (decide (p = 0)) as [->|Hp0].
  { split; [by left|reflexivity]. }
  rewrite mask_value_small by lia.
  unfold spec_mask_value.
  Z.div_mod_to_equations. lia.
Qed.

(** ** Drawing *)

Section Drawing.
Import image.

Lemma slice4_in_range (pix : list Z) i :
  0 <= i -> i + 4 <= Z.of_nat (length pix) -> draw.slice4 pix i = Some (quad pix i).
Proof.
  intros H0 H1. unfold draw.slice4.
  rewrite (proj2 (Z.leb_le 0 i)) by done.
  rewrite (proj2 (Z.leb_le (i + 4) _)) by done. reflexivity.
Qed.

Lemma store4_length pix i d : length (draw.store4 pix i d) = length pix.
Proof. unfold draw.store4. by rewrite !length_insert. Qed.

Lemma store4_other (pix : list Z) i d (k : nat) :
  (Z.of_nat k < i \/ i + 4 <= Z.of_nat k) -> 0 <= i ->
  draw.store4 pix i d !!! k = pix !!! k.
Proof.
  intros Hk Hi. unfold draw.store4.
  rewrite !list_lookup_total_insert_ne by lia. reflexivity.
Qed.

Lemma quad_store4 (pix : list Z) i d :
  0 <= i -> i + 4 <= Z.of_nat (length pix) -> quad (draw.store4 pix i d) i = d.
Proof.
  intros Hi Hlen. unfold quad, draw.store4. destruct d as [r g b a]. simpl.
  f_equal.
  - rewrite !list_lookup_total_insert_ne by lia.
    rewrite list_lookup_total_insert_eq by lia. done.
  - rewrite !list_lookup_total_insert_ne by lia.
    rewrite list_lookup_total_insert_eq by (rewrite ?length_insert; lia). done.
  - rewrite !list_lookup_total_insert_ne by lia.
    rewrite list_lookup_total_insert_eq by (rewrite ?length_insert; lia). done.
  - rewrite list_lookup_total_insert_eq by (rewrite ?length_insert; lia). done.
Qed.

Lemma quad_ext (pix pix' : list Z) i :
  0 <= i ->
  (forall k : nat, i <= Z.of_nat k < i + 4 -> pix' !!! k = pix !!! k) ->
  quad pix' i = quad pix i.
Proof.
  intros Hi H. unfold quad. simpl. f_equal; apply H; lia.
Qed.

Section LoopSpecs.
Variables (src : Image) (mask : option Image) (op : draw.Op) (stride : Z).

Local Abbreviation px := (blended src mask op).

Lemma draw_pixel_in_range pix i sx sy mx my :
  0 <= i -> i + 4 <= Z.of_nat (length pix) ->
  draw.draw_pixel src mask op pix i sx sy mx my
  = Some (draw.store4 pix i (px pix i sx sy mx my)).
Proof.
  intros Hi Hlen. unfold draw.draw_pixel.
  rewrite slice4_in_range by done. reflexivity.
Qed.

Lemma draw_row_spec (n : nat) : forall pix i sx mx sy my,
  0 <= i -> i + 4 * Z.of_nat n <= Z.of_nat (length pix) ->
  exists pix',
    draw.draw_row src mask op n pix i sx mx sy my = Some pix' /\
    length pix' = length pix /\
    (forall k : nat,
       Z.of_nat k < i \/ i + 4 * Z.of_nat n <= Z.of_nat k ->
       pix' !!! k = pix !!! k) /\
    (forall j, 0 <= j < Z.of_nat n ->
       quad pix' (i + 4 * j) = px pix (i + 4 * j) (sx + j) sy (mx + j) my).
Proof.
  induction n as [|n IH]; intros pix i sx mx sy my Hi Hlen.
  - exists pix. do 3 (split; [done|]). intros j Hj. lia.
  - cbn [draw.draw_row].
    rewrite draw_pixel_in_range by lia. cbn [mbind option_bind].
    set (pix1 := draw.store4 pix i (px pix i sx sy mx my)).
    destruct (IH pix1 (i + 4) (sx + 1) (mx + 1) sy my) as (pix' & Hrun & Hl & Hout & Hin).
    { lia. }
    { subst pix1. rewrite store4_length. lia. }
    exists pix'. split; [exact Hrun|].
    split; [by rewrite Hl; subst pix1; rewrite store4_length|].
    split.
    + intros k Hk. rewrite Hout by lia. subst pix1. apply store4_other; lia.
    + intros j Hj. destruct (decide (j = 0)) as [->|Hj0].
      * replace (i + 4 * 0) with i by lia. rewrite !Z.add_0_r.
        rewrite (quad_ext pix1 pix' i Hi).
        { subst pix1. apply quad_store4; lia. }
        intros k Hk. apply Hout. lia.
      * replace (i + 4 * j) with (i + 4 + 4 * (j - 1)) by lia.
        rewrite Hin by lia. unfold blended.
        replace (sx + 1 + (j - 1)) with (sx + j) by lia.
        replace (mx + 1 + (j - 1)) with (mx + j) by lia.
        f_equal. apply quad_ext; [lia|].
        intros k Hk. subst pix1. apply store4_other; lia.
Qed.

Lemma draw_rows_spec (n w : nat) : forall pix i0 sx0 mx0 sy my,
  0 <= i0 -> 4 * Z.of_nat w <= stride ->
  (0 < Z.of_nat n ->
   i0 + (Z.of_nat n - 1) * stride + 4 * Z.of_nat w <= Z.of_nat (length pix)) ->
  exists pix',
    draw.draw_rows src mask op stride n w pix i0 sx0 mx0 sy my = Some pix' /\
    length pix' = length pix /\
    (forall k : nat,
       (forall a, 0 <= a < Z.of_nat n ->
          Z.of_nat k < i0 + a * stride \/
          i0 + a * stride + 4 * Z.of_nat w <= Z.of_nat k) ->
       pix' !!! k = pix !!! k) /\
    (forall a j, 0 <= a < Z.of_nat n -> 0 <= j < Z.of_nat w ->
       quad pix' (i0 + a * stride + 4 * j)
       = px pix (i0 + a * stride + 4 * j) (sx0 + j) (sy + a) (mx0 + j) (my + a)).
Proof.
  induction n as [|n IH]; intros pix i0 sx0 mx0 sy my Hi Hw Hlen.
  - exists pix. do 3 (split; [done|]). intros a j Ha. lia.
  - cbn [draw.draw_rows].
    assert (Hs : 0 <= stride) by lia.
    assert (Hns : 0 <= Z.of_nat n * stride) by (apply Z.mul_nonneg_nonneg; lia).
    destruct (draw_row_spec w pix i0 sx0 mx0 sy my) as (pix1 & Hrun1 & Hl1 & Hout1 & Hin1).
    { lia. } { lia. }
    rewrite Hrun1. cbn [mbind option_bind].
    destruct (IH pix1 (i0 + stride) sx0 mx0 (sy + 1) (my + 1)) as (pix' & Hrun & Hl & Hout & Hin).
    { lia. } { lia. } { rewrite Hl1. lia. }
    exists pix'. split; [exact Hrun|].
    split; [lia|].
    split.
    + intros k Hk. rewrite Hout.
      * apply Hout1. specialize (Hk 0). lia.
      * intros a Ha. specialize (Hk (a + 1)). lia.
    + intros a j Ha Hj.
      assert (Has : 0 <= a * stride) by (apply Z.mul_nonneg_nonneg; lia).
      destruct (decide (a = 0)) as [->|Ha0].
      * rewrite Z.mul_0_l, !Z.add_0_r.
        rewrite <- Hin1 by lia.
        apply quad_ext; [lia|].
        intros k Hk. apply Hout. intros a Ha'.
        assert (0 <= a * stride) by (apply Z.mul_nonneg_nonneg; lia). lia.
      * replace (i0 + a * stride + 4 * j) with (i0 + stride + (a - 1) * stride + 4 * j) by lia.
        rewrite Hin by lia. unfold blended.
        replace (sy + 1 + (a - 1)) with (sy + a) by lia.
        replace (my + 1 + (a - 1)) with (my + a) by lia.
        f_equal. apply quad_ext.
        { assert (0 <= (a - 1) * stride) by (apply Z.mul_nonneg_nonneg; lia). lia. }
        intros k Hk. apply Hout1.
        assert (0 <= (a - 1) * stride) by (apply Z.mul_nonneg_nonneg; lia). lia.
Qed.
End LoopSpecs.

Lemma Point_In_true x y r :
  Point_In (Pt x y) r = true <->
  X (Min r) <= x < X (Max r) /\ Y (Min r) <= y < Y (Max r).
Proof.
  unfold Point_In. simpl.
  rewrite !andb_true_iff, !Z.leb_le, !Z.ltb_lt. lia.
Qed.

Lemma Point_In_false x y r :
  Point_In (Pt x y) r = false <->
  ~ (X (Min r) <= x < X (Max r) /\ Y (Min r) <= y < Y (Max r)).
Proof.
  rewrite <- Point_In_true. destruct (Point_In (Pt x y) r); split; intros; done.
Qed.

Lemma Empty_false r :
  Empty r = false <-> X (Min r) < X (Max r) /\ Y (Min r) < Y (Max r).
Proof.
  unfold Empty. rewrite orb_false_iff, !Z.leb_gt. done.
Qed.

Lemma RGBAAt_inside c x y :
  Point_In (Pt x y) (Rect c) = true -> RGBAAt c x y = quad (Pix c) (PixOffset c x y).
Proof. intros H. unfold RGBAAt. rewrite H. reflexivity. Qed.

Lemma drawRGBA_spec dst r src sp mask mp op :
  wf_canvas dst -> Empty r = false -> inside r (Rect dst) ->
  exists dst',
    draw.drawRGBA dst r src sp mask mp op = Some dst' /\
    Stride dst' = Stride dst /\ Rect dst' = Rect dst /\
    length (Pix dst') = length (Pix dst) /\
    forall x y, Point_In (Pt x y) (Rect dst) = true ->
      RGBAAt dst' x y =
      if Point_In (Pt x y) r then
        draw.blend op (RGBAAt dst x y)
          (At src (X sp + (x - X (Min r))) (Y sp + (y - Y (Min r))))
          (draw.mask_alpha mask (X mp + (x - X (Min r))) (Y mp + (y - Y (Min r))))
      else RGBAAt dst x y.
Proof.
  intros (Hdx & Hdy & Hstride & Hlen) Hne (Hx0 & Hx1 & Hy0 & Hy1).
  apply Empty_false in Hne. destruct Hne as [Hnx Hny].
  destruct dst as [pix stride [[X0 Y0] [X1 Y1]]].
  destruct r as [[x0 y0] [x1 y1]].
  unfold Dx, Dy in *. simpl in *. subst stride.
  set (s := 4 * (X1 - X0)) in *.
  unfold draw.drawRGBA, PixOffset. simpl.
  set (i0 := (y0 - Y0) * s + (x0 - X0) * 4).
  assert (Hrow0 : 0 <= (y0 - Y0) * s) by (apply Z.mul_nonneg_nonneg; lia).
  destruct (draw_rows_spec src mask op s (Z.to_nat (y1 - y0)) (Z.to_nat (x1 - x0))
              pix i0 (X sp + x0 - x0) (X mp + x0 - x0) (Y sp + y0 - y0) (Y mp + y0 - y0))
    as (pix' & Hrun & Hl & Hout & Hin).
  { subst i0. lia. }
  { subst s. lia. }
  { intros _. rewrite !Z2Nat.id by lia. rewrite Hlen. subst i0.
    assert ((y1 - Y0 - 1) * s + s <= s * (Y1 - Y0)) by nia. nia. }
  rewrite Hrun. cbn [mbind option_bind].
  eexists. split; [reflexivity|]. simpl.
  do 3 (split; [done|]).
  intros x y Hin'. rewrite !RGBAAt_inside by done.
  apply Point_In_true in Hin'. simpl in Hin'.
  unfold PixOffset. simpl.
  destruct (Point_In (Pt x y) _) eqn:Hr.
  - apply Point_In_true in Hr. simpl in Hr.
    specialize (Hin (y - y0) (x - x0)).
    rewrite !Z2Nat.id in Hin by lia.
    replace (i0 + (y - y0) * s + 4 * (x - x0)) with ((y - Y0) * s + (x - X0) * 4) in Hin
      by (subst i0; ring).
    rewrite Hin by lia. unfold blended. f_equal; [f_equal; lia|f_equal; lia].
  - apply Point_In_false in Hr. simpl in Hr.
    assert (0 <= (y - Y0) * s) by (apply Z.mul_nonneg_nonneg; lia).
    apply quad_ext; [lia|].
    intros k Hk. apply Hout. intros a Ha.
    rewrite !Z2Nat.id in * by lia. subst i0.
    destruct (Z.lt_trichotomy y (y0 + a)) as [Hlt|[Heq|Hgt]].
    + left. assert ((y - Y0) * s + s <= (y0 + a - Y0) * s) by nia. nia.
    + subst y. assert (x < x0 \/ x1 <= x) as [?|?] by lia; [left|right]; nia.
    + right. assert ((y0 + a - Y0) * s + s <= (y - Y0) * s) by nia. nia.
Qed.

Lemma Empty_true r :
  Empty r = true <-> X (Max r) <= X (Min r) \/ Y (Max r) <= Y (Min r).
Proof. unfold Empty. rewrite orb_true_iff, !Z.leb_le. done. Qed.

Lemma Intersect_spec r s :
  (forall x y, Point_In (Pt x y) (Intersect r s) = true <->
               Point_In (Pt x y) r = true /\ Point_In (Pt x y) s = true) /\
  (Empty (Intersect r s) = false ->
   inside (Intersect r s) r /\ inside (Intersect r s) s).
Proof.
  destruct r as [[a b] [c d]], s as [[a' b'] [c' d']].
  unfold Intersect. simpl.
  match goal with |- context [ Empty ?r' ] => set (raw := r') end.
  assert (Hraw : forall x y, Point_In (Pt x y) raw = true <->
            (a <= x < c /\ b <= y < d) /\ (a' <= x < c' /\ b' <= y < d')).
  { intros x y. rewrite Point_In_true. subst raw. simpl.
    destruct (Z.ltb_spec a a'), (Z.ltb_spec b b'), (Z.ltb_spec c' c),
      (Z.ltb_spec d' d); lia. }
  destruct (Empty raw) eqn:He.
  - split; [|intros Hz; discriminate Hz].
    intros x y. rewrite !Point_In_true. simpl.
    apply Empty_true in He. subst raw. simpl in He.
    destruct (Z.ltb_spec a a'), (Z.ltb_spec b b'), (Z.ltb_spec c' c),
      (Z.ltb_spec d' d); lia.
  - split.
    + intros x y. rewrite Hraw, !Point_In_true. simpl. done.
    + intros _. unfold inside. subst raw. simpl.
      destruct (Z.ltb_spec a a'), (Z.ltb_spec b b'), (Z.ltb_spec c' c),
        (Z.ltb_spec d' d); lia.
Qed.

Lemma Point_In_Add x y r p :
  Point_In (Pt x y) (Add r p) = Point_In (Pt (x - X p) (y - Y p)) r.
Proof.
  apply eq_true_iff_eq. rewrite !Point_In_true. simpl. lia.
Qed.

Lemma inside_trans r s t : inside r s -> inside s t -> inside r t.
Proof. unfold inside. lia. Qed.

Lemma Empty_ZR_absorb s : Intersect ZR s = ZR.
Proof.
  destruct s as [[a b] [c d]]. unfold Intersect, ZR, ZP, Empty. simpl.
  destruct (Z.ltb_spec 0 a), (Z.ltb_spec 0 b), (Z.ltb_spec c 0),
    (Z.ltb_spec d 0); simpl;
  repeat match goal with
         | |- context [ Z.leb ?u ?v ] => destruct (Z.leb_spec u v)
         end; simpl; try reflexivity; lia.
Qed.

Lemma Intersect_empty r s : Empty (Intersect r s) = true -> Intersect r s = ZR.
Proof.
  unfold Intersect. cbv zeta.
  match goal with |- context [ if Empty ?r' then _ else _ ] => set (raw := r') end.
  destruct (Empty raw) eqn:He; [done|]. intros H. congruence.
Qed.

Lemma Intersect_nonempty_l r s :
  Empty (Intersect r s) = false -> Empty r = false.
Proof.
  intros H. destruct (Intersect_spec r s) as [_ Hin].
  destruct (Hin H) as [Hr _]. apply Empty_false in H. apply Empty_false.
  unfold inside in Hr. lia.
Qed.

Lemma clip_spec dstB r srcB sp mask mp :
  exists r',
    draw.clip dstB r srcB sp mask mp
    = (r', Pt (X sp + (X (Min r') - X (Min r))) (Y sp + (Y (Min r') - Y (Min r))),
           Pt (X mp + (X (Min r') - X (Min r))) (Y mp + (Y (Min r') - Y (Min r)))) /\
    (Empty r' = false -> inside r' dstB) /\
    (forall x y, Point_In (Pt x y) r' = true <->
       Point_In (Pt x y) r = true /\ Point_In (Pt x y) dstB = true /\
       Point_In (Pt (X sp + (x - X (Min r))) (Y sp + (y - Y (Min r)))) srcB = true /\
       match mask with
       | Some mk =>
           Point_In (Pt (X mp + (x - X (Min r))) (Y mp + (y - Y (Min r)))) (Bounds mk)
           = true
       | None => True
       end).
Proof.
  unfold draw.clip.
  set (r1 := Intersect r dstB).
  set (r2 := Intersect r1 (Add srcB (Point_Sub (Min r) sp))).
  set (r3 := match mask with
             | Some mk => Intersect r2 (Add (Bounds mk) (Point_Sub (Min r) mp))
             | None => r2
             end).
  exists r3. split; [|split].
  - destruct ((X (Min r3) - X (Min r) =? 0) && (Y (Min r3) - Y (Min r) =? 0)) eqn:Hd.
    + apply andb_true_iff in Hd. rewrite !Z.eqb_eq in Hd. destruct Hd as [-> ->].
      destruct sp, mp. simpl. by rewrite !Z.add_0_r.
    + reflexivity.
  - intros Hne.
    assert (Hne2 : Empty r2 = false).
    { subst r3. destruct mask; [|done]. by eapply Intersect_nonempty_l. }
    assert (Hne1 : Empty r1 = false) by (by eapply Intersect_nonempty_l).
    assert (H32 : inside r3 r2).
    { subst r3. destruct mask; [|unfold inside; lia].
      by apply (Intersect_spec r2). }
    assert (H21 : inside r2 r1) by (by apply (Intersect_spec r1)).
    assert (H1d : inside r1 dstB) by (by apply (Intersect_spec r dstB)).
    eauto using inside_trans.
  - intros x y.
    assert (H2 : Point_In (Pt x y) r2 = true <->
      Point_In (Pt x y) r = true /\ Point_In (Pt x y) dstB = true /\
      Point_In (Pt (X sp + (x - X (Min r))) (Y sp + (y - Y (Min r)))) srcB = true).
    { subst r2. rewrite (proj1 (Intersect_spec _ _)). subst r1.
      rewrite (proj1 (Intersect_spec _ _)). rewrite Point_In_Add. simpl.
      replace (x - (X (Min r) - X sp)) with (X sp + (x - X (Min r))) by lia.
      replace (y - (Y (Min r) - Y sp)) with (Y sp + (y - Y (Min r))) by lia.
      tauto. }
    subst r3. destruct mask as [mk|].
    + rewrite (proj1 (Intersect_spec _ _)), H2, Point_In_Add. simpl.
      replace (x - (X (Min r) - X mp)) with (X mp + (x - X (Min r))) by lia.
      replace (y - (Y (Min r) - Y mp)) with (Y mp + (y - Y (Min r))) by lia.
      tauto.
    + rewrite H2. tauto.
Qed.

Lemma covered_true dst r src sp mask mp x y :
  covered dst r src sp mask mp x y = true <->
  Point_In (Pt x y) r = true /\ Point_In (Pt x y) (Rect dst) = true /\
  Point_In (Pt (X sp + (x - X (Min r))) (Y sp + (y - Y (Min r)))) (Bounds src) = true /\
  match mask with
  | Some mk =>
      Point_In (Pt (X mp + (x - X (Min r))) (Y mp + (y - Y (Min r)))) (Bounds mk)
      = true
  | None => True
  end.
Proof.
  unfold covered. rewrite !andb_true_iff. destruct mask; tauto.
Qed.

Lemma DrawMask_spec dst r src sp mask mp op :
  wf_canvas dst ->
  exists dst',
    draw.DrawMask dst r src sp mask mp op = Some dst' /\
    Stride dst' = Stride dst /\ Rect dst' = Rect dst /\
    length (Pix dst') = length (Pix dst) /\
    forall x y, Point_In (Pt x y) (Rect dst) = true ->
      RGBAAt dst' x y =
      if covered dst r src sp mask mp x y then
        draw.blend op (RGBAAt dst x y)
          (At src (X sp + (x - X (Min r))) (Y sp + (y - Y (Min r))))
          (draw.mask_alpha mask (X mp + (x - X (Min r))) (Y mp + (y - Y (Min r))))
      else RGBAAt dst x y.
Proof.
  intros Hwf. unfold draw.DrawMask.
  destruct (clip_spec (Rect dst) r (Bounds src) sp mask mp) as (r' & -> & Hins & Hpt).
  assert (Hcov : forall x y, covered dst r src sp mask mp x y = Point_In (Pt x y) r').
  { intros x y. apply eq_true_iff_eq. rewrite covered_true, Hpt. tauto. }
  destruct (Empty r') eqn:He.
  - exists dst. do 4 (split; [done|]).
    intros x y _. rewrite Hcov.
    destruct (Point_In (Pt x y) r') eqn:Hp; [|done].
    apply Point_In_true in Hp. apply Empty_true in He. lia.
  - destruct (drawRGBA_spec dst r' src
                (Pt (X sp + (X (Min r') - X (Min r))) (Y sp + (Y (Min r') - Y (Min r))))
                mask
                (Pt (X mp + (X (Min r') - X (Min r))) (Y mp + (Y (Min r') - Y (Min r))))
                op Hwf He (Hins eq_refl))
      as (dst' & Hrun & Hs & Hr & Hl & Hpx).
    exists dst'. do 4 (split; [done|]).
    intros x y Hxy. rewrite Hpx, Hcov by done. simpl.
    destruct (Point_In (Pt x y) r'); [|done].
    f_equal; [f_equal; lia|f_equal; lia].
Qed.

Lemma NewRGBA_spec r c :
  NewRGBA r = Some c ->
  wf_canvas c /\ Rect c = r /\ bytes_ok c.
Proof.
  unfold NewRGBA.
  destruct ((Dx r <? 0) || (Dy r <? 0)) eqn:Hneg; [done|].
  apply orb_false_iff in Hneg. rewrite !Z.ltb_ge in Hneg. destruct Hneg as [Hw Hh].
  intros [= <-]. unfold wf_canvas, bytes_ok. simpl.
  split; [|split; [done|]].
  - do 3 (split; [done|]). rewrite length_replicate.
    rewrite Z2Nat.id by (apply Z.mul_nonneg_nonneg; lia). lia.
  - apply Forall_replicate. unfold byte_range. lia.
Qed.

Lemma NewRGBA_is_Some r : 0 <= Dx r -> 0 <= Dy r -> is_Some (NewRGBA r).
Proof.
  intros Hw Hh. unfold NewRGBA.
  rewrite (proj2 (Z.ltb_ge _ _) Hw), (proj2 (Z.ltb_ge _ _) Hh). simpl. eauto.
Qed.

Lemma uint8_range z : byte_range (uint8 z).
Proof. unfold byte_range, uint8. apply Z.mod_pos_bound. done. Qed.

Lemma blend_bytes op d s ma :
  byte_range (color.R (draw.blend op d s ma)) /\
  byte_range (color.G (draw.blend op d s ma)) /\
  byte_range (color.B (draw.blend op d s ma)) /\
  byte_range (color.A (draw.blend op d s ma)).
Proof. destruct op; simpl; repeat split; apply uint8_range. Qed.

Lemma store4_bytes pix i d :
  Forall byte_range pix ->
  byte_range (color.R d) -> byte_range (color.G d) ->
  byte_range (color.B d) -> byte_range (color.A d) ->
  Forall byte_range (draw.store4 pix i d).
Proof.
  intros Hpix Hr Hg Hb Ha. unfold draw.store4.
  repeat apply Forall_insert; done.
Qed.

Lemma draw_pixel_bytes src mask op pix i sx sy mx my pix' :
  Forall byte_range pix ->
  draw.draw_pixel src mask op pix i sx sy mx my = Some pix' ->
  Forall byte_range pix'.
Proof.
  intros Hpix. unfold draw.draw_pixel.
  destruct (draw.slice4 pix i) as [d|]; [|done]. simpl. intros [= <-].
  apply store4_bytes; [done|..]; apply blend_bytes.
Qed.

Lemma draw_row_bytes src mask op n : forall pix i sx mx sy my pix',
  Forall byte_range pix ->
  draw.draw_row src mask op n pix i sx mx sy my = Some pix' ->
  Forall byte_range pix'.
Proof.
  induction n as [|n IH]; intros pix i sx mx sy my pix' Hpix; simpl.
  - by intros [= <-].
  - destruct (draw.draw_pixel src mask op pix i sx sy mx my) as [pix1|] eqn:H1; [|done].
    simpl. apply IH. by eapply draw_pixel_bytes.
Qed.

Lemma draw_rows_bytes src mask op stride n w : forall pix i0 sx0 mx0 sy my pix',
  Forall byte_range pix ->
  draw.draw_rows src mask op stride n w pix i0 sx0 mx0 sy my = Some pix' ->
  Forall byte_range pix'.
Proof.
  induction n as [|n IH]; intros pix i0 sx0 mx0 sy my pix' Hpix; simpl.
  - by intros [= <-].
  - destruct (draw.draw_row src mask op w pix i0 sx0 mx0 sy my) as [pix1|] eqn:H1; [|done].
    simpl. apply IH. by eapply draw_row_bytes.
Qed.

Lemma DrawMask_bytes dst r src sp mask mp op dst' :
  bytes_ok dst -> draw.DrawMask dst r src sp mask mp op = Some dst' -> bytes_ok dst'.
Proof.
  intros Hok. unfold draw.DrawMask.
  destruct (draw.clip _ _ _ _ _ _) as [[r' sp'] mp'].
  destruct (Empty r'); [by intros [= <-]|].
  unfold draw.drawRGBA.
  match goal with
  | |- context [ draw.draw_rows ?a ?b ?c ?d ?e ?f ?g ?h ?i ?j ?k ?l ] =>
      destruct (draw.draw_rows a b c d e f g h i j k l) as [pix'|] eqn:Hrun
  end; [|done].
  simpl. intros [= <-]. unfold bytes_ok. simpl. by eapply draw_rows_bytes.
Qed.

(** An [image.RGBA] is determined by its pixels. *)
Lemma canvas_ext (c c' : RGBA) :
  wf_canvas c -> Stride c' = Stride c -> Rect c' = Rect c ->
  length (Pix c') = length (Pix c) ->
  (forall x y, Point_In (Pt x y) (Rect c) = true -> RGBAAt c' x y = RGBAAt c x y) ->
  c' = c.
Proof.
  intros (Hdx & Hdy & Hstride & Hlen) Hs Hr Hl Hpx.
  destruct c as [pix s [[X0 Y0] [X1 Y1]]], c' as [pix' s' r'].
  unfold Dx, Dy in *. simpl in *. subst s' r' s. f_equal.
  apply (list_eq_same_length _ _ (length pix)); [done..|].
  intros k b b' Hk Hb Hb'.
  apply list_lookup_total_correct in Hb, Hb'. subst b b'.
  set (s := 4 * (X1 - X0)) in *.
  assert (Hspos : 0 < s).
  { destruct (decide (0 < s)); [done|]. assert (s * (Y1 - Y0) <= 0) by nia. lia. }
  pose proof (Z.div_mod (Z.of_nat k) s ltac:(lia)) as Hdm.
  pose proof (Z.mod_pos_bound (Z.of_nat k) s Hspos) as Hmb.
  set (q := Z.of_nat k / s) in *. set (rm := Z.of_nat k mod s) in *.
  assert (Hq0 : 0 <= q) by (apply Z.div_pos; lia).
  assert (Hq : q < Y1 - Y0) by nia.
  pose proof (Z.div_mod rm 4 ltac:(lia)) as Hdm4.
  pose proof (Z.mod_pos_bound rm 4 ltac:(lia)) as Hmb4.
  set (q2 := rm / 4) in *. set (cc := rm mod 4) in *.
  assert (Hq20 : 0 <= q2) by (apply Z.div_pos; lia).
  assert (Hq2 : q2 < X1 - X0) by lia.
  specialize (Hpx (X0 + q2) (Y0 + q)).
  assert (Hin : Point_In (Pt (X0 + q2) (Y0 + q)) (Rect_ (Pt X0 Y0) (Pt X1 Y1)) = true).
  { apply Point_In_true. simpl. lia. }
  specialize (Hpx Hin). rewrite !RGBAAt_inside in Hpx by exact Hin.
  unfold quad, PixOffset in Hpx. simpl in Hpx.
  replace (Y0 + q - Y0) with q in Hpx by lia.
  replace (X0 + q2 - X0) with q2 in Hpx by lia.
  assert (Hqs : 0 <= q * s) by (apply Z.mul_nonneg_nonneg; lia).
  assert (Hk' : k = (Z.to_nat (q * s + q2 * 4) + Z.to_nat cc)%nat) by lia.
  injection Hpx as H0 H1 H2 H3.
  assert (cc = 0 \/ cc = 1 \/ cc = 2 \/ cc = 3) as [Hc|[Hc|[Hc|Hc]]] by lia;
    rewrite Hk', Hc; simpl Z.to_nat.
  - by rewrite Nat.add_0_r.
  - exact H1.
  - exact H2.
  - exact H3.
Qed.

Lemma lookup_total_bytes (pix : list Z) (i : nat) :
  Forall byte_range pix -> byte_range (pix !!! i).
Proof.
  intros H. destruct (decide (i < length pix)%nat) as [Hi|Hi].
  - by apply Forall_lookup_total_1.
  - rewrite list_lookup_total_alt, lookup_ge_None_2 by lia.
    unfold byte_range. simpl. unfold inhabitant. simpl. lia.
Qed.

Lemma quad_bytes pix i :
  Forall byte_range pix ->
  byte_range (color.R (quad pix i)) /\ byte_range (color.G (quad pix i)) /\
  byte_range (color.B (quad pix i)) /\ byte_range (color.A (quad pix i)).
Proof. intros H. unfold quad. simpl. repeat split; by apply lookup_total_bytes. Qed.

Lemma RGBAAt_bytes c x y :
  bytes_ok c ->
  byte_range (color.R (RGBAAt c x y)) /\ byte_range (color.G (RGBAAt c x y)) /\
  byte_range (color.B (RGBAAt c x y)) /\ byte_range (color.A (RGBAAt c x y)).
Proof.
  intros H. unfold RGBAAt. destruct (negb _).
  - simpl. unfold byte_range. lia.
  - by apply quad_bytes.
Qed.

Lemma over_transparent_channel dc ma :
  byte_range dc ->
  uint8 (Z.shiftr
           (uint32 (uint32 (dc * uint32 ((draw.m - uint32 (0 * ma) / draw.m) * 257))
                    + uint32 (0 * ma)) / draw.m) 8) = dc.
Proof.
  intros Hd. unfold byte_range in Hd.
  rewrite Z.mul_0_l. unfold draw.m.
  change (uint32 0) with 0. change (0 / 65535) with 0.
  change (uint32 ((65535 - 0) * 257)) with 16842495.
  rewrite Z.add_0_r. unfold uint32, uint8.
  rewrite Zmod_mod. rewrite Z.shiftr_div_pow2 by lia.
  change (2 ^ 32) with 4294967296. change (2 ^ 8) with 256.
  Z.div_mod_to_equations. lia.
Qed.

Lemma blend_over_transparent d ma :
  byte_range (color.R d) -> byte_range (color.G d) ->
  byte_range (color.B d) -> byte_range (color.A d) ->
  draw.blend draw.Over d (color.RGBA16 0 0 0 0) ma = d.
Proof.
  intros Hr Hg Hb Ha. destruct d as [r g b a]. simpl in *.
  f_equal; by apply over_transparent_channel.
Qed.

Lemma transparent_is_zero c :
  color.premultiplied c -> color.ca c = 0 -> c = color.RGBA16 0 0 0 0.
Proof.
  destruct c as [r g b a]. unfold color.premultiplied. simpl.
  intros H ->. f_equal; lia.
Qed.

Lemma DrawMask_transparent dst r src sp mask mp :
  wf_canvas dst -> bytes_ok dst ->
  (forall x y, Point_In (Pt x y) (Bounds src) = true ->
     color.premultiplied (At src x y) /\ color.ca (At src x y) = 0) ->
  draw.DrawMask dst r src sp mask mp draw.Over = Some dst.
Proof.
  intros Hwf Hok Htr.
  destruct (DrawMask_spec dst r src sp mask mp draw.Over Hwf)
    as (dst' & -> & Hs & Hr & Hl & Hpx).
  f_equal. apply canvas_ext; try done.
  intros x y Hxy. rewrite Hpx by done.
  destruct (covered dst r src sp mask mp x y) eqn:Hc; [|done].
  apply covered_true in Hc. destruct Hc as (_ & _ & Hsrc & _).
  destruct (Htr _ _ Hsrc) as [Hpre Ha].
  rewrite (transparent_is_zero _ Hpre Ha).
  apply blend_over_transparent; by apply RGBAAt_bytes.
Qed.


Lemma base_canvas_spec srcImage :
  0 <= Dx (Bounds srcImage) -> 0 <= Dy (Bounds srcImage) ->
  exists base,
    base_canvas srcImage = Some base /\ wf_canvas base /\ bytes_ok base /\
    Rect base = Bounds srcImage.
Proof.
  intros Hw Hh. unfold base_canvas.
  destruct (NewRGBA_is_Some _ Hw Hh) as [c0 Hc0]. rewrite Hc0. simpl.
  destruct (NewRGBA_spec _ _ Hc0) as (Hwf & Hr & Hok).
  unfold draw.Draw.
  destruct (DrawMask_spec c0 (Bounds srcImage) srcImage (Pt 0 0) None ZP draw.Src Hwf)
    as (base & Hrun & Hs & Hr' & Hl & _).
  exists base. split; [done|]. split; [|split].
  - unfold wf_canvas in *. rewrite Hs, Hr', Hl. done.
  - by eapply DrawMask_bytes.
  - congruence.
Qed.

Lemma composite_eq srcImage scaledWatermark mask off base :
  base_canvas srcImage = Some base ->
  composite srcImage scaledWatermark mask off
  = draw.DrawMask base (Add (Bounds srcImage) off) scaledWatermark (Pt 0 0)
      (Some mask) (Pt 0 0) draw.Over.
Proof.
  unfold base_canvas, composite. intros H.
  destruct (NewRGBA (Bounds srcImage)) as [c0|]; [|done]. simpl in *.
  by rewrite H.
Qed.

Lemma composite_none srcImage scaledWatermark mask off :
  base_canvas srcImage = None ->
  composite srcImage scaledWatermark mask off = None.
Proof.
  unfold base_canvas, composite. intros H.
  destruct (NewRGBA (Bounds srcImage)) as [c0|]; [|done]. simpl in *.
  by rewrite H.
Qed.

Lemma base_canvas_shape srcImage base :
  base_canvas srcImage = Some base -> wf_canvas base /\ bytes_ok base.
Proof.
  unfold base_canvas.
  destruct (NewRGBA (Bounds srcImage)) as [c0|] eqn:Hc0; [|done]. simpl.
  destruct (NewRGBA_spec _ _ Hc0) as (Hwf & Hr & Hok).
  unfold draw.Draw. intros Hrun.
  destruct (DrawMask_spec c0 (Bounds srcImage) srcImage (Pt 0 0) None ZP draw.Src Hwf)
    as (base' & Hrun' & Hs & Hr' & Hl & _).
  rewrite Hrun in Hrun'. injection Hrun' as <-. split.
  - unfold wf_canvas in *. rewrite Hs, Hr', Hl. done.
  - by eapply DrawMask_bytes.
Qed.

Lemma widen_byte (c : Z) : 0 <= c < 256 -> Z.lor c (Z.shiftl c 8) = 257 * c.
Proof.
  intros Hc.
  assert (Hall : forallb (fun n => Z.lor (Z.of_nat n) (Z.shiftl (Z.of_nat n) 8)
                                   =? 257 * Z.of_nat n) (seq 0 256) = true)
    by (vm_compute; reflexivity).
  rewrite forallb_forall in Hall.
  specialize (Hall (Z.to_nat c)). rewrite Z2Nat.id in Hall by lia.
  apply Z.eqb_eq, Hall, in_seq. lia.
Qed.

(** The pixels of a PNG with an alpha channel are valid colours, and those
    of alpha 0 have alpha 0 as colours: the contract of [color.Color] that
    the next theorem asks of the watermark holds of what [png.Decode]
    returns. *)
Lemma NRGBA_RGBA_premultiplied (R G B A : Z) :
  0 <= R < 256 -> 0 <= G < 256 -> 0 <= B < 256 -> 0 <= A < 256 ->
  color.premultiplied (color.NRGBA_RGBA R G B A) /\
  (A = 0 -> color.ca (color.NRGBA_RGBA R G B A) = 0).
Proof.
  intros HR HG HB HA. unfold color.premultiplied, color.NRGBA_RGBA, uint32. simpl.
  rewrite !widen_byte by done.
  change (2 ^ 32) with 4294967296.
  rewrite !Z.mod_small by nia.
  split; [|intros ->; reflexivity].
  repeat split; try (apply Z.div_pos; nia); try lia;
    apply Z.div_le_upper_bound; nia.
Qed.

(** C7.  When every pixel of the scaled watermark is a valid colour of
    alpha 0, the canvas after [draw.DrawMask] is the canvas after the copy
    of the photo, for every photo, offset and uniform mask value: the
    masked draw changes no byte. *)
Theorem transparent_watermark_keeps_base
    (srcImage scaledWatermark : Image) (v : Z) :
  (forall x y, Point_In (Pt x y) (Bounds scaledWatermark) = true ->
     color.premultiplied (At scaledWatermark x y) /\
     color.ca (At scaledWatermark x y) = 0) ->
  (forall off,
     composite srcImage scaledWatermark (NewUniform (color.Alpha_RGBA v)) off
     = base_canvas srcImage) /\
  (0 <= Dx (Bounds srcImage) -> 0 <= Dy (Bounds srcImage) ->
   is_Some (base_canvas srcImage)).
Proof.
  intros Htr. split.
  - intros off. destruct (base_canvas srcImage) as [base|] eqn:Hb.
    + rewrite (composite_eq _ _ _ _ _ Hb).
      destruct (base_canvas_shape _ _ Hb) as [Hwf Hok].
      by apply DrawMask_transparent.
    + by apply composite_none.
  - intros Hw Hh. destruct (base_canvas_spec srcImage Hw Hh) as (base & -> & _). eauto.
Qed.

Lemma transparent_watermark_keeps_base_witness :
  composite black_photo {| Bounds := sized 1 3; At := fun _ _ => color.RGBA16 0 0 0 0 |}
    (NewUniform (color.Alpha_RGBA 186)) (Pt 0 (-1))
  = base_canvas black_photo.
Proof.
  apply (transparent_watermark_keeps_base black_photo
           {| Bounds := sized 1 3; At := fun _ _ => color.RGBA16 0 0 0 0 |} 186).
  intros x y _. simpl. unfold color.premultiplied. simpl. lia.
Defined.


Lemma composite_draws_covered srcImage scaledWatermark mask off :
  0 <= Dx (Bounds srcImage) -> 0 <= Dy (Bounds srcImage) ->
  exists base canvas,
    base_canvas srcImage = Some base /\
    composite srcImage scaledWatermark mask off = Some canvas /\
    Rect base = Bounds srcImage /\
    Rect canvas = Bounds srcImage /\
    Stride canvas = Stride base /\
    length (Pix canvas) = length (Pix base) /\
    wf_canvas canvas /\
    forall x y, Point_In (Pt x y) (Bounds srcImage) = true ->
      RGBAAt canvas x y =
      if covered base (Add (Bounds srcImage) off) scaledWatermark (Pt 0 0)
           (Some mask) (Pt 0 0) x y
      then draw.blend draw.Over (RGBAAt base x y)
             (At scaledWatermark (x - X (Min (Bounds srcImage)) - X off)
                                 (y - Y (Min (Bounds srcImage)) - Y off))
             (color.ca (At mask (x - X (Min (Bounds srcImage)) - X off)
                                (y - Y (Min (Bounds srcImage)) - Y off)))
      else RGBAAt base x y.
Proof.
  intros Hw Hh.
  destruct (base_canvas_spec srcImage Hw Hh) as (base & Hb & Hwf & Hok & Hr).
  destruct (DrawMask_spec base (Add (Bounds srcImage) off) scaledWatermark (Pt 0 0)
              (Some mask) (Pt 0 0) draw.Over Hwf)
    as (canvas & Hrun & Hs & Hr' & Hl & Hpx).
  exists base, canvas. rewrite (composite_eq _ _ _ _ _ Hb).
  do 2 (split; [done|]). split; [done|]. split; [congruence|].
  do 2 (split; [done|]).
  split; [unfold wf_canvas in *; by rewrite Hs, Hr', Hl|].
  intros x y Hxy. rewrite Hpx by (by rewrite Hr).
  destruct (covered _ _ _ _ _ _ _ _); [|done].
  unfold draw.mask_alpha. cbn [X Y Min Add].
  f_equal; [f_equal; lia|f_equal; f_equal; lia].
Qed.




End Drawing.

(** Compositing a photo of non-negative width and height does not panic. *)
Lemma composite_total srcImage scaledWatermark mask off :
  0 <= image.Dx (image.Bounds srcImage) ->
  0 <= image.Dy (image.Bounds srcImage) ->
  is_Some (composite srcImage scaledWatermark mask off).
Proof.
  intros Hw Hh.
  destruct (composite_draws_covered srcImage scaledWatermark mask off Hw Hh)
    as (base & canvas & _ & -> & _). eauto.
Qed.

(** ** File names *)







(** ** Threads and runs *)

Section MainCalls.
Variable E : Env.
Variable fl : Flags.

Lemma next_future p e k : next E p = Some (e, k) -> future E p = e :: future E k.
Proof.
  destruct p; simpl; intros H; try discriminate;
    try (injection H as <- <-; reflexivity).
  destruct (jpeg_Encode E img quality); injection H as <- <-; reflexivity.
Qed.

Lemma next_None p : next E p = None <-> future E p = [].
Proof.
  destruct p; simpl; split; intros H; try discriminate; try reflexivity;
    destruct (jpeg_Encode E img quality); discriminate.
Qed.

Lemma future_range_go files body k :
  future E (range_go files body k)
  = map (fun file => EvGo (body file)) files ++ future E k.
Proof. induction files as [|f files IH]; simpl; [done|]. by rewrite IH. Qed.

Lemma future_run_batch watermark mask files :
  future E (run_batch E fl watermark mask files)
  = batch_events E fl watermark mask files.
Proof.
  unfold run_batch, batch_events. simpl. by rewrite future_range_go.
Qed.

Lemma future_load_and_run :
  gostrings.HasSuffix (paramWatermark fl) ".png" = true ->
  ends_with (main_tail E fl) (future E (load_and_run E fl)).
Proof.
  intros Hpng. unfold load_and_run, openImage, getFiles, Println. simpl.
  apply ends_later; [done|]. apply ends_later; [done|].
  destruct (os_Open E (paramWatermark fl)) as [inputfile|] eqn:Hopen.
  2:{ apply ends_here. left. eauto. }
  destruct (png_Decode E inputfile) as [watermark|] eqn:Hdec.
  2:{ apply ends_here. left. eauto. }
  simpl. apply ends_later; [done|].
  destruct (ioutil_ReadDir E (paramSourceDir fl)) as [files|] eqn:Hdir.
  2:{ apply ends_here. left. eauto. }
  apply ends_here. right. right. exists watermark, files.
  split; [|apply future_run_batch].
  split; [done|]. split; [eauto|done].
Qed.

Lemma future_main : ends_with (main_tail E fl) (future E (main E fl)).
Proof.
  unfold main, Println. simpl.
  do 17 (apply ends_later; [done|]).
  destruct (os_Stat E (paramWatermark fl));
    try (apply ends_here; left; eauto; fail).
  - destruct (gostrings.HasSuffix (paramWatermark fl) ".png") eqn:Hpng; simpl;
      [|apply ends_here; left; eauto].
    apply ends_later; [done|].
    destruct (os_Stat E (paramSourceDir fl));
      try (apply ends_here; left; eauto; fail);
      (apply ends_later; [done|]);
      destruct (os_Stat E (paramTargetDir fl)); simpl;
      try (apply ends_later; [done|]; by apply future_load_and_run);
      (apply ends_later; [done|]);
      (destruct (paramForce fl); simpl;
       [apply ends_later; [done|]; by apply future_load_and_run
       |do 2 (apply ends_later; [done|]); apply ends_here; right; by left]).
  - destruct (gostrings.HasSuffix (paramWatermark fl) ".png") eqn:Hpng; simpl;
      [|apply ends_here; left; eauto].
    apply ends_later; [done|].
    destruct (os_Stat E (paramSourceDir fl));
      try (apply ends_here; left; eauto; fail);
      (apply ends_later; [done|]);
      destruct (os_Stat E (paramTargetDir fl)); simpl;
      try (apply ends_later; [done|]; by apply future_load_and_run);
      (apply ends_later; [done|]);
      (destruct (paramForce fl); simpl;
       [apply ends_later; [done|]; by apply future_load_and_run
       |do 2 (apply ends_later; [done|]); apply ends_here; right; by left]).
Qed.
End MainCalls.

Section TaskCalls.
Variable E : Env.
Variable fl : Flags.

Lemma task_skips watermark mask file :
  eligible file = false ->
  go_task E fl watermark mask file = Print (MsgSkipping (Name file)) (WgDone Ret).
Proof.
  unfold eligible, go_task, task. intros H.
  apply orb_false_iff in H. destruct H as [-> ->]. reflexivity.
Qed.

Lemma task_proceeds watermark mask file :
  eligible file = true ->
  go_task E fl watermark mask file
  = openImage E (source_path E fl file) "jpeg" (fun srcImage =>
      match watermarked E srcImage watermark mask (paramWatermark fl)
              (paramScale fl) with
      | None => WgDone Panic
      | Some canvas =>
          saveImage E canvas (paramTargetDir fl) (Name file) (WgDone Ret)
      end).
Proof.
  unfold eligible, go_task, task. intros H.
  apply orb_true_iff in H.
  destruct (gostrings.HasSuffix (Name file) ".jpg"),
    (gostrings.HasSuffix (Name file) ".jpeg"); simpl; try reflexivity.
  destruct H; discriminate.
Qed.

Lemma task_output_None_fatal watermark mask file :
  task_output E fl watermark mask file = None ->
  (os_Open E (source_path E fl file) = None \/
   (exists inputfile, os_Open E (source_path E fl file) = Some inputfile /\
                      jpeg_Decode E inputfile = None) \/
   is_Some (task_canvas E fl watermark mask file)) ->
  ~ task_panics E fl watermark mask file.
Proof.
  intros _ H (inputfile & srcImage & Hopen & Hdec & Hwm).
  destruct H as [H|[(b & H & H')|[canvas H]]]; [congruence|congruence|].
  unfold task_canvas in H. rewrite Hopen in H. simpl in H.
  rewrite Hdec in H. simpl in H. congruence.
Qed.

Lemma future_go_task watermark mask file :
  task_future E fl watermark mask file (future E (go_task E fl watermark mask file)).
Proof.
  destruct (eligible file) eqn:Hel.
  2:{ rewrite task_skips by done. simpl. by apply tf_skip. }
  rewrite task_proceeds by done.
  unfold openImage. simpl.
  destruct (os_Open E (source_path E fl file)) as [inputfile|] eqn:Hopen; simpl.
  2:{ assert (Hout : task_output E fl watermark mask file = None).
      { unfold task_output, task_canvas. by rewrite Hopen. }
      apply (tf_failed _ _ _ _ _ [_]); [done|done| |].
      - apply task_output_None_fatal; [done|by left].
      - repeat (apply Forall_cons_2; [eauto 6|]); apply Forall_nil_2. }
  destruct (jpeg_Decode E inputfile) as [srcImage|] eqn:Hdec; simpl.
  2:{ assert (Hout : task_output E fl watermark mask file = None).
      { unfold task_output, task_canvas. rewrite Hopen. simpl. by rewrite Hdec. }
      apply (tf_failed _ _ _ _ _ [_]); [done|done| |].
      - apply task_output_None_fatal; [done|right; left; eauto].
      - repeat (apply Forall_cons_2; [eauto 6|]); apply Forall_nil_2. }
  destruct (watermarked E srcImage watermark mask (paramWatermark fl) (paramScale fl))
    as [canvas|] eqn:Hwm; simpl.
  2:{ apply tf_panicked; [done|]. by exists inputfile, srcImage. }
  fold (target_path E fl file).
  assert (Hcanvas : task_canvas E fl watermark mask file = Some canvas).
  { unfold task_canvas. rewrite Hopen. simpl. rewrite Hdec. simpl. by rewrite Hwm. }
  assert (Hout : task_output E fl watermark mask file
                 = if os_Create E (target_path E fl file)
                   then jpeg_Encode E canvas 95 else None).
  { unfold task_output. by rewrite Hcanvas. }
  assert (Hnp : task_output E fl watermark mask file = None ->
                ~ task_panics E fl watermark mask file).
  { intros H. apply task_output_None_fatal; [done|]. right. right.
    by rewrite Hcanvas. }
  destruct (os_Create E (target_path E fl file)) eqn:Hcr; simpl.
  2:{ apply (tf_failed _ _ _ _ _ [_; _]); [done|done|by apply Hnp|].
      repeat (apply Forall_cons_2; [eauto 6|]); apply Forall_nil_2. }
  destruct (jpeg_Encode E canvas 95) as [data|] eqn:Henc; simpl.
  - by apply tf_saved.
  - apply (tf_failed _ _ _ _ _ [_; _; _]); [done|done|by apply Hnp|].
    repeat (apply Forall_cons_2; [eauto 6|]); apply Forall_nil_2.
Qed.
End TaskCalls.

Lemma wg_of_app l1 l2 : wg_of (l1 ++ l2) = wg_of l1 + wg_of l2.
Proof. induction l1 as [|e l1 IH]; simpl; [done|]. rewrite IH. lia. Qed.

Lemma wg_of_perm l1 l2 : l1 ≡ₚ l2 -> wg_of l1 = wg_of l2.
Proof. induction 1; simpl; lia. Qed.

Lemma spawns_app l1 l2 : spawns (l1 ++ l2) = spawns l1 ++ spawns l2.
Proof. unfold spawns. apply flat_map_app. Qed.

Lemma concat_insert_perm {A} (ls : list (list A)) i l x :
  ls !! i = Some l -> concat (<[i := l ++ [x]]> ls) ≡ₚ x :: concat ls.
Proof.
  revert i. induction ls as [|l0 ls IH]; intros [|i] H; simplify_eq/=.
  - rewrite <- app_assoc. simpl. by rewrite <- Permutation_middle.
  - rewrite IH by done. by rewrite Permutation_middle.
Qed.

Lemma effect_continue e w w' :
  effect e w = (w', None) ->
  halting e = false /\
  stdout w' = stdout w ++ option_list (print_of e) /\
  wg w' = wg w + wg_delta e /\
  written w' = write_of e (written w).
Proof.
  destruct e as [| | | | | | | |? []|? []| |d| | |]; simpl;
    try (intros [= <-]; simpl; rewrite ?app_nil_r, ?Z.add_0_r; done);
    try discriminate.
  all: unfold wg_add;
    match goal with |- context [ if ?c then _ else _ ] => destruct c end;
    [discriminate|]; intros [= <-]; simpl; by rewrite app_nil_r.
Qed.

Lemma effect_halt e w w' code :
  effect e w = (w', Some code) ->
  stdout w' = stdout w /\ wg w' = wg w /\ written w' = written w /\
  (code = 0 -> e = EvExit 0).
Proof.
  destruct e as [| | | | | | | |? []|? []| |d| | |]; simpl;
    try (intros [= <- <-]; repeat split; try done; congruence);
    try discriminate.
  all: unfold wg_add;
    match goal with |- context [ if ?c then _ else _ ] => destruct c end;
    [|discriminate]; intros [= <- <-]; done.
Qed.

Lemma views_snoc hist w e w' :
  views hist w -> effect e w = (w', None) -> views (hist ++ [e]) w'.
Proof.
  intros (Hout & Hwg & Hfs) He.
  apply effect_continue in He. destruct He as (_ & Hout' & Hwg' & Hfs').
  split; [|split].
  - rewrite Hout', Hout, omap_app. simpl. by destruct (print_of e).
  - rewrite Hwg', Hwg, wg_of_app. simpl. lia.
  - rewrite Hfs', Hfs, foldl_app. done.
Qed.

Lemma views_halt hist w e w' code :
  views hist w -> effect e w = (w', Some code) -> views hist w'.
Proof.
  intros (Hout & Hwg & Hfs) He.
  apply effect_halt in He. destruct He as (Hout' & Hwg' & Hfs' & _).
  split; [|split]; congruence.
Qed.

Lemma unique_split {A} (x : A) l1 l2 k1 k2 :
  x ∉ l1 -> x ∉ l2 -> l1 ++ x :: l2 = k1 ++ x :: k2 -> k1 = l1 /\ k2 = l2.
Proof.
  revert k1. induction l1 as [|a l1 IH]; intros [|b k1] H1 H2 Heq; simplify_eq/=.
  - done.
  - exfalso. apply H2, elem_of_app. right. constructor.
  - exfalso. apply H1. constructor.
  - destruct (IH k1) as [-> ->]; [|done|done|done].
    intros Hx. apply H1. by constructor.
Qed.

Lemma split_last {A} (past fut body : list A) x :
  past ++ fut = body ++ [x] ->
  (fut = [] /\ past = body ++ [x]) \/
  (exists fut', fut = fut' ++ [x] /\ past ++ fut' = body).
Proof.
  destruct fut as [|y fut _] using rev_ind.
  - rewrite app_nil_r. by left.
  - rewrite app_assoc. intros H. apply app_inj_tail in H as [H ->]. right. eauto.
Qed.

Lemma ends_with_split P l :
  ends_with P l ->
  exists pre tail, l = pre ++ tail /\ Forall (fun e => quiet e = true) pre /\ P tail.
Proof.
  induction 1 as [l H|e l Hq _ (pre & tail & -> & Hpre & Htail)].
  - exists [], l. by repeat split.
  - exists (e :: pre), tail. repeat split; [|done]. by constructor.
Qed.

Section Static.
Variable E : Env.
Variable fl : Flags.

Lemma main_future_split :
  exists pre tail,
    future E (main E fl) = pre ++ tail /\
    Forall (fun e => quiet e = true) pre /\ main_tail E fl tail.
Proof. apply ends_with_split, future_main. Qed.

Lemma spawns_quiet pre : Forall (fun e => quiet e = true) pre -> spawns pre = [].
Proof.
  induction 1 as [|e pre He _ IH]; [done|].
  unfold spawns in *. simpl. rewrite IH. by destruct e.
Qed.

Lemma wg_of_quiet pre : Forall (fun e => quiet e = true) pre -> wg_of pre = 0.
Proof.
  induction 1 as [|e pre He _ IH]; [done|].
  simpl. rewrite IH. by destruct e.
Qed.

Lemma spawns_gos watermark mask (files : list FileInfo) :
  spawns (map (fun file => EvGo (go_task E fl watermark mask file)) files)
  = map (go_task E fl watermark mask) files.
Proof. induction files as [|f files IH]; [done|]. unfold spawns in *. simpl. by rewrite IH. Qed.

Lemma wg_of_gos watermark mask (files : list FileInfo) :
  wg_of (map (fun file => EvGo (go_task E fl watermark mask file)) files) = 0.
Proof. induction files as [|f files IH]; [done|]. simpl. lia. Qed.

Lemma spawns_batch watermark mask files :
  spawns (batch_events E fl watermark mask files)
  = map (go_task E fl watermark mask) files.
Proof.
  unfold batch_events. rewrite !spawns_app, spawns_gos. simpl.
  by rewrite app_nil_r.
Qed.

(** Every goroutine of a run is the task of a directory entry. *)
Lemma spawned_is_task t :
  t ∈ spawns (future E (main E fl)) ->
  exists watermark files file,
    loaded E fl watermark files /\ file ∈ files /\
    t = go_task E fl watermark (new_mask (paramOpacity fl)) file.
Proof.
  destruct main_future_split as (pre & tail & -> & Hpre & Htail).
  rewrite spawns_app, (spawns_quiet _ Hpre). simpl.
  destruct Htail as [[msg ->]|[->|(wm & files & Hl & ->)]].
  - intros H. by apply elem_of_nil in H.
  - intros H. by apply elem_of_nil in H.
  - rewrite spawns_batch. intros H. apply list_elem_of_fmap in H as (file & -> & Hf).
    eauto 10.
Qed.

Lemma main_event_plain e :
  e ∈ future E (main E fl) ->
  e <> EvExit 0 /\ e <> EvDone /\ write_of e = id.
Proof.
  destruct main_future_split as (pre & tail & -> & Hpre & Htail).
  intros H. apply elem_of_app in H as [H|H].
  - rewrite Forall_forall in Hpre. specialize (Hpre _ H).
    destruct e as [[]| | | | | | | | | | | | | |]; done.
  - destruct Htail as [[msg ->]|[->|(wm & files & Hl & ->)]].
    + apply list_elem_of_singleton in H as ->. done.
    + apply list_elem_of_singleton in H as ->. done.
    + unfold batch_events in H. rewrite !elem_of_app in H.
      destruct H as [H|[H|H]].
      * repeat (apply elem_of_cons in H as [->|H]; [done|]). by apply elem_of_nil in H.
      * apply list_elem_of_fmap in H as (f & -> & _). done.
      * repeat (apply elem_of_cons in H as [->|H]; [done|]). by apply elem_of_nil in H.
Qed.
End Static.

Section Tasks.
Variable E : Env.
Variable fl : Flags.

Lemma task_future_shape watermark mask file F :
  task_future E fl watermark mask file F ->
  exists body tail,
    F = body ++ tail /\
    Forall (fun e => worker_event e = true) body /\
    (tail = [EvDone] \/ tail = [EvDone; EvPanic] \/
     exists msg, tail = [EvFatal msg]).
Proof.
  destruct 1 as [Hel|data Hel Hout|Hel Hp|body msg Hel Hout Hnp Hbody].
  - exists [EvPrint (MsgSkipping (Name file))], [EvDone].
    split; [done|]. split; [|by left]. by repeat constructor.
  - eexists [_; _; _], [EvDone].
    split; [done|]. split; [|by left]. by repeat constructor.
  - eexists [_], [EvDone; EvPanic].
    split; [done|]. split; [|right; by left]. by repeat constructor.
  - exists body, [EvFatal msg]. split; [done|]. split; [|eauto].
    eapply Forall_impl; [exact Hbody|].
    intros e [->|[[ok ->]| ->]]; done.
Qed.

Lemma wg_of_worker body :
  Forall (fun e => worker_event e = true) body -> wg_of body = 0.
Proof.
  induction 1 as [|e body He _ IH]; [done|].
  simpl. rewrite IH. by destruct e as [[]| | | | | | | | | | | | | |].
Qed.

(** A goroutine that is part-way through a task has not called
    [wg.Done()]; one that has called it has returned or is about to go
    down with a panic. *)
Lemma task_progress watermark mask file past fut :
  future E (go_task E fl watermark mask file) = past ++ fut ->
  (wg_of past = 0 /\ (fut = [] -> exists e, e ∈ past /\ halting e = true)) \/
  (wg_of past = -1 /\ (fut = [] \/ fut = [EvPanic])).
Proof.
  intros Heq.
  destruct (task_future_shape _ _ _ _ (future_go_task E fl watermark mask file))
    as (body & tail & HF & Hbody & Htail).
  rewrite HF in Heq. symmetry in Heq.
  apply app_eq_inv in Heq as [(k & -> & Hk)|(k & -> & ->)].
  - rewrite wg_of_app, (wg_of_worker _ Hbody).
    destruct Htail as [->|[->|[msg ->]]];
      destruct k as [|e [|e' [|e'' k]]]; simplify_eq/=;
      first [ by left
            | by (right; split; [|left])
            | by (right; split; [|right])
            | left; split; [done|]; intros _; exists (EvFatal msg);
              split; [|done]; apply elem_of_app; right; constructor ].
  - left. split.
    + apply wg_of_worker. by apply Forall_app in Hbody as [? _].
    + intros H. apply app_eq_nil in H as [_ ->].
      by destruct Htail as [?|[?|[? ?]]].
Qed.

Lemma task_event_plain watermark mask file e :
  e ∈ future E (go_task E fl watermark mask file) ->
  spawned e = [] /\ e <> EvWait /\ e <> EvExit 0 /\
  (forall n, e <> EvPrint (MsgAllDone n)).
Proof.
  destruct (task_future_shape _ _ _ _ (future_go_task E fl watermark mask file))
    as (body & tail & -> & Hbody & Htail).
  intros H. apply elem_of_app in H as [H|H].
  - rewrite Forall_forall in Hbody. specialize (Hbody _ H).
    by destruct e as [[]| | | | | | | | | | | | | |].
  - destruct Htail as [->|[->|[msg ->]]];
      repeat (apply elem_of_cons in H as [->|H]; [done|]);
      by apply elem_of_nil in H.
Qed.

Lemma done_prefix (body tl past fut : list Event) :
  Forall (fun e => worker_event e = true) body ->
  body ++ EvDone :: tl = past ++ fut -> wg_of past <> 0 ->
  exists tl', past = body ++ EvDone :: tl'.
Proof.
  intros Hbody Heq Hwg.
  apply app_eq_inv in Heq as [(k & -> & Hk)|(k & -> & Hk)].
  - exfalso. apply Hwg, wg_of_worker. by apply Forall_app in Hbody as [? _].
  - destruct k as [|e k]; simplify_eq/=.
    + exfalso. apply Hwg. rewrite app_nil_r. by apply wg_of_worker.
    + eauto.
Qed.

(** What a goroutine that has called [wg.Done()] has done before. *)
Lemma task_done watermark mask file past fut :
  future E (go_task E fl watermark mask file) = past ++ fut ->
  wg_of past = -1 ->
  (eligible file = false /\ EvPrint (MsgSkipping (Name file)) ∈ past) \/
  (eligible file = true /\
   exists data, task_output E fl watermark mask file = Some data /\
                EvEncode (target_path E fl file) (Some data) ∈ past) \/
  (eligible file = true /\ task_panics E fl watermark mask file).
Proof.
  intros Heq Hwg.
  pose proof (future_go_task E fl watermark mask file) as Hshape.
  rewrite Heq in Hshape.
  inversion Hshape as [Hel Hp|data Hel Hout Hp|Hel Hpanic Hp
                      |body msg Hel Hout Hnp Hbody Hp].
  - left. split; [done|].
    destruct (done_prefix [EvPrint (MsgSkipping (Name file))] [] past fut)
      as (tl' & ->); [by repeat constructor|done|lia|].
    constructor.
  - right. left. split; [done|]. exists data. split; [done|].
    destruct (done_prefix
                [EvOpen (source_path E fl file);
                 EvCreate (target_path E fl file) true;
                 EvEncode (target_path E fl file) (Some data)] [] past fut)
      as (tl' & ->); [by repeat constructor|done|lia|].
    do 2 constructor. constructor.
  - right. right. by split.
  - exfalso.
    assert (Hall : Forall (fun e => worker_event e = true \/ exists m, e = EvFatal m)
                     (past ++ fut)).
    { rewrite <- Hp. apply Forall_app. split.
      - eapply Forall_impl; [exact Hbody|].
        intros e [->|[[ok ->]| ->]]; by left.
      - constructor; [eauto|constructor]. }
    apply Forall_app in Hall as [Hpast _].
    assert (H0 : wg_of past = 0).
    { clear -Hpast. induction Hpast as [|e past He _ IH]; [done|].
      simpl. rewrite IH.
      destruct He as [He|[m ->]]; [|done].
      by destruct e as [[]| | | | | | | | | | | | | |]. }
    lia.
Qed.
End Tasks.

Section Step.
Variable E : Env.
Variable fl : Flags.

Lemma all_done pool threads :
  Forall2 (thread_ok E) pool threads ->
  Forall (is_task E fl) threads ->
  - Z.of_nat (length threads) <= wg_of (concat (threads.*2)) /\
  (wg_of (concat (threads.*2)) = - Z.of_nat (length threads) ->
   Forall (fun th => wg_of th.2 = -1) threads).
Proof.
  induction 1 as [|p [t past] pool threads Hok _ IH]; intros Htasks.
  - split; [done|]. intros _. constructor.
  - apply Forall_cons in Htasks as [(wm & files & file & _ & _ & Ht) Htasks].
    destruct (IH Htasks) as [Hle Hall]. simpl in Ht. subst t.
    unfold thread_ok in Hok. simpl in Hok.
    cbn [fmap list_fmap concat snd length]. rewrite wg_of_app.
    destruct (task_progress E fl _ _ _ _ _ Hok) as [[Hw _]|[Hw _]].
    + split; [lia|]. intros Heq. lia.
    + split; [lia|]. intros Heq. constructor; [done|].
      apply Hall. lia.
Qed.

Lemma tasks_of_spawns past0 fut threads :
  future E (main E fl) = past0 ++ fut ->
  spawns past0 = threads.*1 ->
  Forall (is_task E fl) threads.
Proof.
  intros HF Hsp. apply Forall_forall. intros [t past] Hth.
  apply (spawned_is_task E fl). rewrite HF, spawns_app, Hsp.
  apply elem_of_app. left. apply list_elem_of_fmap. by exists (t, past).
Qed.

(** Where [main] is when it has [wg.Wait()] ahead or behind. *)
Lemma wait_position l1 l2 :
  future E (main E fl) = l1 ++ EvWait :: l2 ->
  exists pre watermark files,
    loaded E fl watermark files /\
    Forall (fun e => quiet e = true) pre /\
    l1 = pre ++ [EvPrint (MsgStarting (Z.of_nat (length files)));
                 EvAdd (Z.of_nat (length files))] ++
         map (fun file =>
                EvGo (go_task E fl watermark (new_mask (paramOpacity fl)) file))
             files /\
    l2 = [EvPrint (MsgAllDone (Z.of_nat (length files)));
          EvPrint (Text rule);
          EvPrint (Text "");
          EvPrint (Text "Press any key to exit");
          EvScanln].
Proof.
  destruct (main_future_split E fl) as (pre & tail & -> & Hpre & Htail).
  intros Heq.
  assert (Hnp : EvWait ∉ pre).
  { intros H. rewrite Forall_forall in Hpre. by specialize (Hpre _ H). }
  destruct Htail as [[msg ->]|[->|(wm & files & Hl & ->)]].
  - assert (H : EvWait ∈ pre ++ [EvFatal msg]).
    { rewrite Heq. apply elem_of_app. right. constructor. }
    apply elem_of_app in H as [H|H]; [done|].
    by apply list_elem_of_singleton in H.
  - assert (H : EvWait ∈ pre ++ [EvExit 1]).
    { rewrite Heq. apply elem_of_app. right. constructor. }
    apply elem_of_app in H as [H|H]; [done|].
    by apply list_elem_of_singleton in H.
  - exists pre, wm, files. do 2 (split; [done|]).
    unfold batch_events in Heq.
    match type of Heq with
    | pre ++ ?a ++ ?b ++ EvWait :: ?c = _ =>
        assert (Heq' : (pre ++ a ++ b) ++ EvWait :: c = l1 ++ EvWait :: l2)
          by (rewrite <- Heq, <- !app_assoc; reflexivity)
    end.
    clear Heq. apply unique_split in Heq' as [-> ->]; [done| |].
    + rewrite !elem_of_app. intros [H|[H|H]]; [done| |].
      * repeat (apply elem_of_cons in H as [H|H]; [done|]). by apply elem_of_nil in H.
      * by apply list_elem_of_fmap in H as (f & ? & _).
    + intros H.
      repeat (apply elem_of_cons in H as [H|H]; [done|]). by apply elem_of_nil in H.
Qed.

Lemma wait_all_done past0 rest hist pool threads :
  future E (main E fl) = past0 ++ EvWait :: rest ->
  hist ≡ₚ past0 ++ concat (threads.*2) ->
  wg_of hist = 0 ->
  spawns past0 = threads.*1 ->
  Forall2 (thread_ok E) pool threads ->
  Forall (fun th => wg_of th.2 = -1) threads.
Proof.
  intros HF Hperm Hwg Hsp Hok.
  pose proof (tasks_of_spawns _ _ _ HF Hsp) as Htasks.
  destruct (wait_position _ _ HF) as (pre & wm & files & _ & Hpre & Hpast & _).
  destruct (all_done _ _ Hok Htasks) as [_ Hall]. apply Hall.
  rewrite (wg_of_perm _ _ Hperm), wg_of_app in Hwg.
  assert (Hlen : length threads = length files).
  { rewrite <- (length_fmap fst threads), <- Hsp, Hpast.
    rewrite !spawns_app, (spawns_quiet _ Hpre), spawns_gos. simpl.
    by rewrite length_fmap. }
  assert (Hw0 : wg_of past0 = Z.of_nat (length files)).
  { rewrite Hpast, !wg_of_app, (wg_of_quiet _ Hpre), wg_of_gos. simpl. lia. }
  lia.
Qed.
End Step.

Section Preservation.
Variable E : Env.
Variable fl : Flags.

Lemma Inv_start : Inv E fl (start (main E fl)).
Proof.
  exists [], [], []. simpl. repeat split; done.
Qed.

Lemma after_wait_no_spawn past0 e rest :
  future E (main E fl) = past0 ++ e :: rest ->
  EvWait ∈ past0 -> spawned e = [].
Proof.
  intros HF Hin. apply list_elem_of_split in Hin as (l1 & l2 & ->).
  rewrite <- app_assoc in HF. simpl in HF.
  destruct (wait_position E fl _ _ HF) as (_ & _ & files & _ & _ & _ & Hl2).
  assert (He : e ∈ l2 ++ e :: rest) by (apply elem_of_app; right; constructor).
  rewrite Hl2 in He.
  repeat (apply elem_of_cons in He as [->|He]; [done|]). by apply elem_of_nil in He.
Qed.

Lemma Inv_step c m m' : Inv E fl m -> mstep E c m = Some m' -> Inv E fl m'.
Proof.
  intros (hist & past0 & threads & Hv & Hperm & Hnh & HF & Hsp & Hok & Hw & Hx) Hstep.
  unfold mstep in Hstep. destruct (status m) eqn:Hst; [|done].
  destruct c as [|i].
  - destruct (next E (main_thread m)) as [[e k]|] eqn:Hnext.
    + destruct (enabled e (world m)) eqn:Hen; [|done]. injection Hstep as <-.
      pose proof (next_future _ _ _ _ Hnext) as Hfut. rewrite Hfut in HF.
      unfold commit. destruct (effect e (world m)) as [w' [code|]] eqn:Heff.
      * exists hist, past0, threads. simpl.
        split; [by eapply views_halt|]. do 2 (split; [done|]).
        split; [by rewrite Hfut|]. do 3 (split; [done|]).
        intros [= ->]. apply effect_halt in Heff as (_ & _ & _ & He).
        specialize (He eq_refl). subst e.
        destruct (main_event_plain E fl (EvExit 0)) as [Hne _]; [|done].
        rewrite HF. apply elem_of_app. right. constructor.
      * exists (hist ++ [e]), (past0 ++ [e]),
          (threads ++ map (fun t => (t, [])) (spawned e)). simpl.
        split; [by eapply views_snoc|].
        split.
        { rewrite fmap_app, concat_app.
          assert (Hnil : concat ((map (fun t : Prog => (t, @nil Event)) (spawned e)).*2) = []).
          { by destruct e. }
          rewrite Hnil, app_nil_r, Hperm.
          rewrite <- !app_assoc. apply Permutation_app_head, Permutation_app_comm. }
        split.
        { apply Forall_app. split; [done|]. constructor; [|constructor].
          by apply effect_continue in Heff as [? _]. }
        split; [by rewrite <- app_assoc|].
        split.
        { rewrite spawns_app, fmap_app, Hsp. f_equal.
          unfold spawns. simpl. rewrite app_nil_r. by destruct e. }
        split.
        { apply Forall2_app; [done|]. destruct e; simpl; try constructor.
          - done.
          - constructor. }
        split; [|done].
        intros Hin. apply elem_of_app in Hin as [Hin|Hin].
        { rewrite (after_wait_no_spawn _ _ _ HF Hin). simpl.
          rewrite app_nil_r. by apply Hw. }
        apply list_elem_of_singleton in Hin. subst e. simpl. rewrite app_nil_r.
        simpl in Hen. apply Z.eqb_eq in Hen.
        destruct Hv as (_ & Hwg & _). rewrite Hwg in Hen.
        by eapply wait_all_done.
    + injection Hstep as <-. exists hist, past0, threads. simpl.
      do 7 (split; [done|]). intros _. by apply next_None.
  - destruct (pool m !! i) as [p|] eqn:Hp; [|done].
    destruct (next E p) as [[e k]|] eqn:Hnext; [|done].
    destruct (enabled e (world m)) eqn:Hen; [|done]. injection Hstep as <-.
    pose proof (next_future _ _ _ _ Hnext) as Hfut.
    destruct (Forall2_lookup_l _ _ _ _ _ Hok Hp) as ([t past] & Hth & Hokp).
    unfold thread_ok in Hokp. simpl in Hokp. rewrite Hfut in Hokp.
    assert (Htask : is_task E fl (t, past)).
    { eapply Forall_forall; [by eapply tasks_of_spawns|].
      by eapply list_elem_of_lookup_2. }
    destruct Htask as (wm & files & file & _ & _ & Ht). simpl in Ht.
    destruct (task_event_plain E fl wm (new_mask (paramOpacity fl)) file e)
      as (Hns & Hnw & Hne & _).
    { rewrite <- Ht, Hokp. apply elem_of_app. right. constructor. }
    unfold commit. destruct (effect e (world m)) as [w' [code|]] eqn:Heff.
    + exists hist, past0, threads. simpl.
      split; [by eapply views_halt|]. do 6 (split; [done|]).
      intros [= ->]. apply effect_halt in Heff as (_ & _ & _ & He).
      by specialize (He eq_refl).
    + exists (hist ++ [e]), past0, (<[i := (t, past ++ [e])]> threads). simpl.
      split; [by eapply views_snoc|].
      split.
      { rewrite list_fmap_insert. simpl.
        rewrite (concat_insert_perm _ _ past) by (by rewrite list_lookup_fmap, Hth).
        rewrite Hperm, <- Permutation_cons_append. apply Permutation_middle. }
      split.
      { apply Forall_app. split; [done|]. constructor; [|constructor].
        by apply effect_continue in Heff as [? _]. }
      split; [done|].
      split.
      { rewrite list_fmap_insert. simpl. rewrite Hsp.
        symmetry. apply list_insert_id. by rewrite list_lookup_fmap, Hth. }
      split.
      { rewrite Hns, app_nil_r. apply Forall2_insert; [done|].
        unfold thread_ok. simpl. by rewrite <- app_assoc. }
      split; [|done].
      intros Hin. specialize (Hw Hin). exfalso.
      rewrite Forall_forall in Hw.
      specialize (Hw (t, past) (list_elem_of_lookup_2 _ _ _ Hth)). simpl in Hw.
      rewrite Ht in Hokp.
      destruct (task_progress E fl _ _ _ _ _ Hokp) as [[H0 _]|[_ [Hnil|Hp1]]];
        [lia|done|].
      injection Hp1 as -> _. simpl in Heff. discriminate Heff.
Qed.

Lemma Inv_exec sched : forall m m',
  Inv E fl m -> exec E sched m = Some m' -> Inv E fl m'.
Proof.
  induction sched as [|c sched IH]; intros m m' Hinv; simpl.
  - by intros [= <-].
  - destruct (mstep E c m) as [m1|] eqn:Hstep; [|done].
    apply IH. by eapply Inv_step.
Qed.

Lemma reachable_Inv m : reachable E fl m -> Inv E fl m.
Proof. intros [sched Hrun]. eapply Inv_exec; [apply Inv_start|exact Hrun]. Qed.
End Preservation.

Lemma views_stdout hist w msg :
  views hist w -> msg ∈ stdout w <-> EvPrint msg ∈ hist.
Proof.
  intros (-> & _ & _). rewrite list_elem_of_omap. split.
  - intros (e & He & Hp). by destruct e; simplify_eq/=.
  - intros H. by exists (EvPrint msg).
Qed.

Lemma writes_fold hist fs0 fpath :
  is_Some (foldl (fun fs e => write_of e fs) fs0 hist !! fpath) <->
  is_Some (fs0 !! fpath) \/ exists e, e ∈ hist /\ writes_to fpath e.
Proof.
  revert fs0. induction hist as [|e hist IH]; intros fs0; simpl.
  - split; [by left|]. intros [H|(e & H & _)]; [done|]. by apply elem_of_nil in H.
  - rewrite IH. split.
    + intros [H|(e' & He' & Hw)].
      * destruct e as [| | | | | | | |p []|p [data|]| | | | |]; simpl in H;
          try (by left).
        -- destruct (decide (p = fpath)) as [->|Hne].
           ++ right. exists (EvCreate fpath true). split; [constructor|by left].
           ++ rewrite lookup_insert_ne in H by done. by left.
        -- destruct (decide (p = fpath)) as [->|Hne].
           ++ right. exists (EvEncode fpath (Some data)).
              split; [constructor|right; eauto].
           ++ rewrite lookup_insert_ne in H by done. by left.
      * right. exists e'. split; [by constructor|done].
    + intros [H|(e' & He' & Hw)].
      * left. destruct e as [| | | | | | | |p []|p [data|]| | | | |]; simpl; try done.
        -- destruct (decide (p = fpath)) as [->|Hne].
           ++ by rewrite lookup_insert_eq.
           ++ by rewrite lookup_insert_ne.
        -- destruct (decide (p = fpath)) as [->|Hne].
           ++ by rewrite lookup_insert_eq.
           ++ by rewrite lookup_insert_ne.
      * apply elem_of_cons in He' as [->|He'].
        -- left. destruct Hw as [->|[data ->]]; simpl; by rewrite lookup_insert_eq.
        -- right. eauto.
Qed.

Lemma views_written hist w fpath :
  views hist w ->
  is_Some (written w !! fpath) <-> exists e, e ∈ hist /\ writes_to fpath e.
Proof.
  intros (_ & _ & ->). rewrite writes_fold, lookup_empty. split.
  - intros [H|H]; [by destruct H|done].
  - by right.
Qed.

Section Results.
Variable E : Env.
Variable fl : Flags.

Lemma hist_cases hist past0 threads pool e :
  hist ≡ₚ past0 ++ concat (threads.*2) ->
  Forall2 (thread_ok E) pool threads ->
  e ∈ hist ->
  e ∈ past0 \/
  exists t past p, (t, past) ∈ threads /\ e ∈ past /\
                   future E t = past ++ future E p.
Proof.
  intros Hperm Hok He. rewrite Hperm in He.
  apply elem_of_app in He as [He|He]; [by left|right].
  apply list_elem_of_In, in_concat in He as (past & Hpast & He).
  apply list_elem_of_In, list_elem_of_fmap in Hpast as ([t past'] & -> & Hth).
  apply list_elem_of_In in He.
  apply list_elem_of_lookup_1 in Hth as [i Hi].
  destruct (Forall2_lookup_r _ _ _ _ _ Hok Hi) as (p & _ & Hp).
  exists t, past', p. split; [by eapply list_elem_of_lookup_2|]. by split.
Qed.

Lemma spawns_elem t l : EvGo t ∈ l -> t ∈ spawns l.
Proof.
  intros H. apply list_elem_of_split in H as (l1 & l2 & ->).
  rewrite spawns_app. apply elem_of_app. right. unfold spawns. simpl. constructor.
Qed.

(** Where [main] is when it has the final report ahead or behind. *)
Lemma report_position l1 l2 n :
  future E (main E fl) = l1 ++ EvPrint (MsgAllDone n) :: l2 ->
  exists watermark files,
    loaded E fl watermark files /\ n = Z.of_nat (length files) /\
    EvWait ∈ l1 /\
    forall file, file ∈ files ->
      EvGo (go_task E fl watermark (new_mask (paramOpacity fl)) file) ∈ l1.
Proof.
  destruct (main_future_split E fl) as (pre & tail & -> & Hpre & Htail).
  intros Heq.
  assert (Hnp : forall k, EvPrint (MsgAllDone k) ∉ pre).
  { intros k H. rewrite Forall_forall in Hpre. by specialize (Hpre _ H). }
  assert (Hin : EvPrint (MsgAllDone n) ∈ pre ++ tail).
  { rewrite Heq. apply elem_of_app. right. constructor. }
  apply elem_of_app in Hin as [Hin|Hin]; [by apply Hnp in Hin|].
  destruct Htail as [[msg ->]|[->|(wm & files & Hl & ->)]].
  - by apply list_elem_of_singleton in Hin.
  - by apply list_elem_of_singleton in Hin.
  - exists wm, files. split; [done|].
    assert (Hn : n = Z.of_nat (length files)).
    { unfold batch_events in Hin. rewrite !elem_of_app in Hin.
      destruct Hin as [H|[H|H]].
      - repeat (apply elem_of_cons in H as [H|H]; [done|]). by apply elem_of_nil in H.
      - by apply list_elem_of_fmap in H as (f & ? & _).
      - apply elem_of_cons in H as [H|H]; [done|].
        apply elem_of_cons in H as [H|H]; [congruence|].
        repeat (apply elem_of_cons in H as [H|H]; [done|]). by apply elem_of_nil in H. }
    split; [done|]. subst n.
    unfold batch_events in Heq.
    match type of Heq with
    | pre ++ ?a ++ ?b ++ EvWait :: ?x :: ?c = _ =>
        assert (Heq' : (pre ++ a ++ b ++ [EvWait]) ++ x :: c = l1 ++ x :: l2)
          by (rewrite <- Heq, <- !app_assoc; reflexivity)
    end.
    clear Heq. apply unique_split in Heq' as [-> ->].
    + split.
      * rewrite !elem_of_app. do 3 right. constructor.
      * intros file Hf. rewrite !elem_of_app. right. right. left.
        apply list_elem_of_fmap. eauto.
    + rewrite !elem_of_app. intros [H|[H|[H|H]]].
      * by apply Hnp in H.
      * repeat (apply elem_of_cons in H as [H|H]; [done|]). by apply elem_of_nil in H.
      * by apply list_elem_of_fmap in H as (f & ? & _).
      * by apply list_elem_of_singleton in H.
    + intros H.
      repeat (apply elem_of_cons in H as [H|H]; [done|]). by apply elem_of_nil in H.
Qed.

(** The final report is printed only after every task has called
    [wg.Done()]: every entry was skipped with its notice or saved, or its
    task panicked. *)
Lemma report_means_done m n :
  reachable E fl m -> MsgAllDone n ∈ stdout (world m) ->
  exists watermark files,
    loaded E fl watermark files /\ n = Z.of_nat (length files) /\
    forall file, file ∈ files ->
      (eligible file = false /\ MsgSkipping (Name file) ∈ stdout (world m)) \/
      (eligible file = true /\
       is_Some (task_output E fl watermark (new_mask (paramOpacity fl)) file) /\
       is_Some (written (world m) !! target_path E fl file)) \/
      (eligible file = true /\
       task_panics E fl watermark (new_mask (paramOpacity fl)) file).
Proof.
  intros Hreach Hmsg.
  destruct (reachable_Inv E fl m Hreach)
    as (hist & past0 & threads & Hv & Hperm & Hnh & HF & Hsp & Hok & Hw & Hx).
  apply (views_stdout _ _ _ Hv) in Hmsg.
  destruct (hist_cases _ _ _ _ _ Hperm Hok Hmsg) as [Hin|(t & past & p & Hth & Hin & Hfut)].
  2:{ exfalso.
      assert (Htask : is_task E fl (t, past)).
      { eapply Forall_forall; [by eapply tasks_of_spawns|done]. }
      destruct Htask as (wm & files & file & _ & _ & Ht). simpl in Ht. subst t.
      destruct (task_event_plain E fl wm (new_mask (paramOpacity fl)) file
                  (EvPrint (MsgAllDone n))) as (_ & _ & _ & Hne).
      { rewrite Hfut. apply elem_of_app. by left. }
      by apply (Hne n). }
  apply list_elem_of_split in Hin as (l1 & l2 & Hpast0).
  rewrite Hpast0, <- app_assoc in HF. cbn [app] in HF.
  destruct (report_position _ _ _ HF) as (wm & files & Hl & Hn & Hwait & Hgo).
  exists wm, files. do 2 (split; [done|]).
  intros file Hfile.
  assert (Hall : Forall (fun th => wg_of th.2 = -1) threads).
  { apply Hw. rewrite Hpast0. apply elem_of_app. by left. }
  assert (Hsp' : go_task E fl wm (new_mask (paramOpacity fl)) file ∈ threads.*1).
  { rewrite <- Hsp. apply spawns_elem. rewrite Hpast0.
    apply elem_of_app. left. by apply Hgo. }
  apply list_elem_of_fmap in Hsp' as ([t past] & Ht & Hth). simpl in Ht. subst t.
  rewrite Forall_forall in Hall. specialize (Hall _ Hth). simpl in Hall.
  assert (Hsub : forall e, e ∈ past -> e ∈ hist).
  { intros e He. rewrite Hperm. apply elem_of_app. right.
    apply list_elem_of_In, in_concat. exists past. split.
    - apply list_elem_of_In, list_elem_of_fmap.
      by exists (go_task E fl wm (new_mask (paramOpacity fl)) file, past).
    - by apply list_elem_of_In. }
  apply list_elem_of_lookup_1 in Hth as [i Hi].
  destruct (Forall2_lookup_r _ _ _ _ _ Hok Hi) as (p & _ & Hp).
  unfold thread_ok in Hp. simpl in Hp.
  destruct (task_done E fl _ _ _ _ _ Hp Hall)
    as [[Hel Hskip]|[(Hel & data & Hout & Henc)|[Hel Hpanic]]].
  - left. split; [done|]. by apply (views_stdout _ _ _ Hv), Hsub.
  - right. left. split; [done|]. split; [by rewrite Hout|].
    apply (views_written _ _ _ Hv).
    exists (EvEncode (target_path E fl file) (Some data)). split.
    + by apply Hsub.
    + right. eauto.
  - right. right. by split.
Qed.
End Results.

Section BatchResults.
Variable E : Env.
Variable fl : Flags.

Lemma loaded_unique watermark files watermark' files' :
  loaded E fl watermark files -> loaded E fl watermark' files' ->
  watermark' = watermark /\ files' = files.
Proof.
  intros (_ & (b & Ho & Hd) & Hr) (_ & (b' & Ho' & Hd') & Hr').
  split; congruence.
Qed.

Lemma task_writes watermark mask file e fpath :
  e ∈ future E (go_task E fl watermark mask file) ->
  writes_to fpath e ->
  fpath = target_path E fl file /\ eligible file = true.
Proof.
  intros He Hw.
  pose proof (future_go_task E fl watermark mask file) as Hshape.
  inversion Hshape as [Hel Hp|data Hel Hout Hp|Hel Hpanic Hp
                      |body msg Hel Hout Hnp Hbody Hp];
    rewrite <- Hp in He.
  - repeat (apply elem_of_cons in He as [->|He];
            [by destruct Hw as [?|[? ?]]|]).
    by apply elem_of_nil in He.
  - repeat (apply elem_of_cons in He as [->|He];
            [destruct Hw as [?|[? ?]]; simplify_eq; done|]).
    by apply elem_of_nil in He.
  - repeat (apply elem_of_cons in He as [->|He];
            [by destruct Hw as [?|[? ?]]|]).
    by apply elem_of_nil in He.
  - apply elem_of_app in He as [He|He].
    + rewrite Forall_forall in Hbody.
      destruct (Hbody _ He) as [->|[[ok ->]| ->]];
        destruct Hw as [?|[? ?]]; simplify_eq; done.
    + apply list_elem_of_singleton in He as ->.
      by destruct Hw as [?|[? ?]].
Qed.

(** With a decoder that gives sized images no task panics. *)
Lemma sized_no_panic watermark mask file :
  decodes_sized E -> ~ task_panics E fl watermark mask file.
Proof.
  intros Hsz (inputfile & srcImage & _ & Hdec & Hwm).
  destruct (Hsz _ _ Hdec) as [Hdx Hdy].
  unfold watermarked in Hwm.
  match type of Hwm with
  | composite ?a ?b ?c ?d = None =>
      destruct (composite_total a b c d Hdx Hdy) as [canvas Hc]
  end.
  congruence.
Qed.

(** Every file the process writes is the output of the task of an
    eligible directory entry. *)
Lemma written_by_task m fpath :
  reachable E fl m -> is_Some (written (world m) !! fpath) ->
  exists watermark files file,
    loaded E fl watermark files /\ file ∈ files /\
    eligible file = true /\ fpath = target_path E fl file.
Proof.
  intros Hreach Hsome.
  destruct (reachable_Inv E fl m Hreach)
    as (hist & past0 & threads & Hv & Hperm & Hnh & HF & Hsp & Hok & Hw & Hx).
  pose proof (proj1 (views_written hist _ fpath Hv) Hsome) as (e & He & Hwr).
  destruct (hist_cases E _ _ _ _ _ Hperm Hok He) as [Hin|(t & past & p & Hth & Hin & Hfut)].
  - exfalso.
    destruct (main_event_plain E fl e) as (_ & _ & Hid).
    { rewrite HF. apply elem_of_app. by left. }
    apply (f_equal (fun f => f ∅ !! fpath)) in Hid. simpl in Hid.
    destruct Hwr as [->|[data ->]]; simpl in Hid;
      by rewrite lookup_insert_eq, lookup_empty in Hid.
  - assert (Htask : is_task E fl (t, past)).
    { eapply Forall_forall; [by eapply tasks_of_spawns|done]. }
    destruct Htask as (wm & files & file & Hl & Hf & Ht). simpl in Ht. subst t.
    exists wm, files, file. do 2 (split; [done|]).
    apply and_comm.
    eapply (task_writes wm (new_mask (paramOpacity fl)) file e); [|done].
    rewrite Hfut. apply elem_of_app. by left.
Qed.

(** The process exits with code 0 only after the final report. *)
Lemma exit0_reported m :
  reachable E fl m -> status m = Exited 0 ->
  exists watermark files,
    loaded E fl watermark files /\
    MsgAllDone (Z.of_nat (length files)) ∈ stdout (world m).
Proof.
  intros Hreach Hst.
  destruct (reachable_Inv E fl m Hreach)
    as (hist & past0 & threads & Hv & Hperm & Hnh & HF & Hsp & Hok & Hw & Hx).
  rewrite (Hx Hst), app_nil_r in HF.
  destruct (main_future_split E fl) as (pre & tail & HF' & Hpre & Htail).
  assert (Hsub : forall e, e ∈ tail -> e ∈ hist).
  { intros e He. rewrite Hperm. apply elem_of_app. left.
    rewrite <- HF, HF'. apply elem_of_app. by right. }
  rewrite Forall_forall in Hnh.
  destruct Htail as [[msg ->]|[->|(wm & files & Hl & ->)]].
  - assert (H : EvFatal msg ∈ hist) by (apply Hsub; constructor).
    by apply Hnh in H.
  - assert (H : EvExit 1 ∈ hist) by (apply Hsub; constructor).
    by apply Hnh in H.
  - exists wm, files. split; [done|].
    apply (views_stdout _ _ _ Hv), Hsub. unfold batch_events.
    rewrite !elem_of_app. right. right. do 2 constructor.
Qed.

(** What a run that ends normally leaves behind: the report counts the
    entries of the listing, and every file written is the output of an
    eligible entry.  When no task panics, every eligible entry has its
    output. *)
Lemma batch_result m :
  reachable E fl m -> status m = Exited 0 ->
  exists watermark files,
    loaded E fl watermark files /\
    MsgAllDone (Z.of_nat (length files)) ∈ stdout (world m) /\
    (forall n, MsgAllDone n ∈ stdout (world m) -> n = Z.of_nat (length files)) /\
    dom (written (world m))
    ⊆ list_to_set (target_path E fl <$>
                   filter (fun file => eligible file = true) files) /\
    (decodes_sized E ->
     dom (written (world m))
     = list_to_set (target_path E fl <$>
                    filter (fun file => eligible file = true) files)).
Proof.
  intros Hreach Hst.
  destruct (exit0_reported m Hreach Hst) as (wm & files & Hl & Hmsg).
  exists wm, files. do 2 (split; [done|]).
  assert (Hsub : forall fpath,
            is_Some (written (world m) !! fpath) ->
            exists file, fpath = target_path E fl file /\
                         file ∈ filter (fun file => eligible file = true) files).
  { intros fpath Hsome.
    destruct (written_by_task m fpath Hreach Hsome)
      as (wm' & files' & file & Hl' & Hf & Hel & ->).
    destruct (loaded_unique _ _ _ _ Hl Hl') as [_ ->].
    exists file. split; [done|]. by apply list_elem_of_filter. }
  split; [|split].
  - intros n Hn.
    destruct (report_means_done E fl m n Hreach Hn) as (wm' & files' & Hl' & -> & _).
    by destruct (loaded_unique _ _ _ _ Hl Hl') as [_ ->].
  - intros fpath.
    rewrite elem_of_dom, elem_of_list_to_set, list_elem_of_fmap. apply Hsub.
  - intros Hsz. apply set_eq. intros fpath.
    rewrite elem_of_dom, elem_of_list_to_set, list_elem_of_fmap. split.
    + apply Hsub.
    + intros (file & -> & Hf). apply list_elem_of_filter in Hf as [Hel Hf].
      destruct (report_means_done E fl m _ Hreach Hmsg)
        as (wm' & files' & Hl' & _ & Hall).
      destruct (loaded_unique _ _ _ _ Hl Hl') as [-> ->].
      destruct (Hall file Hf) as [[Hne _]|[(_ & _ & Hw)|[_ Hp]]];
        [congruence|done|].
      by apply sized_no_panic in Hp.
Qed.
End BatchResults.

(** ** Every run ends *)

Section Termination.
Variable E : Env.

Lemma next_cost p e k :
  next E p = Some (e, k) ->
  cost E p = S (cost E k + sum_list_with (cost E) (spawned e)).
Proof.
  destruct p; simpl; intros H; try discriminate;
    try (injection H as <- <-; simpl; lia).
  destruct (jpeg_Encode E img quality); injection H as <- <-; simpl; lia.
Qed.

Lemma sum_list_insert (f : Prog -> nat) (pool : list Prog) i p k :
  pool !! i = Some p ->
  (sum_list_with f (<[i := k]> pool) + f p = sum_list_with f pool + f k)%nat.
Proof.
  revert i. induction pool as [|q pool IH]; intros [|i] H; simplify_eq/=.
  - lia.
  - specialize (IH i H). lia.
Qed.

Lemma step_measure c m m' :
  mstep E c m = Some m' -> status m' = Running ->
  measure E m = S (measure E m').
Proof.
  unfold mstep. destruct (status m); [|done].
  destruct c as [|i].
  - destruct (next E (main_thread m)) as [[e k]|] eqn:Hn.
    + destruct (enabled e (world m)); [|done]. intros [= <-].
      unfold commit. destruct (effect e (world m)) as [w [code|]]; [done|].
      intros _. unfold measure. simpl.
      rewrite (next_cost _ _ _ Hn), sum_list_with_app. lia.
    + by intros [= <-].
  - destruct (pool m !! i) as [p|] eqn:Hp; [|done].
    destruct (next E p) as [[e k]|] eqn:Hn; [|done].
    destruct (enabled e (world m)); [|done]. intros [= <-].
    unfold commit. destruct (effect e (world m)) as [w [code|]]; [done|].
    intros _. unfold measure. simpl.
    rewrite sum_list_with_app.
    pose proof (sum_list_insert (cost E) _ _ _ k Hp) as Hs.
    rewrite (next_cost _ _ _ Hn) in Hs. lia.
Qed.

Lemma exited_stuck c m code : status m = Exited code -> mstep E c m = None.
Proof. intros H. unfold mstep. by rewrite H. Qed.

(** A schedule is no longer than the calls the program has ahead of it,
    plus the step that ends the process. *)
Lemma exec_bound sched : forall m m',
  exec E sched m = Some m' -> (length sched <= S (measure E m))%nat.
Proof.
  induction sched as [|c sched IH]; intros m m'; simpl; [lia|].
  destruct (mstep E c m) as [m1|] eqn:Hstep; [|done].
  intros Hrun. destruct (status m1) as [|code] eqn:Hst.
  - rewrite (step_measure _ _ _ Hstep Hst). specialize (IH _ _ Hrun). lia.
  - destruct sched as [|c' sched]; simpl in *; [lia|].
    by rewrite (exited_stuck c' m1 code Hst) in Hrun.
Qed.
End Termination.

Section Progress.
Variable E : Env.
Variable fl : Flags.

Lemma pool_cases (pool : list Prog) :
  Forall (fun p => future E p = []) pool \/
  exists i p e k, pool !! i = Some p /\ next E p = Some (e, k).
Proof.
  induction pool as [|p pool IH]; [by left|].
  destruct (next E p) as [[e k]|] eqn:Hn.
  - right. by exists 0%nat, p, e, k.
  - destruct IH as [IH|(i & q & e & k & Hq & Hn')].
    + left. constructor; [by apply next_None|done].
    + right. by exists (S i), q, e, k.
Qed.

Lemma all_finished pool threads :
  Forall2 (thread_ok E) pool threads ->
  Forall (fun p => future E p = []) pool ->
  Forall (is_task E fl) threads ->
  (forall e, e ∈ concat (threads.*2) -> halting e = false) ->
  wg_of (concat (threads.*2)) = - Z.of_nat (length threads).
Proof.
  induction 1 as [|p [t past] pool threads Hok _ IH]; intros Hfin Htasks Hnh; [done|].
  apply Forall_cons in Hfin as [Hp Hfin].
  apply Forall_cons in Htasks as [(wm & files & file & _ & _ & Ht) Htasks].
  simpl in Ht. subst t. unfold thread_ok in Hok. simpl in Hok.
  cbn [fmap list_fmap concat snd length] in *. rewrite wg_of_app.
  rewrite IH; [|done|done|].
  2:{ intros e He. apply Hnh, elem_of_app. by right. }
  destruct (task_progress E fl _ _ _ _ _ Hok) as [[_ Hhalt]|[Hw _]]; [|lia].
  destruct (Hhalt Hp) as (e & He & Hh).
  rewrite Hnh in Hh; [done|]. apply elem_of_app. by left.
Qed.

(** A process that has not exited can take a step: when [main] waits,
    some goroutine has a call to make. *)
Lemma progress m :
  reachable E fl m -> status m = Running ->
  exists c m', mstep E c m = Some m'.
Proof.
  intros Hreach Hst.
  destruct (reachable_Inv E fl m Hreach)
    as (hist & past0 & threads & Hv & Hperm & Hnh & HF & Hsp & Hok & Hw & Hx).
  destruct (next E (main_thread m)) as [[e k]|] eqn:Hn.
  2:{ exists MainThread. unfold mstep. rewrite Hst, Hn. eauto. }
  destruct (enabled e (world m)) eqn:Hen.
  { exists MainThread. unfold mstep. rewrite Hst, Hn, Hen. eauto. }
  assert (e = EvWait) as -> by (by destruct e).
  simpl in Hen. apply Z.eqb_neq in Hen.
  rewrite (next_future _ _ _ _ Hn) in HF.
  pose proof (tasks_of_spawns E fl _ _ _ HF Hsp) as Htasks.
  destruct (pool_cases (pool m)) as [Hall|(i & p & e' & k' & Hp & Hn')].
  - exfalso. apply Hen.
    destruct Hv as (_ & -> & _).
    rewrite (wg_of_perm _ _ Hperm), wg_of_app.
    rewrite (all_finished _ _ Hok Hall Htasks).
    2:{ intros e He. rewrite Forall_forall in Hnh. apply Hnh.
        rewrite Hperm. apply elem_of_app. by right. }
    destruct (wait_position E fl _ _ HF) as (pre & wm & files & _ & Hpre & Hpast & _).
    assert (Hlen : length threads = length files).
    { rewrite <- (length_fmap fst threads), <- Hsp, Hpast.
      rewrite !spawns_app, (spawns_quiet _ Hpre), spawns_gos. simpl.
      by rewrite length_fmap. }
    rewrite Hpast, !wg_of_app, (wg_of_quiet _ Hpre), wg_of_gos. simpl. lia.
  - exists (Goroutine i). unfold mstep. rewrite Hst, Hp, Hn'.
    destruct (Forall2_lookup_l _ _ _ _ _ Hok Hp) as ([t past] & Hth & Hokp).
    unfold thread_ok in Hokp. simpl in Hokp.
    rewrite (next_future _ _ _ _ Hn') in Hokp.
    assert (Htask : is_task E fl (t, past)).
    { eapply Forall_forall; [exact Htasks|]. by eapply list_elem_of_lookup_2. }
    destruct Htask as (wm & files & file & _ & _ & Ht). simpl in Ht.
    destruct (task_event_plain E fl wm (new_mask (paramOpacity fl)) file e')
      as (_ & Hnw & _).
    { rewrite <- Ht, Hokp. apply elem_of_app. right. constructor. }
    assert (Hen' : enabled e' (world m) = true) by (by destruct e').
    rewrite Hen'. eauto.
Qed.
End Progress.

(** ** The location flag and the run *)

Section NonInterference.
Variable E : Env.







End NonInterference.

(** ** A small run, computed *)

Example demo_status :
  status <$> run demo_env default_flags demo_schedule = Some (Exited 0).
Proof. vm_compute. reflexivity. Qed.

Example demo_stdout_last :
  (fun m => last (stdout (world m))) <$> run demo_env default_flags demo_schedule
  = Some (Some (Text "Press any key to exit")).
Proof. vm_compute. reflexivity. Qed.

Example demo_written :
  (fun m => written (world m) !! "watermarked/a.jpg") <$>
    run demo_env default_flags demo_schedule
  = Some (image.Pix <$> composite black_square white_dot (new_mask 70) (image.Pt 0 0)).
Proof. vm_compute. reflexivity. Qed.

(** ** Placement *)

Lemma watermarkOffset_right (W H w h : Z) :
  watermarkOffset "right" (sized W H) (sized w h) = image.Pt (W - w) (H - h).
Proof. reflexivity. Qed.

Lemma watermarkOffset_left (W H w h : Z) :
  watermarkOffset "left" (sized W H) (sized w h) = image.Pt 0 (H - h).
Proof. reflexivity. Qed.



(** C1.  With the default flags, location ["right"], the tasks are started
    with the watermark path as their location string.  For a 100x200 photo
    and a 40x20 watermark a task computes the offset (0,0), where the
    placement rule asks for (60,180); in a run on a 5x5 photo with a 1x1
    watermark the saved canvas has the watermark at (0,0), not at (4,4). *)
Theorem location_right_is_ignored :
  paramLocation default_flags = "right" /\
  (forall E watermark mask file,
     go_task E default_flags watermark mask file
     = task E file watermark mask "watermark.png" (paramScale default_flags)
         "photos" "watermarked" WgDone) /\
  watermarkOffset "watermark.png" (sized 100 200) (sized 40 20) = image.Pt 0 0 /\
  watermarkOffset "right" (sized 100 200) (sized 40 20) = image.Pt 60 180 /\
  (fun m => written (world m) !! "watermarked/a.jpg") <$>
    run demo_env default_flags demo_schedule
  = Some (image.Pix <$>
          composite black_square white_dot (new_mask 70) (image.Pt 0 0)) /\
  composite black_square white_dot (new_mask 70) (image.Pt 0 0)
  <> composite black_square white_dot (new_mask 70)
       (watermarkOffset "right" (sized 5 5) (sized 1 1)).
Proof.
  split; [reflexivity|]. split; [reflexivity|]. split; [reflexivity|].
  split; [reflexivity|]. split; [vm_compute; reflexivity|].
  vm_compute. discriminate.
Qed.



(** ** The batch *)

Lemma demo_decodes_sized : decodes_sized demo_env.
Proof.
  intros inputfile srcImage Hdec. injection Hdec as <-.
  unfold image.Dx, image.Dy. simpl. lia.
Qed.

(** C5.  In a run on a directory with one eligible entry and one other
    entry, every schedule that ends normally leaves exactly one output
    file and reports two files, not one; and there is such a schedule. *)
Theorem report_counts_skipped_entries :
  ioutil_ReadDir demo_env (paramSourceDir default_flags) = Some demo_files /\
  filter (fun file => eligible file = true) demo_files
  = [ {| Name := "a.jpg"; IsDir := false |} ] /\
  (status <$> run demo_env default_flags demo_schedule) = Some (Exited 0) /\
  forall m,
    reachable demo_env default_flags m -> status m = Exited 0 ->
    MsgAllDone 2 ∈ stdout (world m) /\
    (MsgAllDone 1 ∉ stdout (world m)) /\
    dom (written (world m)) = {[ "watermarked/a.jpg" ]}.
Proof.
  split; [reflexivity|]. split; [reflexivity|].
  split; [vm_compute; reflexivity|].
  intros m Hreach Hst.
  destruct (batch_result demo_env default_flags m Hreach Hst)
    as (wm & files & (_ & _ & Hdir) & Hmsg & Honly & _ & Hdom).
  injection Hdir as <-.
  split; [exact Hmsg|]. split.
  - intros H1. apply Honly in H1. discriminate H1.
  - rewrite (Hdom demo_decodes_sized). vm_compute. reflexivity.
Qed.

(** ** Tasks *)

Section TaskTheorems.
Variable E : Env.
Variable fl : Flags.



End TaskTheorems.


(** ** Failures *)

Section FailureTheorems.
Variable E : Env.

Lemma task_failure_no_output fl watermark mask file :
  task_failure E fl watermark mask file ->
  task_output E fl watermark mask file = None.
Proof.
  unfold task_output.
  destruct 1 as [Hopen|inputfile Hopen Hdec|canvas Hc Hcr|canvas Hc Henc].
  - unfold task_canvas. by rewrite Hopen.
  - unfold task_canvas. rewrite Hopen. simpl. by rewrite Hdec.
  - rewrite Hc. simpl. by rewrite Hcr.
  - rewrite Hc. simpl. rewrite Henc. by destruct (os_Create E _).
Qed.

(** A task that fails in one of these ways does not panic: it goes down
    before compositing or gets past it. *)
Lemma task_failure_no_panic fl watermark mask file :
  task_failure E fl watermark mask file ->
  ~ task_panics E fl watermark mask file.
Proof.
  intros Hfail (inputfile & srcImage & Hopen & Hdec & Hwm).
  assert (Hnone : task_canvas E fl watermark mask file = None).
  { unfold task_canvas. rewrite Hopen. simpl. rewrite Hdec. simpl. exact Hwm. }
  destruct Hfail as [Hopen'|inputfile' Hopen' Hdec'|canvas Hc _|canvas Hc _];
    congruence.
Qed.

Lemma fatal_step c m msg :
  status m = Running -> thread_at c m = Some (Fatal msg) ->
  exists m',
    mstep E c m = Some m' /\ status m' = Exited 1 /\
    stderr (world m') = stderr (world m) ++ [msg] /\
    stdout (world m') = stdout (world m) /\
    written (world m') = written (world m) /\
    forall c', mstep E c' m' = None.
Proof.
  intros Hst Hat. unfold mstep. rewrite Hst.
  destruct c as [|i]; simpl in Hat.
  - injection Hat as ->. simpl. eexists. split; [reflexivity|]. by repeat split.
  - rewrite Hat. simpl. eexists. split; [reflexivity|]. by repeat split.
Qed.

(** C9.  Each of the failures ends in [log.Fatal]: the thread that meets
    it has the fatal call as its next one.  A thread that makes the fatal
    call ends the process at once with exit code 1: the message goes to
    standard error and no thread runs afterwards.  In a run in which the
    source directory cannot be read or the task of some eligible entry
    fails to open, decode, create or encode, no schedule reaches the
    final report or the normal exit. *)
Theorem failure_is_fatal (fl : Flags) :
  (forall fname ftype k,
     os_Open E fname = None ->
     future E (openImage E fname ftype k) = [EvOpen fname; EvFatal (ErrOpen fname)]) /\
  (forall fname k inputfile,
     os_Open E fname = Some inputfile -> jpeg_Decode E inputfile = None ->
     future E (openImage E fname "jpeg" k)
     = [EvOpen fname; EvFatal (ErrDecodeJPEG fname)]) /\
  (forall fname k inputfile,
     os_Open E fname = Some inputfile -> png_Decode E inputfile = None ->
     future E (openImage E fname "png" k)
     = [EvOpen fname; EvFatal (ErrDecodePNG fname)]) /\
  (forall img pname fname k,
     os_Create E (path_Join E pname fname) = false ->
     future E (saveImage E img pname fname k)
     = [EvCreate (path_Join E pname fname) false;
        EvFatal (ErrCreate (path_Join E pname fname))]) /\
  (forall img pname fname k,
     os_Create E (path_Join E pname fname) = true ->
     jpeg_Encode E img 95 = None ->
     future E (saveImage E img pname fname k)
     = [EvCreate (path_Join E pname fname) true;
        EvEncode (path_Join E pname fname) None;
        EvFatal (ErrEncode (path_Join E pname fname))]) /\
  (forall dir k,
     ioutil_ReadDir E dir = None ->
     future E (getFiles dir k) = [EvReadDir dir; EvFatal (ErrReadDir dir)]) /\
  (forall c m msg,
     status m = Running -> thread_at c m = Some (Fatal msg) ->
     exists m',
       mstep E c m = Some m' /\ status m' = Exited 1 /\
       stderr (world m') = stderr (world m) ++ [msg] /\
       stdout (world m') = stdout (world m) /\
       written (world m') = written (world m) /\
       forall c', mstep E c' m' = None) /\
  (run_fails E fl ->
   forall m, reachable E fl m ->
     (forall n, MsgAllDone n ∉ stdout (world m)) /\ status m <> Exited 0) /\
  (forall sched m,
     run E fl sched = Some m ->
     (length sched <= S (cost E (main E fl)))%nat /\
     (status m = Running -> exists c m', mstep E c m = Some m')).
Proof.
  split; [intros fname ftype k H; unfold openImage; simpl; by rewrite H|].
  split; [intros fname k b H H'; unfold openImage; simpl; by rewrite H, H'|].
  split; [intros fname k b H H'; unfold openImage; simpl; by rewrite H, H'|].
  split; [intros img pname fname k H; unfold saveImage; simpl; by rewrite H|].
  split; [intros img pname fname k H H'; unfold saveImage; simpl;
          rewrite H; simpl; by rewrite H'|].
  split; [intros dir k H; unfold getFiles; simpl; by rewrite H|].
  split; [apply fatal_step|].
  split.
  2:{ intros sched m Hrun. split.
      - pose proof (exec_bound E _ _ _ Hrun) as Hb.
        unfold measure, start in Hb. cbn [main_thread pool sum_list_with] in Hb.
        lia.
      - apply (progress E fl). by exists sched. }
  intros Hfail m Hreach.
  assert (Hno : forall n, MsgAllDone n ∉ stdout (world m)).
  { intros n Hn.
    destruct (report_means_done E fl m n Hreach Hn) as (wm & files & Hl & _ & Hall).
    destruct Hfail as [Hdir|(wm' & files' & file & Hl' & Hf & Hel & Hfl)].
    - destruct Hl as (_ & _ & Hdir'). congruence.
    - destruct (loaded_unique _ _ _ _ _ _ Hl Hl') as [-> ->].
      destruct (Hall file Hf) as [[Hne _]|[(_ & Hout & _)|[_ Hp]]];
        [congruence| |].
      + apply task_failure_no_output in Hfl.
        rewrite Hfl in Hout. by destruct Hout.
      + by apply task_failure_no_panic in Hfl. }
  split; [exact Hno|].
  intros Hst. destruct (exit0_reported E fl m Hreach Hst) as (wm & files & _ & Hmsg).
  by apply Hno in Hmsg.
Qed.
End FailureTheorems.

(** A task that panics calls the deferred [wg.Done()] first; if the
    scheduler then lets [main] run to its end, the run ends normally with
    the report and without the output file. *)
Example panic_runs_deferred :
  future warped_env
    (go_task warped_env default_flags white_dot (new_mask 70)
       {| Name := "a.jpg"; IsDir := false |})
  = [EvOpen "photos/a.jpg"; EvDone; EvPanic] /\
  (status <$> run warped_env default_flags warped_schedule) = Some (Exited 0) /\
  ((fun m => dom (written (world m))) <$> run warped_env default_flags warped_schedule)
  = Some ∅ /\
  (status <$> run warped_env default_flags
                (replicate 27 MainThread ++ replicate 3 (Goroutine 0)))
  = Some (Exited 2).
Proof. vm_compute. repeat split. Qed.

Example broken_run_exits :
  (status <$> run broken_env default_flags broken_schedule) = Some (Exited 1) /\
  ((fun m => stderr (world m)) <$> run broken_env default_flags broken_schedule)
  = Some [ErrDecodeJPEG "photos/a.jpg"] /\
  ((fun m => dom (written (world m))) <$> run broken_env default_flags broken_schedule)
  = Some ∅.
Proof. vm_compute. repeat split. Qed.

Lemma final_reachable (E : Env) (fl : Flags) (sched : list Tid) :
  is_Some (run E fl sched) -> reachable E fl (final E fl sched).
Proof.
  intros [m Hm]. exists sched. unfold final. fold (run E fl sched).
  by rewrite Hm.
Qed.

Lemma failure_is_fatal_witness :
  (forall n, MsgAllDone n ∉ stdout (world (final broken_env default_flags broken_schedule))) /\
  status (final broken_env default_flags broken_schedule) <> Exited 0.
Proof.
  refine (proj1 (proj2 (proj2 (proj2 (proj2 (proj2 (proj2 (proj2
    (failure_is_fatal broken_env default_flags)))))))) _
    (final broken_env default_flags broken_schedule) _).
  - right. exists white_dot, demo_files, {| Name := "a.jpg"; IsDir := false |}.
    split; [|split; [|split]].
    + split; [reflexivity|]. split; [|reflexivity]. exists [1]. by split.
    + constructor.
    + reflexivity.
    + by apply (decode_fails _ _ _ _ _ [2]).
  - apply final_reachable. vm_compute. eauto.
Defined.

(** * More of the program *)

Ltac split_run :=
  repeat match goal with
         | H : ?l ++ _ :: _ = _ |- _ => destruct l; simplify_eq/=
         end.

(** ** Induction over runs *)

Section RunTools.
Variable E : Env.
Variable fl : Flags.

Lemma exec_snoc sched c : forall m m',
  exec E (sched ++ [c]) m = Some m' <->
  exists m1, exec E sched m = Some m1 /\ mstep E c m1 = Some m'.
Proof.
  induction sched as [|c0 sched IH]; intros m m'; simpl.
  - split.
    + intros H. exists m. split; [done|].
      destruct (mstep E c m); by simplify_eq.
    + intros (m1 & [= <-] & ->). done.
  - destruct (mstep E c0 m) as [m1|]; [apply IH|].
    split; [done|]. by intros (? & ? & _).
Qed.

Lemma reachable_step c m m' :
  reachable E fl m -> mstep E c m = Some m' -> reachable E fl m'.
Proof.
  intros [sched Hrun] Hstep. exists (sched ++ [c]).
  apply exec_snoc. eauto.
Qed.

(** Induction over the states of a run. *)
Lemma reachable_ind (P : Machine -> Prop) :
  P (start (main E fl)) ->
  (forall c m m', reachable E fl m -> P m -> mstep E c m = Some m' -> P m') ->
  forall m, reachable E fl m -> P m.
Proof.
  intros H0 Hstep m [sched Hrun]. revert m Hrun.
  induction sched as [|c sched IH] using rev_ind; intros m.
  - by intros [= <-].
  - intros Hrun. apply exec_snoc in Hrun as (m1 & Hrun & Hs).
    eapply Hstep; [by exists sched|by apply IH|done].
Qed.

(** The two ways of taking a step: [main] returns, or a thread makes its
    next call. *)
Lemma mstep_inv c m m' :
  mstep E c m = Some m' ->
  status m = Running /\
  ((c = MainThread /\ next E (main_thread m) = None /\
    world m' = world m /\ pool m' = pool m /\ main_thread m' = main_thread m /\
    status m' = Exited 0) \/
   exists p e k,
     thread_at c m = Some p /\ next E p = Some (e, k) /\
     enabled e (world m) = true /\ m' = commit c e k m).
Proof.
  unfold mstep. destruct (status m); [|done]. intros H. split; [done|].
  destruct c as [|i]; simpl.
  - destruct (next E (main_thread m)) as [[e k]|] eqn:Hn.
    + destruct (enabled e (world m)) eqn:Hen; [|done]. injection H as <-.
      right. by exists (main_thread m), e, k.
    + injection H as <-. by left.
  - destruct (pool m !! i) as [p|]; [|done].
    destruct (next E p) as [[e k]|] eqn:Hn; [|done].
    destruct (enabled e (world m)) eqn:Hen; [|done]. injection H as <-.
    right. by exists p, e, k.
Qed.

Lemma last_step m code :
  reachable E fl m -> status m = Exited code ->
  exists c m0, reachable E fl m0 /\ mstep E c m0 = Some m.
Proof.
  intros [sched Hrun] Hst.
  destruct sched as [|c sched _] using rev_ind.
  - injection Hrun as <-. discriminate Hst.
  - apply exec_snoc in Hrun as (m1 & Hrun & Hs).
    exists c, m1. split; [by exists sched|done].
Qed.

End RunTools.

(** ** Where [main] is *)

Section Stages.
Variable E : Env.
Variable fl : Flags.

Local Abbreviation mask := (new_mask (paramOpacity fl)).

(** Where [main] is, by the calls it has made: before the batch, starting
    goroutines, past [wg.Wait()], or at a call that ends the process. *)
Lemma main_stage past0 fut :
  future E (main E fl) = past0 ++ fut ->
  Forall (fun e => quiet e = true) past0 \/
  (exists pre watermark started rest,
     loaded E fl watermark (started ++ rest) /\
     Forall (fun e => quiet e = true) pre /\
     past0 = pre ++ [EvAdd (Z.of_nat (length (started ++ rest)))] ++
             map (fun file => EvGo (go_task E fl watermark mask file)) started /\
     fut = map (fun file => EvGo (go_task E fl watermark mask file)) rest ++
           [EvWait;
            EvPrint (MsgAllDone (Z.of_nat (length (started ++ rest))));
            EvPrint (Text rule); EvPrint (Text "");
            EvPrint (Text "Press any key to exit"); EvScanln]) \/
  (exists pre watermark files k,
     loaded E fl watermark files /\
     Forall (fun e => quiet e = true) pre /\
     past0 = pre ++ [EvAdd (Z.of_nat (length files))] ++
             map (fun file => EvGo (go_task E fl watermark mask file)) files ++
             EvWait :: k /\
     k ++ fut = [EvPrint (MsgAllDone (Z.of_nat (length files)));
                 EvPrint (Text rule); EvPrint (Text "");
                 EvPrint (Text "Press any key to exit"); EvScanln]) \/
  (fut = [] /\ exists pre h, past0 = pre ++ [h] /\ halting h = true /\
                             Forall (fun e => quiet e = true) pre).
Proof.
  destruct (main_future_split E fl) as (pre & tail & -> & Hpre & Htail).
  intros Heq. apply app_eq_inv in Heq as [(k & -> & Hk)|(k & -> & Hk)].
  - left. by apply Forall_app in Hpre as [? _].
  - destruct Htail as [[msg ->]|[->|(wm & files & Hl & ->)]].
    + destruct k as [|e [|e' k]]; simplify_eq/=.
      * left. by rewrite app_nil_r.
      * do 3 right. split; [done|]. by exists pre, (EvFatal msg).
    + destruct k as [|e [|e' k]]; simplify_eq/=.
      * left. by rewrite app_nil_r.
      * do 3 right. split; [done|]. by exists pre, (EvExit 1).
    + unfold batch_events in Hk.
      destruct k as [|e0 k]; [left; by rewrite app_nil_r|].
      destruct k as [|e1 k].
      { left. simplify_eq/=. apply Forall_app. split; [done|]. by repeat constructor. }
      cbn [app] in Hk. injection Hk as <- <- Hk.
      symmetry in Hk. apply app_eq_inv in Hk as [(k' & -> & Hk)|(k' & Hk & ->)].
      * destruct k' as [|e2 k'].
        { right. left. exists (pre ++ [EvPrint (MsgStarting (Z.of_nat (length files)))]),
            wm, files, []. rewrite !app_nil_r in *. simpl in Hk. subst fut.
          split; [done|]. split.
          - apply Forall_app. split; [done|]. by repeat constructor.
          - split; [|done]. by rewrite <- !app_assoc. }
        cbn [app] in Hk. injection Hk as <- Hk.
        right. right. left.
        exists (pre ++ [EvPrint (MsgStarting (Z.of_nat (length files)))]), wm, files, k'.
        split; [done|]. split.
        { apply Forall_app. split; [done|]. by repeat constructor. }
        split; [by rewrite <- !app_assoc|done].
      * apply fmap_app_inv in Hk as (started & rest & -> & -> & ->).
        right. left.
        exists (pre ++ [EvPrint (MsgStarting (Z.of_nat (length (started ++ rest))))]),
          wm, started, rest.
        split; [done|]. split.
        { apply Forall_app. split; [done|]. by repeat constructor. }
        split; [by rewrite <- !app_assoc|done].
Qed.

End Stages.

(** ** The counter of the [WaitGroup] *)

Section Counter.
Variable E : Env.
Variable fl : Flags.

Lemma wg_of_all_done (threads : list (Prog * list Event)) :
  Forall (fun th => wg_of th.2 = -1) threads ->
  wg_of (concat (threads.*2)) = - Z.of_nat (length threads).
Proof.
  induction 1 as [|[t past] threads H _ IH]; [done|].
  cbn [fmap list_fmap concat snd length]. rewrite wg_of_app, IH.
  simpl in H. lia.
Qed.

Lemma no_halting_prefix (hist past0 rest : list Event) pre h :
  hist ≡ₚ past0 ++ rest ->
  Forall (fun e => halting e = false) hist ->
  past0 = pre ++ [h] -> halting h = true -> False.
Proof.
  intros Hperm Hnh -> Hh. rewrite Forall_forall in Hnh.
  rewrite (Hnh h) in Hh; [done|].
  rewrite Hperm, !elem_of_app. left. right. constructor.
Qed.

(** The counter of the [WaitGroup] in a reachable state, by the stage
    [main] is at. *)
Lemma wg_stage m :
  reachable E fl m ->
  (pool m = [] /\ wg (world m) = 0 /\
   forall n, MsgAllDone n ∉ stdout (world m)) \/
  (exists watermark files,
     loaded E fl watermark files /\
     (length (pool m) <= length files)%nat /\
     Z.of_nat (length files) - Z.of_nat (length (pool m)) <= wg (world m) /\
     wg (world m) <= Z.of_nat (length files) /\
     forall n, MsgAllDone n ∉ stdout (world m)) \/
  (exists watermark files,
     loaded E fl watermark files /\
     length (pool m) = length files /\ wg (world m) = 0).
Proof.
  intros Hreach.
  destruct (reachable_Inv E fl m Hreach)
    as (hist & past0 & threads & Hv & Hperm & Hnh & HF & Hsp & Hok & Hw & Hx).
  pose proof (tasks_of_spawns E fl _ _ _ HF Hsp) as Htasks.
  pose proof (Forall2_length _ _ _ Hok) as Hlen.
  destruct (all_done E fl _ _ Hok Htasks) as [Hlow _].
  assert (Hup : wg_of (concat (threads.*2)) <= 0).
  { clear -Hok Htasks. induction Hok as [|p [t past] pool threads Hp _ IH]; [done|].
    apply Forall_cons in Htasks as [(wm & files & file & _ & _ & Ht) Htasks].
    simpl in Ht. subst t. unfold thread_ok in Hp. simpl in Hp.
    cbn [fmap list_fmap concat snd]. rewrite wg_of_app.
    specialize (IH Htasks).
    destruct (task_progress E fl _ _ _ _ _ Hp) as [[H0 _]|[H1 _]]; lia. }
  assert (Hrep : forall n, MsgAllDone n ∈ stdout (world m) ->
                           EvPrint (MsgAllDone n) ∈ past0).
  { intros n Hn. apply (views_stdout _ _ _ Hv) in Hn.
    destruct (hist_cases E _ _ _ _ _ Hperm Hok Hn)
      as [Hin|(t & past & p & Hth & Hin & Hfut)]; [done|].
    exfalso.
    assert (Htask : is_task E fl (t, past)) by (by eapply Forall_forall).
    destruct Htask as (wm & files & file & _ & _ & Ht). simpl in Ht. subst t.
    destruct (task_event_plain E fl wm (new_mask (paramOpacity fl)) file
                (EvPrint (MsgAllDone n))) as (_ & _ & _ & Hne).
    { rewrite Hfut. apply elem_of_app. by left. }
    by apply (Hne n). }
  assert (Hwg : wg (world m) = wg_of past0 + wg_of (concat (threads.*2))).
  { destruct Hv as (_ & -> & _). by rewrite (wg_of_perm _ _ Hperm), wg_of_app. }
  destruct (main_stage E fl _ _ HF)
    as [Hq|[(pre & wm & started & rest & Hl & Hpre & Hp0 & Hfut)
           |[(pre & wm & files & k & Hl & Hpre & Hp0 & Hk)
            |(_ & pre & h & Hp0 & Hh & _)]]].
  - left.
    assert (Hnil : threads = []).
    { apply (fmap_nil_inv fst). by rewrite <- Hsp, (spawns_quiet _ Hq). }
    subst threads. apply Forall2_nil_inv_r in Hok.
    split; [done|]. split.
    + rewrite Hwg, (wg_of_quiet _ Hq). done.
    + intros n Hn. apply Hrep in Hn.
      rewrite Forall_forall in Hq. by specialize (Hq _ Hn).
  - right. left. exists wm, (started ++ rest). split; [done|].
    assert (Hth : length threads = length started).
    { rewrite <- (length_fmap fst threads), <- Hsp, Hp0.
      rewrite !spawns_app, (spawns_quiet _ Hpre), spawns_gos. simpl.
      by rewrite length_fmap. }
    assert (Hw0 : wg_of past0 = Z.of_nat (length (started ++ rest))).
    { rewrite Hp0, !wg_of_app, (wg_of_quiet _ Hpre), wg_of_gos. simpl. lia. }
    rewrite Hlen, Hth, Hwg, Hw0, length_app in *.
    split; [lia|]. split; [lia|]. split; [lia|].
    intros n Hn. apply Hrep in Hn. rewrite Hp0 in Hn.
    rewrite !elem_of_app in Hn. destruct Hn as [Hn|[Hn|Hn]].
    + rewrite Forall_forall in Hpre. by specialize (Hpre _ Hn).
    + by apply list_elem_of_singleton in Hn.
    + by apply list_elem_of_fmap in Hn as (f & ? & _).
  - right. right. exists wm, files. split; [done|].
    assert (Hth : length threads = length files).
    { rewrite <- (length_fmap fst threads), <- Hsp, Hp0.
      rewrite !spawns_app, (spawns_quiet _ Hpre), spawns_gos.
      assert (Hk0 : spawns (EvWait :: k) = []).
      { assert (Hall : Forall (fun e => spawned e = []) (k ++ future E (main_thread m)))
          by (rewrite Hk; by repeat constructor).
        apply Forall_app in Hall as [Hall _]. clear -Hall.
        unfold spawns. simpl. induction Hall as [|e k He _ IH]; [done|].
        simpl. by rewrite He, IH. }
      rewrite Hk0. simpl. by rewrite app_nil_r, length_fmap. }
    split; [by rewrite Hlen|].
    assert (Hin : EvWait ∈ past0).
    { rewrite Hp0, !elem_of_app. do 3 right. constructor. }
    rewrite Hwg, (wg_of_all_done _ (Hw Hin)), Hth.
    rewrite Hp0, !wg_of_app, (wg_of_quiet _ Hpre), wg_of_gos.
    assert (Hk0 : wg_of (EvWait :: k) = 0).
    { assert (Hall : Forall (fun e => wg_delta e = 0) (k ++ future E (main_thread m)))
        by (rewrite Hk; by repeat constructor).
      apply Forall_app in Hall as [Hall _]. clear -Hall.
      simpl. induction Hall as [|e k He _ IH]; [done|].
      simpl in *. rewrite He. lia. }
    rewrite Hk0. simpl. lia.
  - exfalso. by eapply no_halting_prefix.
Qed.

End Counter.

(** ** The calls of [main] and of a task *)

Section Calls.
Variable E : Env.
Variable fl : Flags.

Local Ltac call :=
  first [ apply Forall_nil_2
        | apply Forall_cons_2;
          [simpl; first [done | tauto | by (split; congruence) | eauto 10]|] ].

Lemma run_call_main e : run_call fl e -> main_call E fl e.
Proof. destruct e as [[]| | | | | | | | | | | | | |]; simpl; tauto. Qed.

Lemma load_and_run_calls :
  Forall (run_call fl) (future E (load_and_run E fl)).
Proof.
  unfold load_and_run, openImage, getFiles, Println. simpl. do 2 call.
  destruct (os_Open E (paramWatermark fl)) as [inputfile|]; [|by repeat call].
  simpl. destruct (png_Decode E inputfile) as [watermark|]; [|by repeat call].
  simpl. call.
  destruct (ioutil_ReadDir E (paramSourceDir fl)) as [files|]; [|by repeat call].
  rewrite future_run_batch. unfold batch_events.
  apply Forall_app. split; [repeat call; simpl; lia|].
  apply Forall_app. split; [|by repeat call].
  apply Forall_forall. intros e He.
  by apply list_elem_of_fmap in He as (f & -> & _).
Qed.

Lemma main_calls : Forall (main_call E fl) (future E (main E fl)).
Proof.
  assert (Hrun : Forall (main_call E fl) (future E (load_and_run E fl))).
  { eapply Forall_impl; [apply load_and_run_calls|]. apply run_call_main. }
  unfold main, Println. simpl. do 17 call.
  destruct (os_Stat E (paramWatermark fl)); try (by repeat call);
    (destruct (gostrings.HasSuffix (paramWatermark fl) ".png"); simpl;
     [|by repeat call]);
    call;
    (destruct (os_Stat E (paramSourceDir fl)); try (by repeat call));
    call;
    (destruct (os_Stat E (paramTargetDir fl)) eqn:Htgt; simpl;
     [call; destruct (paramForce fl) eqn:Hforce; simpl;
      [call; exact Hrun|by repeat call]
     |call; exact Hrun|call; exact Hrun]).
Qed.

(** The calls of a task, run by run. *)
Lemma task_runs watermark mask file :
  (eligible file = false /\
   future E (go_task E fl watermark mask file)
   = [EvPrint (MsgSkipping (Name file)); EvDone]) \/
  (eligible file = true /\
   (future E (go_task E fl watermark mask file)
    = [EvOpen (source_path E fl file); EvFatal (ErrOpen (source_path E fl file))] \/
    future E (go_task E fl watermark mask file)
    = [EvOpen (source_path E fl file);
       EvFatal (ErrDecodeJPEG (source_path E fl file))] \/
    (task_panics E fl watermark mask file /\
     future E (go_task E fl watermark mask file)
     = [EvOpen (source_path E fl file); EvDone; EvPanic]) \/
    future E (go_task E fl watermark mask file)
    = [EvOpen (source_path E fl file); EvCreate (target_path E fl file) false;
       EvFatal (ErrCreate (target_path E fl file))] \/
    future E (go_task E fl watermark mask file)
    = [EvOpen (source_path E fl file); EvCreate (target_path E fl file) true;
       EvEncode (target_path E fl file) None;
       EvFatal (ErrEncode (target_path E fl file))] \/
    exists data,
      task_output E fl watermark mask file = Some data /\
      future E (go_task E fl watermark mask file)
      = [EvOpen (source_path E fl file); EvCreate (target_path E fl file) true;
         EvEncode (target_path E fl file) (Some data); EvDone])).
Proof.
  destruct (eligible file) eqn:Hel.
  2:{ left. split; [done|]. by rewrite task_skips. }
  right. split; [done|].
  rewrite task_proceeds by done.
  unfold openImage. simpl.
  destruct (os_Open E (source_path E fl file)) as [inputfile|] eqn:Hopen;
    [|by left].
  simpl. destruct (jpeg_Decode E inputfile) as [srcImage|] eqn:Hdec;
    [|right; by left].
  simpl.
  destruct (watermarked E srcImage watermark mask (paramWatermark fl) (paramScale fl))
    as [canvas|] eqn:Hwm; simpl.
  2:{ do 2 right. left. split; [|done]. by exists inputfile, srcImage. }
  fold (target_path E fl file).
  assert (Hout : task_output E fl watermark mask file
                 = if os_Create E (target_path E fl file)
                   then jpeg_Encode E canvas 95 else None).
  { unfold task_output, task_canvas. rewrite Hopen. simpl. rewrite Hdec. simpl.
    by rewrite Hwm. }
  destruct (os_Create E (target_path E fl file)) eqn:Hcr; simpl;
    [|do 3 right; by left].
  destruct (jpeg_Encode E canvas 95) as [data|] eqn:Henc; simpl.
  - do 5 right. by exists data.
  - do 4 right. by left.
Qed.

Lemma task_calls watermark mask file :
  Forall (task_call E fl file) (future E (go_task E fl watermark mask file)).
Proof.
  destruct (task_runs watermark mask file)
    as [[Hel ->]|[Hel [->|[->|[[_ ->]|[->|[->|(data & _ & ->)]]]]]]];
    repeat call.
Qed.

End Calls.

(** ** The outcome of the checks *)

Section Verdicts.
Variable E : Env.
Variable fl : Flags.

Lemma idle_later e l tail :
  idle e = true ->
  (exists pre, Forall (fun e => idle e = true) pre /\ l = pre ++ tail) ->
  exists pre, Forall (fun e => idle e = true) pre /\ e :: l = pre ++ tail.
Proof.
  intros He (pre & Hpre & ->). exists (e :: pre). split; [by constructor|done].
Qed.

Lemma idle_here (tail : list Event) :
  exists pre, Forall (fun e => idle e = true) pre /\ tail = pre ++ tail.
Proof. by exists []. Qed.

Local Opaque load_and_run.

Lemma main_verdict :
  exists pre,
    Forall (fun e => idle e = true) pre /\
    future E (main E fl)
    = pre ++
      match validate E fl with
      | Rejected msg => [EvFatal msg]
      | Refused => [EvExit 1]
      | Accepted mkdir =>
          (if mkdir then [EvMkdir (paramTargetDir fl)] else []) ++
          future E (load_and_run E fl)
      end.
Proof.
  unfold main, validate, Println. simpl.
  do 17 (apply idle_later; [done|]).
  destruct (os_Stat E (paramWatermark fl));
    try apply idle_here;
    (destruct (gostrings.HasSuffix (paramWatermark fl) ".png"); simpl;
     [|apply idle_here]);
    (apply idle_later; [done|]);
    (destruct (os_Stat E (paramSourceDir fl)); simpl; try apply idle_here);
    (apply idle_later; [done|]);
    (destruct (os_Stat E (paramTargetDir fl)); simpl; try apply idle_here);
    (apply idle_later; [done|]);
    (destruct (paramForce fl); simpl;
     [apply idle_later; [done|]; apply idle_here
     |do 2 (apply idle_later; [done|]); apply idle_here]).
Qed.

Local Transparent load_and_run.

End Verdicts.

(** ** Standard error and directories *)

Section Logs.
Variable E : Env.
Variable fl : Flags.

Local Abbreviation mask := (new_mask (paramOpacity fl)).

Lemma spawns_main_index i t :
  spawns (future E (main E fl)) !! i = Some t ->
  exists watermark files file,
    loaded E fl watermark files /\ files !! i = Some file /\
    t = go_task E fl watermark mask file.
Proof.
  destruct (main_future_split E fl) as (pre & tail & -> & Hpre & Htail).
  rewrite spawns_app, (spawns_quiet _ Hpre). simpl.
  destruct Htail as [[msg ->]|[->|(wm & files & Hl & ->)]]; [done|done|].
  rewrite spawns_batch. intros H.
  apply list_lookup_fmap_Some in H as (file & -> & Hf). eauto 10.
Qed.

(** The goroutine at index [i] of the pool runs the task of the entry at
    index [i] of the listing. *)
Lemma pool_thread m i p :
  reachable E fl m -> pool m !! i = Some p ->
  exists watermark files file past,
    loaded E fl watermark files /\ files !! i = Some file /\
    future E (go_task E fl watermark mask file) = past ++ future E p.
Proof.
  intros Hreach Hp.
  destruct (reachable_Inv E fl m Hreach)
    as (hist & past0 & threads & Hv & Hperm & Hnh & HF & Hsp & Hok & Hw & Hx).
  destruct (Forall2_lookup_l _ _ _ _ _ Hok Hp) as ([t past] & Hth & Hokp).
  unfold thread_ok in Hokp. simpl in Hokp.
  assert (Ht : spawns (future E (main E fl)) !! i = Some t).
  { rewrite HF, spawns_app, Hsp. apply lookup_app_l_Some.
    by rewrite list_lookup_fmap, Hth. }
  destruct (spawns_main_index _ _ Ht) as (wm & files & file & Hl & Hf & ->).
  by exists wm, files, file, past.
Qed.

Lemma next_call m c p e k :
  reachable E fl m -> thread_at c m = Some p -> next E p = Some (e, k) ->
  match c with
  | MainThread => main_call E fl e
  | Goroutine i =>
      exists watermark files file past,
        loaded E fl watermark files /\ files !! i = Some file /\
        task_call E fl file e /\
        future E (go_task E fl watermark mask file) = past ++ e :: future E k
  end.
Proof.
  intros Hreach Hat Hn. pose proof (next_future _ _ _ _ Hn) as Hfut.
  destruct c as [|i]; simpl in Hat.
  - injection Hat as <-.
    destruct (reachable_Inv E fl m Hreach)
      as (hist & past0 & threads & _ & _ & _ & HF & _).
    rewrite Hfut in HF.
    eapply Forall_forall; [apply main_calls|].
    rewrite HF. apply elem_of_app. right. constructor.
  - destruct (pool_thread m i p Hreach Hat) as (wm & files & file & past & Hl & Hf & Hp).
    rewrite Hfut in Hp. exists wm, files, file, past. do 2 (split; [done|]).
    split; [|done].
    eapply Forall_forall; [apply (task_calls E fl wm mask file)|].
    rewrite Hp. apply elem_of_app. right. constructor.
Qed.

Lemma effect_continue_log e w w' :
  effect e w = (w', None) ->
  stderr w' = stderr w /\
  made_dirs w' = made_dirs w ++ option_list (mkdir_of e).
Proof.
  destruct e as [| | | | | | | |? []|? []| |d| | |]; simpl;
    try (intros [= <-]; simpl; by rewrite ?app_nil_r);
    try discriminate.
  all: unfold wg_add;
    match goal with |- context [ if ?c then _ else _ ] => destruct c end;
    [discriminate|]; intros [= <-]; simpl; by rewrite app_nil_r.
Qed.

Lemma effect_halt_cause e w w' code :
  effect e w = (w', Some code) ->
  made_dirs w' = made_dirs w /\
  ((exists msg, e = EvFatal msg /\ code = 1 /\ stderr w' = stderr w ++ [msg]) \/
   (stderr w' = stderr w /\
    (e = EvExit code \/ (e = EvPanic /\ code = 2) \/
     (exists delta, e = EvAdd delta /\ wg w + delta < 0) \/
     (e = EvDone /\ wg w < 1)))).
Proof.
  destruct e as [| | | | | | | |? []|? []| |d| | |]; simpl;
    try discriminate;
    try (intros [= <- <-]; split; [done|]; eauto 10; fail).
  - unfold wg_add. destruct (Z.ltb_spec (wg w + d) 0); [|discriminate].
    intros [= <- <-]. split; [done|]. right. split; [done|]. eauto 10.
  - unfold wg_add. destruct (Z.ltb_spec (wg w + -1) 0); [|discriminate].
    intros [= <- <-]. split; [done|]. right. split; [done|].
    do 3 right. split; [done|lia].
Qed.

(** Nothing is logged while the process runs: a line on standard error
    is the last thing the process does. *)
Lemma running_stderr m :
  reachable E fl m -> status m = Running -> stderr (world m) = [].
Proof.
  intros Hreach. pattern m. revert m Hreach. apply reachable_ind; [done|].
  intros c m m' Hreach IH Hstep Hst'.
  apply mstep_inv in Hstep as [Hst [(_ & _ & _ & _ & _ & H0)|(p & e & k & Hat & Hn & Hen & ->)]].
  - congruence.
  - unfold commit in *.
    destruct (effect e (world m)) as [w' [code|]] eqn:Heff; [done|].
    apply effect_continue_log in Heff as [Herr _].
    destruct c; simpl; rewrite Herr; by apply IH.
Qed.

(** The directories made so far are those of the calls [main] has made. *)
Lemma dirs_made m :
  reachable E fl m ->
  exists past0,
    future E (main E fl) = past0 ++ future E (main_thread m) /\
    made_dirs (world m) = omap mkdir_of past0.
Proof.
  intros Hreach. pattern m. revert m Hreach. apply reachable_ind.
  { by exists []. }
  intros c m m' Hreach (past0 & HF & Hd) Hstep.
  pose proof Hstep as Hstep'.
  apply mstep_inv in Hstep as [Hst [(_ & _ & Hw & _ & Hm & _)|(p & e & k & Hat & Hn & Hen & ->)]].
  - exists past0. by rewrite Hm, Hw.
  - pose proof (next_call m c p e k Hreach Hat Hn) as Hcall.
    unfold commit.
    destruct (effect e (world m)) as [w' [code|]] eqn:Heff.
    + apply effect_halt_cause in Heff as [Hd' _].
      exists past0. simpl. by rewrite Hd'.
    + apply effect_continue_log in Heff as [_ Hd'].
      destruct c as [|i]; simpl in *.
      * injection Hat as <-. exists (past0 ++ [e]). simpl.
        rewrite (next_future _ _ _ _ Hn) in HF.
        split; [by rewrite <- app_assoc|].
        rewrite Hd', Hd, omap_app. simpl. by destruct (mkdir_of e).
      * exists past0. split; [done|].
        destruct Hcall as (wm & files & file & past & _ & _ & Hcall & _).
        rewrite Hd', Hd.
        destruct e; simpl in *; try done; by rewrite app_nil_r.
Qed.

End Logs.

(** ** How a process ends *)

Section Exits.
Variable E : Env.
Variable fl : Flags.

Local Abbreviation mask := (new_mask (paramOpacity fl)).

Lemma wg_sum_pending pool threads : forall i p k,
  Forall2 (thread_ok E) pool threads ->
  Forall (is_task E fl) threads ->
  pool !! i = Some p -> next E p = Some (EvDone, k) ->
  - Z.of_nat (length threads) + 1 <= wg_of (concat (threads.*2)).
Proof.
  intros i p k Hok. revert i.
  induction Hok as [|q [t past] pool threads Hq Hok IH]; intros i Htasks Hp Hn;
    [done|].
  apply Forall_cons in Htasks as [(wm & files & file & _ & _ & Ht) Htasks].
  simpl in Ht. subst t. unfold thread_ok in Hq. simpl in Hq.
  cbn [fmap list_fmap concat snd length]. rewrite wg_of_app.
  destruct i as [|i]; simpl in Hp.
  - injection Hp as ->. rewrite (next_future _ _ _ _ Hn) in Hq.
    destruct (all_done E fl _ _ Hok Htasks) as [Hlow _].
    destruct (task_progress E fl _ _ _ _ _ Hq) as [[H0 _]|[_ [H|H]]];
      [lia|done|done].
  - specialize (IH i Htasks Hp Hn).
    destruct (task_progress E fl _ _ _ _ _ Hq) as [[H0 _]|[H1 _]]; lia.
Qed.

(** A goroutine that is about to call [wg.Done()] finds the counter
    positive. *)
Lemma done_is_safe m i p k :
  reachable E fl m -> pool m !! i = Some p -> next E p = Some (EvDone, k) ->
  1 <= wg (world m).
Proof.
  intros Hreach Hp Hn.
  destruct (reachable_Inv E fl m Hreach)
    as (hist & past0 & threads & Hv & Hperm & Hnh & HF & Hsp & Hok & Hw & Hx).
  pose proof (tasks_of_spawns E fl _ _ _ HF Hsp) as Htasks.
  pose proof (wg_sum_pending _ _ _ _ _ Hok Htasks Hp Hn) as Hsum.
  assert (Hwg : wg (world m) = wg_of past0 + wg_of (concat (threads.*2))).
  { destruct Hv as (_ & -> & _). by rewrite (wg_of_perm _ _ Hperm), wg_of_app. }
  assert (Hlen : length threads = length (spawns past0))
    by (by rewrite Hsp, length_fmap).
  assert (Hne : threads <> []).
  { intros ->. apply Forall2_nil_inv_r in Hok. by rewrite Hok in Hp. }
  destruct (main_stage E fl _ _ HF)
    as [Hq|[(pre & wm & started & rest & Hl & Hpre & Hp0 & Hfut)
           |[(pre & wm & files & k0 & Hl & Hpre & Hp0 & Hk)
            |(_ & pre & h & Hp0 & Hh & _)]]].
  - rewrite (spawns_quiet _ Hq) in Hlen. by destruct threads.
  - rewrite Hp0, !spawns_app, (spawns_quiet _ Hpre), spawns_gos in Hlen.
    simpl in Hlen. rewrite length_fmap in Hlen.
    rewrite Hwg, Hp0, !wg_of_app, (wg_of_quiet _ Hpre), wg_of_gos.
    simpl. rewrite length_app. lia.
  - assert (Hin : EvWait ∈ past0).
    { rewrite Hp0, !elem_of_app. do 3 right. constructor. }
    rewrite (wg_of_all_done _ (Hw Hin)) in Hsum. lia.
  - exfalso. by eapply no_halting_prefix.
Qed.

Lemma wg_nonneg m : reachable E fl m -> 0 <= wg (world m).
Proof.
  intros Hreach.
  destruct (wg_stage E fl m Hreach)
    as [(_ & -> & _)|[(wm & files & _ & ? & ? & _)|(wm & files & _ & _ & ->)]]; lia.
Qed.

(** How a process that has exited came to its end. *)
Lemma exit_cause m code :
  reachable E fl m -> status m = Exited code ->
  (code = 0 /\ stderr (world m) = [] /\ next E (main_thread m) = None) \/
  exists c p e k,
    thread_at c m = Some p /\ next E p = Some (e, k) /\
    ((exists msg, e = EvFatal msg /\ code = 1 /\ stderr (world m) = [msg]) \/
     (e = EvExit code /\ stderr (world m) = []) \/
     (e = EvPanic /\ code = 2 /\ stderr (world m) = [])).
Proof.
  intros Hreach Hst.
  destruct (last_step E fl m code Hreach Hst) as (c & m0 & Hreach0 & Hstep).
  apply mstep_inv in Hstep
    as [Hst0 [(_ & Hn & Hw & _ & Hm & H0)|(p & e & k & Hat & Hn & Hen & ->)]].
  - left. rewrite H0 in Hst. injection Hst as <-.
    rewrite Hw, Hm. split; [done|]. split; [|done].
    by apply (running_stderr E fl).
  - right. pose proof (running_stderr E fl m0 Hreach0 Hst0) as Herr0.
    pose proof (next_call E fl m0 c p e k Hreach0 Hat Hn) as Hcall.
    unfold commit in *.
    destruct (effect e (world m0)) as [w' [code'|]] eqn:Heff;
      [|by destruct c].
    simpl in Hst. injection Hst as ->.
    exists c, p, e, k. split; [by destruct c|]. split; [done|]. simpl.
    apply effect_halt_cause in Heff
      as [_ [(msg & -> & -> & Herr)|[Herr [->|[[-> ->]|[(d & -> & Hd)|[-> Hd]]]]]]].
    + left. exists msg. by rewrite Herr, Herr0.
    + right. left. by rewrite Herr, Herr0.
    + right. right. by rewrite Herr, Herr0.
    + exfalso. pose proof (wg_nonneg m0 Hreach0).
      destruct c as [|i]; simpl in Hcall.
      * lia.
      * by destruct Hcall as (? & ? & ? & ? & _ & _ & ? & _).
    + exfalso. destruct c as [|i]; simpl in Hcall; [done|].
      simpl in Hat. pose proof (done_is_safe m0 i p k Hreach0 Hat Hn). lia.
Qed.

End Exits.

Section RunTheorems.
Variable E : Env.
Variable fl : Flags.

Local Abbreviation mask := (new_mask (paramOpacity fl)).




End RunTheorems.

(** ** Runs that stop before the batch *)

Section Validation.
Variable E : Env.
Variable fl : Flags.

Local Abbreviation mask := (new_mask (paramOpacity fl)).

Lemma omap_mkdir_none (l : list Event) :
  Forall (fun e => mkdir_of e = None) l -> omap mkdir_of l = [].
Proof. induction 1 as [|e l He _ IH]; [done|]. simpl. by rewrite He. Qed.

Lemma idle_plain e :
  idle e = true -> mkdir_of e = None /\ spawned e = [] /\ quiet e = true.
Proof. by destruct e as [[]| | | | | | | | | | | | | |]. Qed.

(** A process with no goroutine has written no file. *)
Lemma no_threads_no_files m :
  reachable E fl m -> pool m = [] -> written (world m) = ∅.
Proof.
  intros Hreach Hpool. apply map_empty. intros fpath.
  apply eq_None_not_Some. intros Hsome.
  destruct (reachable_Inv E fl m Hreach)
    as (hist & past0 & threads & Hv & Hperm & Hnh & HF & Hsp & Hok & Hw & Hx).
  rewrite Hpool in Hok. apply Forall2_nil_inv_l in Hok. subst threads.
  simpl in Hperm. rewrite app_nil_r in Hperm.
  pose proof (proj1 (views_written hist _ fpath Hv) Hsome) as (e & He & Hwr).
  rewrite Hperm in He.
  destruct (main_event_plain E fl e) as (_ & _ & Hid).
  { rewrite HF. apply elem_of_app. by left. }
  apply (f_equal (fun f => f ∅ !! fpath)) in Hid. simpl in Hid.
  destruct Hwr as [->|[data ->]]; simpl in Hid;
    by rewrite lookup_insert_eq, lookup_empty in Hid.
Qed.

Lemma quiet_plain e : quiet e = true -> spawned e = [] /\ halting e = false.
Proof. by destruct e as [[]| | | | | | | | | | | | | |]. Qed.

(** A run that ends before the batch: [main] makes quiet calls and then
    the call that ends the process. *)
Lemma dead_run pre h m :
  future E (main E fl) = pre ++ [h] ->
  Forall (fun e => quiet e = true) pre ->
  (exists msg, h = EvFatal msg) \/ h = EvExit 1 ->
  reachable E fl m ->
  pool m = [] /\ written (world m) = ∅ /\
  made_dirs (world m) `prefix_of` omap mkdir_of pre /\
  (forall n, MsgAllDone n ∉ stdout (world m)) /\
  (status m = Running -> stderr (world m) = []) /\
  (forall code, status m = Exited code ->
     code = 1 /\ stderr (world m) = option_list (fatal_of h) /\
     made_dirs (world m) = omap mkdir_of pre).
Proof.
  intros HF Hpre Hh' Hreach.
  assert (Hh : halting h = true) by (by destruct Hh' as [[msg ->]| ->]).
  assert (Hhm : mkdir_of h = None) by (by destruct Hh' as [[msg ->]| ->]).
  assert (Hnot : h ∉ pre).
  { intros Hin. rewrite Forall_forall in Hpre.
    destruct (quiet_plain _ (Hpre _ Hin)). congruence. }
  assert (Hplain : Forall (fun e => spawned e = []) (future E (main E fl))).
  { rewrite HF. apply Forall_app. split.
    - eapply Forall_impl; [exact Hpre|]. intros e He.
      by destruct (quiet_plain e He).
    - constructor; [|constructor]. by destruct h. }
  destruct (reachable_Inv E fl m Hreach)
    as (hist & past0 & threads & Hv & Hperm & Hnh & HF0 & Hsp & Hok & Hw & Hx).
  assert (Hp0 : Forall (fun e => spawned e = []) past0).
  { rewrite HF0 in Hplain. by apply Forall_app in Hplain as [? _]. }
  assert (Hthreads : threads = []).
  { apply (fmap_nil_inv fst). rewrite <- Hsp. clear -Hp0.
    induction Hp0 as [|e l He _ IH]; [done|].
    unfold spawns in *. simpl. by rewrite He, IH. }
  subst threads. apply Forall2_nil_inv_r in Hok.
  destruct (dirs_made E fl m Hreach) as (past1 & HF1 & Hd).
  split; [done|]. split; [by apply no_threads_no_files|]. split.
  { exists (omap mkdir_of (future E (main_thread m))).
    rewrite Hd, <- omap_app, <- HF1, HF, omap_app. simpl.
    by rewrite Hhm, app_nil_r. }
  split.
  { intros n Hn. apply (views_stdout _ _ _ Hv) in Hn.
    simpl in Hperm. rewrite app_nil_r in Hperm. rewrite Hperm in Hn.
    assert (Hin : EvPrint (MsgAllDone n) ∈ pre ++ [h]).
    { rewrite <- HF, HF0. apply elem_of_app. by left. }
    apply elem_of_app in Hin as [Hin|Hin].
    - rewrite Forall_forall in Hpre. by specialize (Hpre _ Hin).
    - apply list_elem_of_singleton in Hin. by subst h. }
  split; [by apply (running_stderr E fl)|].
  intros code Hst.
  assert (Hne : code <> 0).
  { intros ->. specialize (Hx Hst). rewrite Hx, app_nil_r in HF0.
    apply (no_halting_prefix hist past0 (concat ([] : list (Prog * list Event)).*2) pre h);
      [done|done|by rewrite <- HF0, HF|done]. }
  destruct (exit_cause E fl m code Hreach Hst)
    as [(-> & _)|(c & p & e & k & Hat & Hn & Hcase)]; [done|].
  destruct c as [|i]; simpl in Hat; [|by rewrite Hok in Hat].
  injection Hat as <-.
  pose proof (next_future _ _ _ _ Hn) as Hnext.
  assert (He : halting e = true).
  { by destruct Hcase as [(msg & -> & _)|[[-> _]|(-> & _)]]. }
  assert (e = h) as ->.
  { rewrite Hnext, HF in HF0.
    apply app_eq_inv in HF0 as [(l & -> & Hl)|(l & -> & Hl)].
    - destruct l as [|x l]; simplify_eq/=; [done|].
      exfalso. apply Forall_app in Hpre as [_ Hpre].
      apply Forall_cons in Hpre as [Hx' _].
      destruct (quiet_plain _ Hx'). congruence.
    - destruct l as [|x l]; simplify_eq/=; [done|]. by destruct l. }
  assert (Hp1 : past1 = pre).
  { rewrite Hnext, HF in HF1.
    by apply unique_split in HF1 as [-> _]; [| |apply not_elem_of_nil]. }
  rewrite Hd, Hp1.
  destruct Hcase as [(msg & -> & -> & Herr)|[[-> Herr]|(-> & _)]].
  - done.
  - destruct Hh' as [[msg Hm]|Hm]; [done|]. by injection Hm as ->.
  - by destruct Hh' as [[msg Hm]|Hm].
Qed.

Lemma idle_quiet (pre : list Event) :
  Forall (fun e => idle e = true) pre ->
  Forall (fun e => quiet e = true) pre /\ omap mkdir_of pre = [].
Proof.
  intros Hpre. split.
  - eapply Forall_impl; [exact Hpre|]. intros e He. by destruct (idle_plain e He) as (_ & _ & ?).
  - apply omap_mkdir_none. eapply Forall_impl; [exact Hpre|].
    intros e He. by destruct (idle_plain e He).
Qed.

End Validation.

Section Checks.
Variable E : Env.
Variable fl : Flags.

Lemma failed_check_verdict msg :
  failed_check E fl msg -> validate E fl = Rejected msg.
Proof.
  unfold validate. destruct 1 as [H|H1 H2|H1 H2 H3].
  - by rewrite H.
  - rewrite H2. by destruct (os_Stat E (paramWatermark fl)).
  - rewrite H2, H3. by destruct (os_Stat E (paramWatermark fl)).
Qed.

Lemma refusal_verdict :
  os_Stat E (paramTargetDir fl) = StatOk -> paramForce fl = false ->
  validate E fl = Refused \/ exists msg, validate E fl = Rejected msg.
Proof.
  intros Ht Hf. unfold validate. rewrite Ht, Hf.
  destruct (os_Stat E (paramWatermark fl)),
    (gostrings.HasSuffix (paramWatermark fl) ".png"),
    (os_Stat E (paramSourceDir fl)); simpl; eauto.
Qed.

Lemma accepted_verdict mkdir :
  validate E fl = Accepted mkdir ->
  (mkdir = true /\ os_Stat E (paramTargetDir fl) <> StatOk) \/
  (mkdir = false /\ os_Stat E (paramTargetDir fl) = StatOk /\
   paramForce fl = true).
Proof.
  unfold validate.
  destruct (os_Stat E (paramWatermark fl)),
    (gostrings.HasSuffix (paramWatermark fl) ".png"),
    (os_Stat E (paramSourceDir fl)),
    (os_Stat E (paramTargetDir fl)) eqn:Ht,
    (paramForce fl) eqn:Hf; simpl; intros H; simplify_eq;
    first [by right | left; split; [done|congruence]].
Qed.

(** X2.  When the watermark file does not exist, or its name does not end
    in [.png], or the source directory does not exist, the run stops at
    that check: no directory is made, no goroutine is started, no file is
    written and the final report is not printed; the process exits with
    code 1 and the error of the first failed check as its only line on
    standard error. *)
Theorem failed_check_stops_run m msg :
  failed_check E fl msg -> reachable E fl m ->
  pool m = [] /\ written (world m) = ∅ /\ made_dirs (world m) = [] /\
  (forall n, MsgAllDone n ∉ stdout (world m)) /\
  (status m = Running -> stderr (world m) = []) /\
  (forall code, status m = Exited code ->
     code = 1 /\ stderr (world m) = [msg]).
Proof.
  intros Hfail Hreach.
  destruct (main_verdict E fl) as (pre & Hpre & HF).
  rewrite (failed_check_verdict _ Hfail) in HF.
  destruct (idle_quiet pre Hpre) as [Hq Hnil].
  destruct (dead_run E fl pre (EvFatal msg) m HF Hq) as (? & ? & Hd & ? & ? & Hc);
    [eauto|done|].
  rewrite Hnil in Hd. apply prefix_nil_inv in Hd.
  do 5 (split; [done|]). intros code Hst. by destruct (Hc code Hst) as (? & ? & _).
Qed.

(** X1.  When the target directory exists and [--force] is not given, no
    run writes a file, makes a directory or starts a goroutine, and the
    process does not end normally: it exits with code 1. *)
Theorem no_overwrite_without_force m :
  os_Stat E (paramTargetDir fl) = StatOk -> paramForce fl = false ->
  reachable E fl m ->
  written (world m) = ∅ /\ made_dirs (world m) = [] /\ pool m = [] /\
  (forall n, MsgAllDone n ∉ stdout (world m)) /\
  (forall code, status m = Exited code -> code = 1).
Proof.
  intros Ht Hf Hreach.
  destruct (main_verdict E fl) as (pre & Hpre & HF).
  destruct (idle_quiet pre Hpre) as [Hq Hnil].
  destruct (refusal_verdict Ht Hf) as [Hv|[msg Hv]]; rewrite Hv in HF.
  - destruct (dead_run E fl pre (EvExit 1) m HF Hq) as (? & ? & Hd & ? & _ & Hc);
      [by right|done|].
    rewrite Hnil in Hd. apply prefix_nil_inv in Hd.
    do 4 (split; [done|]). intros code Hst. by destruct (Hc code Hst).
  - destruct (dead_run E fl pre (EvFatal msg) m HF Hq) as (? & ? & Hd & ? & _ & Hc);
      [eauto|done|].
    rewrite Hnil in Hd. apply prefix_nil_inv in Hd.
    do 4 (split; [done|]). intros code Hst. by destruct (Hc code Hst).
Qed.

Lemma main_dirs :
  omap mkdir_of (future E (main E fl))
  = match validate E fl with
    | Accepted true => [paramTargetDir fl]
    | _ => []
    end.
Proof.
  destruct (main_verdict E fl) as (pre & Hpre & ->).
  rewrite omap_app.
  assert (Hp : omap mkdir_of pre = []).
  { apply omap_mkdir_none. eapply Forall_impl; [exact Hpre|].
    intros e He. by destruct (idle_plain e He). }
  assert (Hr : omap mkdir_of (future E (load_and_run E fl)) = []).
  { apply omap_mkdir_none. eapply Forall_impl; [apply load_and_run_calls|].
    intros e He. by destruct e as [[]| | | | | | | | | | | | | |]. }
  rewrite Hp.
  destruct (validate E fl) as [msg| |[|]]; [done|done| |];
    rewrite omap_app, Hr; done.
Qed.

(** Once a goroutine has been started, [main] has no directory left to
    make. *)
Lemma after_spawn_no_mkdir m :
  reachable E fl m -> pool m <> [] ->
  omap mkdir_of (future E (main_thread m)) = [].
Proof.
  intros Hreach Hpool.
  destruct (reachable_Inv E fl m Hreach)
    as (hist & past0 & threads & Hv & Hperm & Hnh & HF & Hsp & Hok & Hw & Hx).
  destruct (main_stage E fl _ _ HF)
    as [Hq|[(pre & wm & started & rest & Hl & Hpre & Hp0 & ->)
           |[(pre & wm & files & k & Hl & Hpre & Hp0 & Hk)
            |(-> & _)]]]; [| | |done].
  - exfalso. apply Hpool.
    assert (Hnil : threads = []).
    { apply (fmap_nil_inv fst). by rewrite <- Hsp, (spawns_quiet _ Hq). }
    subst threads. by apply Forall2_nil_inv_r in Hok.
  - apply omap_mkdir_none, Forall_app. split; [|by repeat constructor].
    apply Forall_forall. intros e He.
    by apply list_elem_of_fmap in He as (f & -> & _).
  - assert (Hall : Forall (fun e => mkdir_of e = None)
                     (k ++ future E (main_thread m)))
      by (rewrite Hk; by repeat constructor).
    apply Forall_app in Hall as [_ Hall]. by apply omap_mkdir_none.
Qed.

(** X3.  The only [os.Mkdir] of a run is that of the target directory, at
    most once, and only when [os.Stat] on it did not succeed.  By the time
    the first goroutine is started (and so before any file is written)
    [os.Mkdir] has been called on the target directory, or the directory
    existed and [--force] was given. *)
Theorem target_dir_before_work m :
  reachable E fl m ->
  (made_dirs (world m) = [] \/
   (made_dirs (world m) = [paramTargetDir fl] /\
    os_Stat E (paramTargetDir fl) <> StatOk)) /\
  (written (world m) <> ∅ -> pool m <> []) /\
  (pool m <> [] ->
   (os_Stat E (paramTargetDir fl) = StatOk ->
    paramForce fl = true /\ made_dirs (world m) = []) /\
   (os_Stat E (paramTargetDir fl) <> StatOk ->
    made_dirs (world m) = [paramTargetDir fl])).
Proof.
  intros Hreach.
  destruct (dirs_made E fl m Hreach) as (past0 & HF & Hd).
  pose proof main_dirs as Hall. rewrite HF, omap_app, <- Hd in Hall.
  split; [|split].
  - destruct (validate E fl) as [msg| |[|]] eqn:Hv;
      try (left; by destruct (made_dirs (world m))).
    destruct (accepted_verdict _ Hv) as [[_ Hne]|[? _]]; [|done].
    destruct (made_dirs (world m)) as [|d [|d' l]]; simplify_eq/=; eauto.
  - intros Hw Hp. by apply Hw, (no_threads_no_files E fl).
  - intros Hpool. rewrite (after_spawn_no_mkdir m Hreach Hpool), app_nil_r in Hall.
    destruct (validate E fl) as [msg| |mkdir] eqn:Hv.
    + exfalso. destruct (main_verdict E fl) as (pre & Hpre & HF').
      rewrite Hv in HF'. destruct (idle_quiet pre Hpre) as [Hq _].
      destruct (dead_run E fl pre (EvFatal msg) m HF' Hq) as (? & _); eauto.
    + exfalso. destruct (main_verdict E fl) as (pre & Hpre & HF').
      rewrite Hv in HF'. destruct (idle_quiet pre Hpre) as [Hq _].
      destruct (dead_run E fl pre (EvExit 1) m HF' Hq) as (? & _); eauto.
    + destruct (accepted_verdict _ Hv) as [[-> Hne]|(-> & Hok & Hforce)].
      * split; [done|]. by intros _.
      * split; [done|]. by intros Hne.
Qed.

End Checks.

(** ** The files written *)

Section Files.
Variable E : Env.
Variable fl : Flags.

Local Abbreviation mask := (new_mask (paramOpacity fl)).

Lemma pool_other (pool extra : list Prog) i k j q :
  pool !! j = Some q -> j <> i -> (<[i := k]> pool ++ extra) !! j = Some q.
Proof.
  intros Hj Hne. apply lookup_app_l_Some.
  by rewrite list_lookup_insert_ne.
Qed.

Lemma pool_same (pool extra : list Prog) i p k :
  pool !! i = Some p -> (<[i := k]> pool ++ extra) !! i = Some k.
Proof.
  intros Hi. apply lookup_app_l_Some.
  apply list_lookup_insert_eq. by eapply lookup_lt_Some.
Qed.

(** What follows the creation of the output file in a task. *)
Lemma after_create watermark (file : FileInfo) past fpath rest :
  future E (go_task E fl watermark mask file)
  = past ++ EvCreate fpath true :: rest ->
  exists data, EvEncode fpath data ∈ rest.
Proof.
  intros Heq.
  destruct (task_runs E fl watermark mask file)
    as [[Hel H]|[Hel [H|[H|[[Hp H]|[H|[H|(data & _ & H)]]]]]]];
    rewrite H in Heq; symmetry in Heq; split_run.
  - exists None. constructor.
  - exists (Some data). constructor.
Qed.

Lemma after_failed_encode watermark (file : FileInfo) past fpath rest :
  future E (go_task E fl watermark mask file)
  = past ++ EvEncode fpath None :: rest ->
  EvFatal (ErrEncode fpath) ∈ rest.
Proof.
  intros Heq.
  destruct (task_runs E fl watermark mask file)
    as [[Hel H]|[Hel [H|[H|[[Hp H]|[H|[H|(data & _ & H)]]]]]]];
    rewrite H in Heq; symmetry in Heq; split_run.
  constructor.
Qed.

Lemma encoded_output watermark (file : FileInfo) past fpath data rest :
  future E (go_task E fl watermark mask file)
  = past ++ EvEncode fpath (Some data) :: rest ->
  task_output E fl watermark mask file = Some data.
Proof.
  intros Heq.
  destruct (task_runs E fl watermark mask file)
    as [[Hel H]|[Hel [H|[H|[[Hp H]|[H|[H|(data' & Hout & H)]]]]]]];
    rewrite H in Heq; symmetry in Heq; split_run.
  done.
Qed.

Lemma files_step_task m i p e k w' :
  reachable E fl m -> files_ok E fl m ->
  pool m !! i = Some p -> next E p = Some (e, k) ->
  effect e (world m) = (w', None) ->
  files_ok E fl {| main_thread := main_thread m;
                   pool := <[i := k]> (pool m) ++ spawned e;
                   world := w'; status := Running |}.
Proof.
  intros Hreach Hok Hp Hn Heff fpath b. simpl.
  destruct (next_call E fl m (Goroutine i) p e k Hreach Hp Hn)
    as (wm & files & file & past & Hl & Hf & Hcall & Hfut).
  pose proof (list_elem_of_lookup_2 _ _ _ Hf) as Hin.
  pose proof (next_future _ _ _ _ Hn) as Hnext.
  apply effect_continue in Heff as (Hnh & _ & _ & ->).
  assert (Hkeep : forall b0,
            written (world m) !! fpath = Some b0 ->
            (forall d, e <> EvEncode fpath d) ->
            exists watermark files file,
              loaded E fl watermark files /\ file ∈ files /\ eligible file = true /\
              fpath = target_path E fl file /\
              (task_output E fl watermark mask file = Some b0 \/
               (b0 = [] /\ pending E (<[i := k]> (pool m) ++ spawned e) fpath))).
  { intros b0 Hb0 Hne.
    destruct (Hok fpath b0 Hb0) as (wm0 & files0 & file0 & Hl0 & Hf0 & Hel0 & Hpath & Hcase).
    exists wm0, files0, file0. do 4 (split; [done|]).
    destruct Hcase as [Hout|[-> (j & q & Hj & Hq)]]; [by left|right].
    split; [done|]. unfold pending.
    destruct (decide (j = i)) as [->|Hji].
    - rewrite Hp in Hj. injection Hj as <-. rewrite Hnext in Hq.
      exists i, k. split; [by eapply pool_same|].
      destruct Hq as [[d Hd]|Hd].
      + apply elem_of_cons in Hd as [Hd|Hd]; [by destruct (Hne d)|eauto].
      + apply elem_of_cons in Hd as [Hd|Hd]; [by subst e|by right].
    - exists j, q. split; [by apply pool_other|done]. }
  unfold pending in *. simpl in *.
  destruct e as [| | | | | | | |fp [|]|fp [data|]| | | | |]; simpl in *;
    try (intros Hb; by apply Hkeep).
  - destruct (decide (fp = fpath)) as [->|Hne].
    + rewrite lookup_insert_eq. intros [= <-].
      destruct Hcall as [-> Hel].
      exists wm, files, file. do 4 (split; [done|]). right. split; [done|].
      exists i, k. split; [by eapply pool_same|]. left.
      by eapply after_create.
    + rewrite lookup_insert_ne by done. intros Hb. by apply Hkeep.
  - destruct (decide (fp = fpath)) as [->|Hne].
    + rewrite lookup_insert_eq. intros [= <-].
      destruct Hcall as [-> Hel].
      exists wm, files, file. do 4 (split; [done|]). left.
      by eapply encoded_output.
    + rewrite lookup_insert_ne by done. intros Hb. apply Hkeep; [done|].
      intros d [= ?]. done.
  - intros Hb.
    destruct (Hok fpath b Hb) as (wm0 & files0 & file0 & Hl0 & Hf0 & Hel0 & Hpath & Hcase).
    exists wm0, files0, file0. do 4 (split; [done|]).
    destruct Hcase as [Hout|[-> (j & q & Hj & Hq)]]; [by left|right].
    split; [done|].
    destruct (decide (j = i)) as [->|Hji].
    + rewrite Hp in Hj. injection Hj as <-. rewrite Hnext in Hq.
      exists i, k. split; [by eapply pool_same|].
      destruct Hq as [[d Hd]|Hd].
      * apply elem_of_cons in Hd as [Hd|Hd]; [|eauto].
        injection Hd as -> ->. right. by eapply after_failed_encode.
      * apply elem_of_cons in Hd as [Hd|Hd]; [done|by right].
    + exists j, q. split; [by apply pool_other|done].
Qed.

End Files.

Section Outputs.
Variable E : Env.
Variable fl : Flags.

Local Abbreviation mask := (new_mask (paramOpacity fl)).

Lemma files_inv m : reachable E fl m -> files_ok E fl m.
Proof.
  intros Hreach. pattern m. revert m Hreach. apply reachable_ind.
  { intros fpath b H. simpl in H. by rewrite lookup_empty in H. }
  intros c m m' Hreach IH Hstep.
  apply mstep_inv in Hstep
    as [Hst [(_ & _ & Hw & Hpool & _ & _)|(p & e & k & Hat & Hn & Hen & ->)]].
  { intros fpath b. rewrite Hw, Hpool. apply IH. }
  unfold commit. destruct (effect e (world m)) as [w' [code|]] eqn:Heff.
  { apply effect_halt in Heff as (_ & _ & Hwr & _).
    intros fpath b. simpl. rewrite Hwr. apply IH. }
  destruct c as [|i]; simpl in Hat.
  - injection Hat as <-.
    pose proof (next_call E fl m MainThread _ e k Hreach eq_refl Hn) as Hcall.
    simpl in Hcall.
    apply effect_continue in Heff as (_ & _ & _ & Hwr).
    assert (Hid : written w' = written (world m)).
    { rewrite Hwr. by destruct e as [| | | | | | | |? []|? []| | | | |]. }
    intros fpath b. simpl. rewrite Hid. intros Hb.
    destruct (IH fpath b Hb) as (wm & files & file & Hl & Hf & Hel & Hpath & Hcase).
    exists wm, files, file. do 4 (split; [done|]).
    destruct Hcase as [Hout|[-> (j & q & Hj & Hq)]]; [by left|right].
    split; [done|]. exists j, q. split; [by apply lookup_app_l_Some|done].
  - by apply (files_step_task E fl m i p).
Qed.

Lemma task_output_name watermark (f g : FileInfo) :
  Name f = Name g ->
  task_output E fl watermark mask f = task_output E fl watermark mask g.
Proof.
  intros H. unfold task_output, task_canvas, source_path, target_path.
  by rewrite H.
Qed.

Lemma task_panics_no_output watermark (file : FileInfo) :
  task_panics E fl watermark mask file ->
  task_output E fl watermark mask file = None.
Proof.
  intros (inputfile & srcImage & Hopen & Hdec & Hwm).
  unfold task_output, task_canvas. rewrite Hopen. simpl. rewrite Hdec. simpl.
  by rewrite Hwm.
Qed.

(** After the final report every goroutine has returned or is about to
    go down with a panic. *)
Lemma after_report_threads m n i p :
  reachable E fl m -> MsgAllDone n ∈ stdout (world m) ->
  pool m !! i = Some p ->
  future E p = [] \/ future E p = [EvPanic].
Proof.
  intros Hreach Hmsg Hp.
  destruct (reachable_Inv E fl m Hreach)
    as (hist & past0 & threads & Hv & Hperm & Hnh & HF & Hsp & Hok & Hw & Hx).
  pose proof (tasks_of_spawns E fl _ _ _ HF Hsp) as Htasks.
  apply (views_stdout _ _ _ Hv) in Hmsg.
  destruct (hist_cases E _ _ _ _ _ Hperm Hok Hmsg)
    as [Hin|(t & past & q & Hth & Hin & Hfut)].
  2:{ exfalso.
      assert (Htask : is_task E fl (t, past)) by (by eapply Forall_forall).
      destruct Htask as (wm & files & file & _ & _ & Ht). simpl in Ht. subst t.
      destruct (task_event_plain E fl wm mask file (EvPrint (MsgAllDone n)))
        as (_ & _ & _ & Hne).
      { rewrite Hfut. apply elem_of_app. by left. }
      by apply (Hne n). }
  apply list_elem_of_split in Hin as (l1 & l2 & Hpast0).
  rewrite Hpast0, <- app_assoc in HF. cbn [app] in HF.
  destruct (report_position E fl _ _ _ HF) as (wm & files & Hl & Hn & Hwait & Hgo).
  assert (Hall : Forall (fun th => wg_of th.2 = -1) threads).
  { apply Hw. rewrite Hpast0. apply elem_of_app. by left. }
  destruct (Forall2_lookup_l _ _ _ _ _ Hok Hp) as ([t past] & Hth & Hokp).
  unfold thread_ok in Hokp. simpl in Hokp.
  pose proof (list_elem_of_lookup_2 _ _ _ Hth) as Hth'.
  rewrite Forall_forall in Hall. specialize (Hall _ Hth'). simpl in Hall.
  rewrite Forall_forall in Htasks.
  destruct (Htasks _ Hth') as (wm' & files' & file & _ & _ & Ht). simpl in Ht.
  subst t.
  destruct (task_progress E fl _ _ _ _ _ Hokp) as [[H0 _]|[_ H]]; [lia|done].
Qed.


(** The files a normal run leaves behind, by path. *)
Lemma done_reported m :
  reachable E fl m -> status m = Exited 0 \/ reported m -> reported m.
Proof.
  intros Hreach [Hst|H]; [|done].
  destruct (exit0_reported E fl m Hreach Hst) as (wm & files & _ & Hmsg).
  by eexists.
Qed.

Lemma final_lookup m watermark files fpath b :
  reachable E fl m -> status m = Exited 0 \/ reported m ->
  loaded E fl watermark files ->
  (forall f g, f ∈ files -> g ∈ files ->
     target_path E fl f = target_path E fl g -> Name f = Name g) ->
  written (world m) !! fpath = Some b <->
  exists file, file ∈ files /\ eligible file = true /\
               fpath = target_path E fl file /\
               task_output E fl watermark mask file = Some b.
Proof.
  intros Hreach Hst Hl Hinj.
  destruct (done_reported m Hreach Hst) as [n Hmsg].
  assert (Hfile : forall fpath b,
            written (world m) !! fpath = Some b ->
            exists file, file ∈ files /\ eligible file = true /\
                         fpath = target_path E fl file /\
                         task_output E fl watermark mask file = Some b).
  { clear fpath b. intros fpath b Hb.
    destruct (files_inv m Hreach fpath b Hb)
      as (wm0 & files0 & file0 & Hl0 & Hf0 & Hel0 & Hpath & Hcase).
    destruct (loaded_unique E fl _ _ _ _ Hl Hl0) as [-> ->].
    exists file0. do 3 (split; [done|]).
    destruct Hcase as [Hout|[-> (j & q & Hj & Hq)]]; [done|].
    exfalso.
    destruct (after_report_threads m _ j q Hreach Hmsg Hj) as [Hnil|Hp];
      rewrite ?Hnil, ?Hp in Hq.
    - destruct Hq as [[d Hd]|Hd]; by apply elem_of_nil in Hd.
    - destruct Hq as [[d Hd]|Hd]; by apply list_elem_of_singleton in Hd. }
  split; [apply Hfile|].
  intros (file & Hf & Hel & -> & Hout).
  destruct (report_means_done E fl m _ Hreach Hmsg)
    as (wm0 & files0 & Hl0 & _ & Hall).
  destruct (loaded_unique E fl _ _ _ _ Hl Hl0) as [-> ->].
  destruct (Hall file Hf) as [[Hne _]|[(_ & _ & [b' Hb'])|[_ Hp]]].
  - congruence.
  - destruct (Hfile _ _ Hb') as (file0 & Hf0 & Hel0 & Hpath & Hout0).
    rewrite (task_output_name watermark file file0) in Hout by (by apply Hinj).
    congruence.
  - rewrite (task_panics_no_output _ _ Hp) in Hout. done.
Qed.

(** X5.  Once the final report is printed, and so whenever a run has ended
    normally, the work is complete: when distinct names of the listing
    give distinct output paths, the files written are exactly the outputs
    of the eligible entries.  The output file of each holds the JPEG
    encoding (quality 95) of its composited canvas, an entry whose task
    panicked has no output file, and no other file is written. *)
Theorem final_outputs m watermark files :
  reachable E fl m -> status m = Exited 0 \/ reported m ->
  loaded E fl watermark files ->
  (forall f g, f ∈ files -> g ∈ files ->
     target_path E fl f = target_path E fl g -> Name f = Name g) ->
  (forall file, file ∈ files -> eligible file = true ->
     written (world m) !! target_path E fl file
     = task_output E fl watermark mask file) /\
  (forall fpath, is_Some (written (world m) !! fpath) ->
     exists file, file ∈ files /\ eligible file = true /\
                  fpath = target_path E fl file).
Proof.
  intros Hreach Hst Hl Hinj. split.
  - intros file Hf Hel.
    destruct (task_output E fl watermark mask file) as [b|] eqn:Hout.
    + apply (final_lookup m watermark files _ b Hreach Hst Hl Hinj).
      by exists file.
    + apply eq_None_not_Some. intros [b Hb].
      apply (final_lookup m watermark files _ b Hreach Hst Hl Hinj) in Hb
        as (file0 & Hf0 & Hel0 & Hpath & Hout0).
      rewrite (task_output_name watermark file file0) in Hout
        by (by apply Hinj).
      congruence.
  - intros fpath [b Hb].
    apply (final_lookup m watermark files _ b Hreach Hst Hl Hinj) in Hb
      as (file0 & Hf0 & Hel0 & Hpath & _).
    eauto.
Qed.

(** X6.  A skip notice is printed only for an entry of the listing whose
    name ends neither in [.jpg] nor in [.jpeg], under that entry's name;
    and once the final report is printed, so whenever the run has ended
    normally, every such entry has its notice. *)
Theorem skip_notices m :
  reachable E fl m ->
  (forall name, MsgSkipping name ∈ stdout (world m) ->
     exists watermark files file,
       loaded E fl watermark files /\ file ∈ files /\
       Name file = name /\ eligible file = false) /\
  (status m = Exited 0 \/ reported m ->
   forall watermark files file,
     loaded E fl watermark files -> file ∈ files -> eligible file = false ->
     MsgSkipping (Name file) ∈ stdout (world m)).
Proof.
  intros Hreach. split.
  - intros name Hmsg.
    destruct (reachable_Inv E fl m Hreach)
      as (hist & past0 & threads & Hv & Hperm & Hnh & HF & Hsp & Hok & Hw & Hx).
    apply (views_stdout _ _ _ Hv) in Hmsg.
    destruct (hist_cases E _ _ _ _ _ Hperm Hok Hmsg)
      as [Hin|(t & past & q & Hth & Hin & Hfut)].
    + exfalso.
      assert (Hcall : main_call E fl (EvPrint (MsgSkipping name))); [|done].
      eapply Forall_forall; [apply main_calls|].
      rewrite HF. apply elem_of_app. by left.
    + pose proof (tasks_of_spawns E fl _ _ _ HF Hsp) as Htasks.
      rewrite Forall_forall in Htasks.
      destruct (Htasks _ Hth) as (wm & files & file & Hl & Hf & Ht).
      simpl in Ht. subst t.
      assert (Hcall : task_call E fl file (EvPrint (MsgSkipping name))).
      { eapply Forall_forall; [apply (task_calls E fl wm mask file)|].
        rewrite Hfut. apply elem_of_app. by left. }
      destruct Hcall as [[= ->] Hel]. by exists wm, files, file.
  - intros Hst wm files file Hl Hf Hel.
    destruct (done_reported m Hreach Hst) as [n Hmsg].
    destruct (report_means_done E fl m _ Hreach Hmsg)
      as (wm0 & files0 & Hl0 & _ & Hall).
    destruct (loaded_unique E fl _ _ _ _ Hl Hl0) as [-> ->].
    destruct (Hall file Hf) as [[_ H]|[(Hel' & _)|[Hel' _]]]; [done| |];
      congruence.
Qed.

End Outputs.

(** ** Loading the watermark and the listing *)

Section Loading.
Variable E : Env.
Variable fl : Flags.




End Loading.

(** ** Goroutines and the end of a run *)

Section Liveness.
Variable E : Env.
Variable fl : Flags.

Local Abbreviation mask := (new_mask (paramOpacity fl)).

(** X7.  The counter of the [WaitGroup] is never negative and never
    exceeds the number of entries of the listing; a goroutine that is
    about to call [wg.Done()] finds it positive, so neither [wg.Add] nor
    [wg.Done] panics; and once the final report is printed it is 0. *)
Theorem waitgroup_counter m :
  reachable E fl m ->
  0 <= wg (world m) /\
  (forall watermark files,
     loaded E fl watermark files -> wg (world m) <= Z.of_nat (length files)) /\
  (forall i p k,
     pool m !! i = Some p -> next E p = Some (EvDone, k) -> 1 <= wg (world m)) /\
  (forall n, MsgAllDone n ∈ stdout (world m) -> wg (world m) = 0).
Proof.
  intros Hreach. split; [by apply (wg_nonneg E fl)|]. split; [|split].
  - intros wm files Hl.
    destruct (wg_stage E fl m Hreach)
      as [(_ & -> & _)|[(wm' & files' & Hl' & _ & _ & Hle & _)
                       |(wm' & files' & _ & _ & ->)]]; [lia| |lia].
    by destruct (loaded_unique E fl _ _ _ _ Hl Hl') as [_ ->].
  - intros i p k. by apply (done_is_safe E fl).
  - intros n Hn.
    destruct (wg_stage E fl m Hreach)
      as [(_ & _ & Hno)|[(wm' & files' & _ & _ & _ & _ & Hno)
                        |(wm' & files' & _ & _ & ->)]]; [| |done];
      by apply Hno in Hn.
Qed.

(** X9.  One goroutine is started per entry of the listing, directories
    and files of other kinds included, in the order of the listing: the
    goroutine at an index runs the task of the entry at that index.  There
    are never more goroutines than entries, and when the final report is
    printed there is one for each. *)
Theorem goroutine_per_entry m :
  reachable E fl m ->
  (forall i p,
     pool m !! i = Some p ->
     exists watermark files file past,
       loaded E fl watermark files /\ files !! i = Some file /\
       future E (go_task E fl watermark mask file) = past ++ future E p) /\
  (forall watermark files,
     loaded E fl watermark files -> (length (pool m) <= length files)%nat) /\
  (forall n, MsgAllDone n ∈ stdout (world m) ->
     exists watermark files,
       loaded E fl watermark files /\ n = Z.of_nat (length files) /\
       length (pool m) = length files).
Proof.
  intros Hreach. split; [|split].
  - intros i p. by apply (pool_thread E fl).
  - intros wm files Hl.
    destruct (wg_stage E fl m Hreach)
      as [(-> & _)|[(wm' & files' & Hl' & Hle & _)
                   |(wm' & files' & Hl' & -> & _)]]; simpl; [lia| |].
    + by destruct (loaded_unique E fl _ _ _ _ Hl Hl') as [_ ->].
    + by destruct (loaded_unique E fl _ _ _ _ Hl Hl') as [_ ->].
  - intros n Hn.
    destruct (report_means_done E fl m n Hreach Hn) as (wm & files & Hl & -> & _).
    exists wm, files. do 2 (split; [done|]).
    destruct (wg_stage E fl m Hreach)
      as [(_ & _ & Hno)|[(wm' & files' & _ & _ & _ & _ & Hno)
                        |(wm' & files' & Hl' & Hlen & _)]];
      [by apply Hno in Hn|by apply Hno in Hn|].
    by destruct (loaded_unique E fl _ _ _ _ Hl Hl') as [_ ->].
Qed.

Lemma can_end_within n : forall m,
  (measure E m <= n)%nat -> reachable E fl m ->
  exists sched m' code,
    exec E sched m = Some m' /\ status m' = Exited code /\
    (length sched <= S (measure E m))%nat.
Proof.
  induction n as [|n IH]; intros m Hn Hreach.
  - destruct (status m) as [|code] eqn:Hst.
    + destruct (progress E fl m Hreach Hst) as (c & m1 & Hstep).
      destruct (status m1) as [|code] eqn:Hst1.
      * pose proof (step_measure E _ _ _ Hstep Hst1). lia.
      * exists [c], m1, code. simpl. rewrite Hstep. split; [done|]. split; [done|lia].
    + exists [], m, code. simpl. split; [done|]. split; [done|lia].
  - destruct (status m) as [|code] eqn:Hst.
    + destruct (progress E fl m Hreach Hst) as (c & m1 & Hstep).
      destruct (status m1) as [|code] eqn:Hst1.
      * pose proof (step_measure E _ _ _ Hstep Hst1) as Hm.
        destruct (IH m1) as (sched & m' & code & Hrun & Hst' & Hlen);
          [lia|by eapply reachable_step|].
        exists (c :: sched), m', code. simpl. rewrite Hstep.
        split; [done|]. split; [done|]. simpl. lia.
      * exists [c], m1, code. simpl. rewrite Hstep. split; [done|]. split; [done|lia].
    + exists [], m, code. simpl. split; [done|]. split; [done|lia].
Qed.

(** X10.  From every point of every run the process can be run to an
    exit, in no more steps than the calls its threads have ahead of them
    plus one: no interleaving leads into a state from which [wg.Wait()]
    cannot return. *)
Theorem every_run_can_end m :
  reachable E fl m ->
  exists sched m' code,
    exec E sched m = Some m' /\ status m' = Exited code /\
    (length sched <= S (measure E m))%nat.
Proof. intros Hreach. by apply (can_end_within (measure E m)). Qed.

End Liveness.

(** ** [saveImage] *)

Section Saving.
Variable E : Env.

(** What [saveImage] does to the file system.  When the file cannot
    be created nothing is written.  When it is created and the encoder
    fails, the process exits leaving the new file empty.  When both
    succeed the file holds the JPEG encoding of the image, always at
    quality 95, whatever it held before, and the caller goes on. *)
Lemma saveImage_effects (img : image.RGBA) (pname fname : string)
    (k : Prog) (w : World) :
  (os_Create E (path_Join E pname fname) = false ->
   replay (future E (saveImage E img pname fname k)) w
   = ({| stdout := stdout w;
         stderr := stderr w ++ [ErrCreate (path_Join E pname fname)];
         written := written w; made_dirs := made_dirs w; wg := wg w |},
      Some 1)) /\
  (os_Create E (path_Join E pname fname) = true ->
   jpeg_Encode E img 95 = None ->
   replay (future E (saveImage E img pname fname k)) w
   = ({| stdout := stdout w;
         stderr := stderr w ++ [ErrEncode (path_Join E pname fname)];
         written := <[path_Join E pname fname := []]> (written w);
         made_dirs := made_dirs w; wg := wg w |},
      Some 1)) /\
  (forall data,
     os_Create E (path_Join E pname fname) = true ->
     jpeg_Encode E img 95 = Some data ->
     replay (future E (saveImage E img pname fname k)) w
     = replay (future E k)
         {| stdout := stdout w; stderr := stderr w;
            written := <[path_Join E pname fname := data]> (written w);
            made_dirs := made_dirs w; wg := wg w |}).
Proof.
  unfold saveImage. split; [|split].
  - intros Hcr. simpl. rewrite Hcr. simpl. by destruct w.
  - intros Hcr Henc. simpl. rewrite Hcr. simpl. rewrite Henc. simpl. done.
  - intros data Hcr Henc. simpl. rewrite Hcr. simpl. rewrite Henc. simpl.
    by rewrite insert_insert_eq.
Qed.

End Saving.

(** ** A mask of alpha 0 *)

Section ZeroMask.
Import image.

Lemma over_zero_mask_channel dc sc sa :
  byte_range dc ->
  uint8 (Z.shiftr
           (uint32 (uint32 (dc * uint32 ((draw.m - uint32 (sa * 0) / draw.m) * 257))
                    + uint32 (sc * 0)) / draw.m) 8) = dc.
Proof.
  intros Hd. unfold byte_range in Hd.
  rewrite !Z.mul_0_r. unfold draw.m.
  change (uint32 0) with 0. change (0 / 65535) with 0.
  change (uint32 ((65535 - 0) * 257)) with 16842495.
  rewrite Z.add_0_r. unfold uint32, uint8.
  rewrite Zmod_mod. rewrite Z.shiftr_div_pow2 by lia.
  change (2 ^ 32) with 4294967296. change (2 ^ 8) with 256.
  Z.div_mod_to_equations. lia.
Qed.

Lemma blend_over_zero_mask d s :
  byte_range (color.R d) -> byte_range (color.G d) ->
  byte_range (color.B d) -> byte_range (color.A d) ->
  draw.blend draw.Over d s 0 = d.
Proof.
  intros Hr Hg Hb Ha. destruct d as [r g b a]. simpl in *.
  f_equal; by apply over_zero_mask_channel.
Qed.

(** X14.  When the alpha of the mask is 0, as it is for [-opacity 0] (and
    for 256 and every other multiple of it), drawing the watermark changes
    no byte: the canvas is the copy of the photo, whatever the watermark
    and the offset. *)
Theorem zero_opacity_leaves_photo (srcImage scaledWatermark : Image)
    (opacity : Z) (off : Point) :
  mask_value opacity = 0 ->
  composite srcImage scaledWatermark (new_mask opacity) off
  = base_canvas srcImage.
Proof.
  intros Hzero. destruct (base_canvas srcImage) as [base|] eqn:Hb.
  2:{ by apply composite_none. }
  rewrite (composite_eq _ _ _ _ _ Hb).
  destruct (base_canvas_shape _ _ Hb) as [Hwf Hok].
  destruct (DrawMask_spec base (Add (Bounds srcImage) off) scaledWatermark
              (Pt 0 0) (Some (new_mask opacity)) (Pt 0 0) draw.Over Hwf)
    as (dst' & -> & Hs & Hr & Hl & Hpx).
  f_equal. apply canvas_ext; try done.
  intros x y Hxy. rewrite Hpx by done.
  destruct (covered _ _ _ _ _ _ _ _); [|done].
  unfold draw.mask_alpha, new_mask. simpl. rewrite Hzero. simpl.
  apply blend_over_zero_mask; by apply RGBAAt_bytes.
Qed.

End ZeroMask.

(** ** Runs of the examples *)

Lemma no_overwrite_without_force_witness :
  written (world (final occupied_env default_flags (main_only 23))) = ∅ /\
  made_dirs (world (final occupied_env default_flags (main_only 23))) = [] /\
  pool (final occupied_env default_flags (main_only 23)) = [] /\
  (forall n, MsgAllDone n ∉ stdout (world (final occupied_env default_flags (main_only 23)))) /\
  (forall code,
     status (final occupied_env default_flags (main_only 23)) = Exited code ->
     code = 1).
Proof.
  apply (no_overwrite_without_force occupied_env default_flags);
    [reflexivity|reflexivity|].
  apply final_reachable. vm_compute. eauto.
Defined.

Lemma failed_check_stops_run_witness :
  pool (final bare_env default_flags (main_only 18)) = [] /\
  written (world (final bare_env default_flags (main_only 18))) = ∅ /\
  made_dirs (world (final bare_env default_flags (main_only 18))) = [] /\
  (forall n, MsgAllDone n ∉ stdout (world (final bare_env default_flags (main_only 18)))) /\
  (status (final bare_env default_flags (main_only 18)) = Running ->
   stderr (world (final bare_env default_flags (main_only 18))) = []) /\
  (forall code,
     status (final bare_env default_flags (main_only 18)) = Exited code ->
     code = 1 /\
     stderr (world (final bare_env default_flags (main_only 18)))
     = [ErrWatermarkMissing "watermark.png"]).
Proof.
  apply (failed_check_stops_run bare_env default_flags).
  - by apply (watermark_missing bare_env default_flags).
  - apply final_reachable. vm_compute. eauto.
Defined.

Example bare_run_exits :
  status (final bare_env default_flags (main_only 18)) = Exited 1 /\
  status (final occupied_env default_flags (main_only 23)) = Exited 1 /\
  status (final unreadable_env default_flags (main_only 23)) = Exited 1 /\
  made_dirs (world (final unreadable_env default_flags (main_only 23)))
  = ["watermarked"].
Proof. vm_compute. repeat split. Qed.

Lemma demo_final_reachable : reachable demo_env default_flags demo_final.
Proof. apply final_reachable. vm_compute. eauto. Qed.

Lemma demo_loaded : loaded demo_env default_flags white_dot demo_files.
Proof. split; [reflexivity|]. split; [|reflexivity]. exists [1]. by split. Qed.

Lemma demo_targets_distinct (f g : FileInfo) :
  f ∈ demo_files -> g ∈ demo_files ->
  target_path demo_env default_flags f = target_path demo_env default_flags g ->
  Name f = Name g.
Proof.
  unfold demo_files. intros Hf Hg.
  repeat (apply elem_of_cons in Hf as [->|Hf]);
    repeat (apply elem_of_cons in Hg as [->|Hg]);
    try (by apply elem_of_nil in Hf); try (by apply elem_of_nil in Hg);
    vm_compute; intros H; first [reflexivity|discriminate H].
Qed.

Lemma target_dir_before_work_witness :
  (made_dirs (world demo_final) = [] \/
   (made_dirs (world demo_final) = [paramTargetDir default_flags] /\
    os_Stat demo_env (paramTargetDir default_flags) <> StatOk)) /\
  (written (world demo_final) <> ∅ -> pool demo_final <> []) /\
  (pool demo_final <> [] ->
   (os_Stat demo_env (paramTargetDir default_flags) = StatOk ->
    paramForce default_flags = true /\ made_dirs (world demo_final) = []) /\
   (os_Stat demo_env (paramTargetDir default_flags) <> StatOk ->
    made_dirs (world demo_final) = [paramTargetDir default_flags])).
Proof.
  apply (target_dir_before_work demo_env default_flags).
  apply final_reachable. vm_compute. eauto.
Defined.


Lemma final_outputs_witness :
  (forall file, file ∈ demo_files -> eligible file = true ->
     written (world demo_final) !! target_path demo_env default_flags file
     = task_output demo_env default_flags white_dot
         (new_mask (paramOpacity default_flags)) file) /\
  (forall fpath, is_Some (written (world demo_final) !! fpath) ->
     exists file, file ∈ demo_files /\ eligible file = true /\
                  fpath = target_path demo_env default_flags file).
Proof.
  apply (final_outputs demo_env default_flags demo_final white_dot demo_files).
  - apply final_reachable. vm_compute. eauto.
  - left. vm_compute. reflexivity.
  - apply demo_loaded.
  - apply demo_targets_distinct.
Defined.

Lemma skip_notices_witness :
  (forall name, MsgSkipping name ∈ stdout (world demo_final) ->
     exists watermark files file,
       loaded demo_env default_flags watermark files /\ file ∈ files /\
       Name file = name /\ eligible file = false) /\
  (status demo_final = Exited 0 \/ reported demo_final ->
   forall watermark files file,
     loaded demo_env default_flags watermark files -> file ∈ files ->
     eligible file = false ->
     MsgSkipping (Name file) ∈ stdout (world demo_final)).
Proof.
  apply (skip_notices demo_env default_flags).
  apply final_reachable. vm_compute. eauto.
Defined.

Lemma waitgroup_counter_witness :
  0 <= wg (world demo_created) /\
  (forall watermark files,
     loaded demo_env default_flags watermark files ->
     wg (world demo_created) <= Z.of_nat (length files)) /\
  (forall i p k,
     pool demo_created !! i = Some p -> next demo_env p = Some (EvDone, k) ->
     1 <= wg (world demo_created)) /\
  (forall n, MsgAllDone n ∈ stdout (world demo_created) ->
     wg (world demo_created) = 0).
Proof.
  apply (waitgroup_counter demo_env default_flags).
  apply final_reachable. vm_compute. eauto.
Defined.


Lemma goroutine_per_entry_witness :
  (forall i p,
     pool demo_final !! i = Some p ->
     exists watermark files file past,
       loaded demo_env default_flags watermark files /\ files !! i = Some file /\
       future demo_env
         (go_task demo_env default_flags watermark
            (new_mask (paramOpacity default_flags)) file)
       = past ++ future demo_env p) /\
  (forall watermark files,
     loaded demo_env default_flags watermark files ->
     (length (pool demo_final) <= length files)%nat) /\
  (forall n, MsgAllDone n ∈ stdout (world demo_final) ->
     exists watermark files,
       loaded demo_env default_flags watermark files /\
       n = Z.of_nat (length files) /\
       length (pool demo_final) = length files).
Proof.
  apply (goroutine_per_entry demo_env default_flags).
  apply final_reachable. vm_compute. eauto.
Defined.

Lemma every_run_can_end_witness :
  exists sched m' code,
    exec demo_env sched demo_created = Some m' /\ status m' = Exited code /\
    (length sched <= S (measure demo_env demo_created))%nat.
Proof.
  apply (every_run_can_end demo_env default_flags).
  apply final_reachable. vm_compute. eauto.
Defined.



Lemma zero_opacity_leaves_photo_witness :
  composite black_photo tall_watermark (new_mask 0) (image.Pt 0 (-1))
  = base_canvas black_photo.
Proof.
  apply (zero_opacity_leaves_photo black_photo tall_watermark 0).
  reflexivity.
Defined.

(** ** Runs under different schedules *)

Section Agreement.
Variable E : Env.
Variable fl : Flags.

Local Abbreviation mask := (new_mask (paramOpacity fl)).

Lemma finished_prints pool threads :
  Forall2 (thread_ok E) pool threads ->
  Forall (is_task E fl) threads ->
  Forall (fun th => wg_of th.2 = -1) threads ->
  omap print_of (concat (threads.*2))
  = flat_map (fun t => omap print_of (future E t)) (threads.*1).
Proof.
  induction 1 as [|p [t past] pool threads Hp _ IH]; intros Htasks Hdone; [done|].
  apply Forall_cons in Htasks as [(wm & files & file & _ & _ & Ht) Htasks].
  apply Forall_cons in Hdone as [Hd Hdone]. simpl in Ht, Hd. subst t.
  unfold thread_ok in Hp. simpl in Hp.
  cbn [fmap list_fmap concat snd fst flat_map].
  rewrite omap_app, (IH Htasks Hdone). f_equal.
  rewrite Hp, omap_app.
  destruct (task_progress E fl _ _ _ _ _ Hp) as [[H0 _]|[_ [->| ->]]]; [lia| |];
    simpl; by rewrite app_nil_r.
Qed.


End Agreement.


(** ** Standard output, line by line *)

Section Order.
Variable E : Env.
Variable fl : Flags.

Local Abbreviation mask := (new_mask (paramOpacity fl)).

Lemma wait_in_or_not (l : list Event) : EvWait ∈ l \/ EvWait ∉ l.
Proof.
  induction l as [|e l [IH|IH]]; [right; by intros H%elem_of_nil| |].
  - left. by right.
  - destruct e; try (right; intros [H|H]%elem_of_cons; [discriminate H|done]).
    left. by left.
Qed.

Lemma before_wait_app l l' :
  EvWait ∉ l -> before_wait (l ++ l') = l ++ before_wait l'.
Proof.
  induction l as [|e l IH]; [done|]. intros Hn.
  apply not_elem_of_cons in Hn as [He Hn]. simpl. rewrite (IH Hn).
  by destruct e.
Qed.

Lemma after_wait_app l l' :
  EvWait ∉ l -> after_wait (l ++ l') = after_wait l'.
Proof.
  induction l as [|e l IH]; [done|]. intros Hn.
  apply not_elem_of_cons in Hn as [He Hn]. simpl. rewrite (IH Hn).
  by destruct e.
Qed.

Lemma before_wait_in l l' : EvWait ∈ l -> before_wait (l ++ l') = before_wait l.
Proof.
  induction l as [|e l IH]; [by intros H%elem_of_nil|].
  intros [He|Hin]%elem_of_cons; [by subst e|].
  destruct e; simpl; rewrite ?(IH Hin); done.
Qed.

Lemma after_wait_in l l' : EvWait ∈ l -> after_wait (l ++ l') = after_wait l ++ l'.
Proof.
  induction l as [|e l IH]; [by intros H%elem_of_nil|].
  intros [He|Hin]%elem_of_cons; [by subst e|].
  destruct e; simpl; rewrite ?(IH Hin); done.
Qed.

Lemma prints_around_wait (l : list Event) :
  omap print_of l
  = omap print_of (before_wait l) ++ omap print_of (after_wait l).
Proof.
  induction l as [|e l IH]; [done|].
  destruct e; simpl; first [done|exact IH|f_equal; exact IH].
Qed.

(** One more call of [main]: what it prints goes behind the notices only
    when [main] is past [wg.Wait()] or there is no notice yet. *)
Lemma printed_snoc (l : list Event) (e : Event) (notices : list Msg) :
  (EvWait ∉ l -> is_Some (print_of e) -> notices = []) ->
  omap print_of (before_wait (l ++ [e])) ++ notices ++
  omap print_of (after_wait (l ++ [e]))
  = (omap print_of (before_wait l) ++ notices ++ omap print_of (after_wait l))
    ++ option_list (print_of e).
Proof.
  intros Hn. destruct (wait_in_or_not l) as [Hin|Hnot].
  - rewrite (before_wait_in _ _ Hin), (after_wait_in _ _ Hin), omap_app.
    by rewrite <- !app_assoc.
  - rewrite (before_wait_app _ _ Hnot), (after_wait_app _ _ Hnot).
    assert (Ha : after_wait l = []).
    { by rewrite <- (app_nil_r l), (after_wait_app _ _ Hnot). }
    pose proof (before_wait_app l [] Hnot) as Hb.
    simpl in Hb. rewrite !app_nil_r in Hb.
    rewrite Ha, Hb, omap_app. simpl.
    destruct (print_of e) as [msg|] eqn:Hp.
    + rewrite (Hn Hnot) by done. simpl.
      destruct e; simplify_eq/=. by rewrite !app_nil_r.
    + destruct e; simplify_eq/=; by rewrite ?app_nil_r.
Qed.

(** A call of [main] that prints while no [wg.Wait()] is behind it comes
    before the first goroutine. *)
Lemma print_before_spawn past0 e fut :
  future E (main E fl) = past0 ++ e :: fut ->
  EvWait ∉ past0 -> is_Some (print_of e) -> spawns past0 = [].
Proof.
  intros HF Hnot [msg Hp].
  destruct (main_stage E fl (past0 ++ [e]) fut) as [Hq|[H|[H|H]]].
  { by rewrite <- app_assoc. }
  - apply Forall_app in Hq as [Hq _]. by apply spawns_quiet.
  - destruct H as (pre & wm & started & rest & _ & Hpre & Hpast & _).
    exfalso. destruct started as [|f started _] using rev_ind.
    + simpl in Hpast.
      apply app_inj_tail in Hpast as [_ ->]. discriminate Hp.
    + rewrite map_app in Hpast. simpl in Hpast.
      rewrite app_comm_cons, app_assoc in Hpast.
      apply app_inj_tail in Hpast as [_ ->]. discriminate Hp.
  - destruct H as (pre & wm & files & k & _ & _ & Hpast & _).
    exfalso. apply Hnot.
    assert (Hin : EvWait ∈ past0 ++ [e]).
    { rewrite Hpast. apply elem_of_app. right. apply elem_of_app. right.
      apply elem_of_app. right. by left. }
    apply elem_of_app in Hin as [Hin|Hin]; [done|].
    apply list_elem_of_singleton in Hin. subst e. discriminate Hp.
  - destruct H as (_ & pre & h & Hpast & Hh & _).
    apply app_inj_tail in Hpast as [_ ->]. by destruct h.
Qed.

(** What has been printed, in order: the lines of [main] before
    [wg.Wait()], the notices of the goroutines, the lines of [main] after
    it. *)
Lemma stdout_order m :
  reachable E fl m ->
  exists past0 notices,
    future E (main E fl) = past0 ++ future E (main_thread m) /\
    (spawns past0 = [] -> notices = []) /\
    stdout (world m)
    = omap print_of (before_wait past0) ++ notices ++
      omap print_of (after_wait past0).
Proof.
  intros Hreach. pattern m. revert m Hreach. apply reachable_ind.
  { by exists [], []. }
  intros c m m' Hreach (past0 & notices & HF & Hn0 & Hout) Hstep.
  apply mstep_inv in Hstep
    as [Hst [(_ & _ & Hw & _ & Hm & _)|(p & e & k & Hat & Hn & Hen & ->)]].
  { exists past0, notices. by rewrite Hm, Hw. }
  unfold commit.
  destruct (effect e (world m)) as [w' [code|]] eqn:Heff.
  { apply effect_halt in Heff as (Hs & _). exists past0, notices. simpl.
    by rewrite Hs. }
  apply effect_continue in Heff as (_ & Hs & _).
  pose proof (next_future _ _ _ _ Hn) as Hfut.
  destruct c as [|i]; simpl in Hat; simpl.
  - injection Hat as <-. rewrite Hfut in HF.
    exists (past0 ++ [e]), notices. split; [by rewrite <- app_assoc|].
    split.
    { rewrite spawns_app. intros [H _]%app_eq_nil. by apply Hn0. }
    rewrite Hs, Hout. symmetry. apply printed_snoc.
    intros Hnot Hp. apply Hn0. by apply (print_before_spawn past0 e (future E k)).
  - destruct (print_of e) as [msg|] eqn:Hp.
    2:{ exists past0, notices. simpl in Hs. rewrite app_nil_r in Hs.
        by rewrite Hs. }
    destruct (reachable_Inv E fl m Hreach)
      as (hist & past0' & threads & Hv & Hperm & Hnh & HF' & Hsp & Hok & Hw & Hx).
    assert (past0' = past0) as ->.
    { rewrite HF in HF'. by apply app_inv_tail in HF'. }
    destruct (Forall2_lookup_l _ _ _ _ _ Hok Hat) as ([t past] & Hth & Hokp).
    unfold thread_ok in Hokp. simpl in Hokp.
    pose proof (list_elem_of_lookup_2 _ _ _ Hth) as Hth'.
    assert (Hnot : EvWait ∉ past0).
    { intros Hin. specialize (Hw Hin). rewrite Forall_forall in Hw.
      specialize (Hw _ Hth'). simpl in Hw.
      pose proof (tasks_of_spawns E fl _ _ _ HF Hsp) as Htasks.
      rewrite Forall_forall in Htasks.
      destruct (Htasks _ Hth') as (wm & files & file & _ & _ & Ht).
      simpl in Ht. subst t.
      destruct (task_progress E fl _ _ _ _ _ Hokp) as [[H0 _]|[_ [H|H]]];
        [lia| |]; rewrite Hfut in H; [done|].
      injection H as -> _. discriminate Hp. }
    exists past0, (notices ++ [msg]). split; [done|]. split.
    { intros H. rewrite H in Hsp. symmetry in Hsp.
      apply fmap_nil_inv in Hsp. subst threads. by apply elem_of_nil in Hth'. }
    rewrite Hs, Hout. simpl.
    assert (Ha : after_wait past0 = []).
    { by rewrite <- (app_nil_r past0), (after_wait_app _ _ Hnot). }
    rewrite Ha. simpl. by rewrite !app_nil_r, <- !app_assoc.
Qed.

Lemma prints_gos watermark (files : list FileInfo) :
  omap print_of
    (map (fun file => EvGo (go_task E fl watermark mask file)) files) = [].
Proof. by induction files. Qed.

Local Opaque load_and_run.

(** What [main] prints, by the outcome of the checks. *)
Lemma main_prints :
  omap print_of (future E (main E fl))
  = banner fl ++
    match validate E fl with
    | Rejected _ => []
    | Refused =>
        [WarnTargetExists (paramTargetDir fl);
         Text "         Use --force to overwrite existing files";
         Text "         Exiting to avoid overwriting existing files."]
    | Accepted _ =>
        target_lines E fl ++ omap print_of (future E (load_and_run E fl))
    end.
Proof.
  unfold main, validate, target_lines, banner, Println. simpl.
  destruct (os_Stat E (paramWatermark fl)); try done;
    (destruct (gostrings.HasSuffix (paramWatermark fl) ".png"); simpl;
     [|done]);
    (destruct (os_Stat E (paramSourceDir fl)); simpl; try done);
    (destruct (os_Stat E (paramTargetDir fl)); simpl; try done);
    by destruct (paramForce fl).
Qed.

Local Transparent load_and_run.

Lemma load_prints watermark files :
  loaded E fl watermark files ->
  omap print_of (future E (load_and_run E fl))
  = [Text rule; MsgStarting (Z.of_nat (length files));
     MsgAllDone (Z.of_nat (length files)); Text rule; Text "";
     Text "Press any key to exit"].
Proof.
  intros (_ & (inputfile & Hopen & Hdec) & Hdir).
  unfold load_and_run, openImage, getFiles, Println. simpl.
  rewrite Hopen. simpl. rewrite Hdec. simpl. rewrite Hdir.
  rewrite future_run_batch. unfold batch_events.
  rewrite !omap_app, prints_gos. done.
Qed.

Lemma task_prints watermark (file : FileInfo) :
  omap print_of (future E (go_task E fl watermark mask file))
  = if eligible file then [] else [MsgSkipping (Name file)].
Proof.
  destruct (future_go_task E fl watermark mask file)
    as [Hel|data Hel _|Hel _|body msg Hel _ _ Hbody]; rewrite Hel; try done.
  rewrite omap_app. simpl. rewrite app_nil_r.
  induction Hbody as [|e body He _ IH]; [done|].
  destruct He as [->|[[ok ->]| ->]]; simpl; exact IH.
Qed.

(** X15.  What a run that ends normally has printed, line by line: the
    banner and the parameters, the warning about the target directory
    when it exists, the rule and the number of entries, then the skip
    notices of the entries that are no [.jpg] or [.jpeg], one each and in
    any order, then the final report with the number of entries, the rule,
    an empty line and the prompt. *)
Theorem normal_run_stdout m watermark files :
  reachable E fl m -> status m = Exited 0 ->
  loaded E fl watermark files ->
  exists notices,
    notices ≡ₚ notices_of files /\
    stdout (world m)
    = banner fl ++ target_lines E fl ++
      [Text rule; MsgStarting (Z.of_nat (length files))] ++
      notices ++
      [MsgAllDone (Z.of_nat (length files)); Text rule; Text "";
       Text "Press any key to exit"].
Proof.
  intros Hreach Hst Hl.
  destruct (stdout_order m Hreach) as (past0 & notices & HF & _ & Hout).
  destruct (reachable_Inv E fl m Hreach)
    as (hist & past0' & threads & Hv & Hperm & Hnh & HF' & Hsp & Hok & Hw & Hx).
  assert (past0' = past0) as ->.
  { rewrite HF in HF'. by apply app_inv_tail in HF'. }
  rewrite (Hx Hst), app_nil_r in HF. subst past0. clear HF'.
  destruct (exit0_reported E fl m Hreach Hst) as (wm' & files' & Hl' & Hmsg).
  destruct (loaded_unique E fl _ _ _ _ Hl Hl') as [-> ->].
  assert (Hsplit : exists l1 l2, future E (main E fl) = l1 ++ EvWait :: l2).
  { apply (views_stdout _ _ _ Hv) in Hmsg.
    pose proof (tasks_of_spawns E fl _ _ _ (eq_sym (app_nil_r _)) Hsp) as Htasks.
    destruct (hist_cases E _ _ _ _ _ Hperm Hok Hmsg)
      as [Hin|(t & past & q & Hth & Hin & Hfut)].
    - apply list_elem_of_split in Hin as (l1 & l2 & Hs).
      destruct (report_position E fl _ _ _ Hs) as (_ & _ & _ & _ & Hin & _).
      apply list_elem_of_split in Hin as (a & b & ->).
      exists a, (b ++ EvPrint (MsgAllDone (Z.of_nat (length files))) :: l2).
      by rewrite Hs, <- app_assoc.
    - exfalso. rewrite Forall_forall in Htasks.
      destruct (Htasks _ Hth) as (wm0 & files0 & file & _ & _ & Ht).
      simpl in Ht. subst t.
      destruct (task_event_plain E fl wm0 mask file
                  (EvPrint (MsgAllDone (Z.of_nat (length files)))))
        as (_ & _ & _ & Hne).
      { rewrite Hfut. apply elem_of_app. by left. }
      by eapply Hne. }
  destruct Hsplit as (l1 & l2 & Hsplit).
  destruct (wait_position E fl _ _ Hsplit)
    as (pre & wm' & files' & Hl'' & Hpre & Hl1 & Hl2).
  destruct (loaded_unique E fl _ _ _ _ Hl Hl'') as [-> ->].
  assert (Hnot : EvWait ∉ l1).
  { rewrite Hl1. intros [H|H]%elem_of_app.
    - rewrite Forall_forall in Hpre. by specialize (Hpre _ H).
    - apply elem_of_app in H as [H|H].
      + repeat (apply elem_of_cons in H as [H|H]; [discriminate H|]).
        by apply elem_of_nil in H.
      + apply list_elem_of_fmap in H as (f & H & _). discriminate H. }
  assert (Hb : before_wait (future E (main E fl)) = l1).
  { rewrite Hsplit, (before_wait_app _ _ Hnot). simpl. by rewrite app_nil_r. }
  assert (Ha : after_wait (future E (main E fl)) = l2).
  { by rewrite Hsplit, (after_wait_app _ _ Hnot). }
  assert (Hhead : omap print_of l1
                  = banner fl ++ target_lines E fl ++
                    [Text rule; MsgStarting (Z.of_nat (length files))]).
  { pose proof main_prints as Hmain.
    rewrite (prints_around_wait (future E (main E fl))), Hb, Ha in Hmain.
    destruct (validate E fl) as [msg| |mkdir] eqn:Hval.
    - exfalso. destruct (main_verdict E fl) as (pre' & _ & Hv').
      rewrite Hval in Hv'.
      assert (Hin : EvFatal msg ∈ hist).
      { rewrite Hperm, Hv'. apply elem_of_app. left. apply elem_of_app.
        right. by left. }
      rewrite Forall_forall in Hnh. by specialize (Hnh _ Hin).
    - exfalso. destruct (main_verdict E fl) as (pre' & _ & Hv').
      rewrite Hval in Hv'.
      assert (Hin : EvExit 1 ∈ hist).
      { rewrite Hperm, Hv'. apply elem_of_app. left. apply elem_of_app.
        right. by left. }
      rewrite Forall_forall in Hnh. by specialize (Hnh _ Hin).
    - rewrite (load_prints _ _ Hl) in Hmain.
      assert (Htail : omap print_of l2
                      = [MsgAllDone (Z.of_nat (length files)); Text rule;
                         Text ""; Text "Press any key to exit"])
        by (by rewrite Hl2).
      rewrite Htail in Hmain.
      replace (banner fl ++ target_lines E fl ++
               [Text rule; MsgStarting (Z.of_nat (length files));
                MsgAllDone (Z.of_nat (length files)); Text rule; Text "";
                Text "Press any key to exit"])
        with ((banner fl ++ target_lines E fl ++
               [Text rule; MsgStarting (Z.of_nat (length files))]) ++
              [MsgAllDone (Z.of_nat (length files)); Text rule; Text "";
               Text "Press any key to exit"]) in Hmain
        by (by rewrite <- !app_assoc).
      by apply app_inv_tail in Hmain. }
  exists notices. split.
  - assert (Hwait : EvWait ∈ future E (main E fl)).
    { rewrite Hsplit. apply elem_of_app. right. by left. }
    pose proof (tasks_of_spawns E fl _ _ _ (eq_sym (app_nil_r _)) Hsp) as Htasks.
    pose proof (finished_prints E fl _ _ Hok Htasks (Hw Hwait)) as Hq.
    assert (Hnotes : flat_map (fun t => omap print_of (future E t)) (threads.*1)
                     = notices_of files).
    { rewrite <- Hsp, Hsplit, Hl1, Hl2, !spawns_app, (spawns_quiet _ Hpre),
        spawns_gos. simpl. rewrite app_nil_r. unfold notices_of.
      clear. induction files as [|f files IH]; [done|].
      simpl. by rewrite IH, task_prints. }
    rewrite <- Hnotes, <- Hq.
    destruct Hv as (Hs & _ & _).
    assert (Hp : omap print_of (before_wait (future E (main E fl))) ++
                 notices ++ omap print_of (after_wait (future E (main E fl)))
                 ≡ₚ omap print_of (future E (main E fl)) ++
                    omap print_of (concat (threads.*2))).
    { by rewrite <- Hout, Hs, Hperm, omap_app. }
    rewrite (prints_around_wait (future E (main E fl))), <- app_assoc in Hp.
    apply (inj (app _)) in Hp.
    rewrite (comm app (omap print_of (after_wait _)) _) in Hp.
    by apply (inj (fun l => l ++ _)) in Hp.
  - rewrite Hout, Hb, Ha, Hhead, Hl2. simpl. by rewrite <- !app_assoc.
Qed.

End Order.

Lemma normal_run_stdout_witness :
  exists notices,
    notices ≡ₚ notices_of demo_files /\
    stdout (world demo_final)
    = banner default_flags ++ target_lines demo_env default_flags ++
      [Text rule; MsgStarting (Z.of_nat (length demo_files))] ++
      notices ++
      [MsgAllDone (Z.of_nat (length demo_files)); Text rule; Text "";
       Text "Press any key to exit"].
Proof.
  apply (normal_run_stdout demo_env default_flags demo_final white_dot
           demo_files).
  - apply final_reachable. vm_compute. eauto.
  - vm_compute. reflexivity.
  - apply demo_loaded.
Defined.
